(** * Kypher query translation and the KGTK edge reader

    A shallow embedding of [kgtk/kypher/query.py] (class [KgtkQuery]) and of
    [kgtk/join/edgereader.py] (class [EdgeReader]), followed by the properties
    of the design document that were established about the embedded functions.

    Python strings are [string]s of bytes; a dictionary whose insertion order
    is observable is an association list, other dictionaries are [gmap]s;
    a set is a [gset], except where its iteration order is observed: then it
    is the duplicate-free list of its elements in iteration order.  A raised
    exception is the [Err] case of [result]. *)

From Stdlib Require Import Ascii String ZArith Lia.
From stdpp Require Import base decidable option list strings pretty gmap
  relations sorting.

(** ** Exceptions *)

Inductive error : Type :=
| UndefinedParameter (name : string)
| IllegalContext (query_var : string)
| UndefinedVariable (query_var : string)
| UnsupportedOperator (op : string)
| IllegalCast
| UnhandledPropertyLookup
| UnhandledOperator (op : string)
| UnhandledExpressionType
| FailedToMapHandle (handle : string)
| KeyError (key : string)
| IndexError
| TypeError.

Inductive result (A : Type) : Type :=
| Ok (a : A)
| Err (e : error).
Arguments Ok {A} a.
Arguments Err {A} e.

#[global] Instance result_ret : MRet result := λ A a, Ok a.
#[global] Instance result_bind : MBind result := λ A B f r,
  match r with
  | Ok a => f a
  | Err e => Err e
  end.

Definition is_Err {A} (r : result A) : Prop :=
  match r with Ok _ => False | Err _ => True end.

(** ** Python string primitives *)

Module Py.

(** The double-quote and line-feed characters. *)
Definition dquote : ascii := "034"%char.
Definition newline : ascii := "010"%char.

(** [s.startswith(p)] *)
Definition startswith (p s : string) : bool := String.prefix p s.

(** [c in s] for a single character [c]. *)
Fixpoint has_char (c : ascii) (s : string) : bool :=
  match s with
  | EmptyString => false
  | String a r => if decide (a = c) then true else has_char c r
  end.

(** [s.count(c)] for a single character [c]. *)
Fixpoint count_char (c : ascii) (s : string) : nat :=
  match s with
  | EmptyString => 0
  | String a r => (if decide (a = c) then 1 else 0) + count_char c r
  end.

Definition cons_head (c : ascii) (l : list string) : list string :=
  match l with
  | t :: ts => String c t :: ts
  | [] => [String c ""]
  end.

(** [s.split(sep)] for a non-empty separator, which is also
    [re.split] on a pattern that matches exactly the text [sep]: the
    leftmost, non-overlapping occurrences of [sep] cut the text.  [skip]
    counts the characters of the current occurrence still to pass over. *)
Fixpoint split_go (sep : string) (skip : nat) (s : string) : list string :=
  match s with
  | EmptyString => [""]
  | String c r =>
      match skip with
      | S k => split_go sep k r
      | O =>
          if String.prefix sep s
          then "" :: split_go sep (String.length sep - 1) r
          else cons_head c (split_go sep 0 r)
      end
  end.

Definition split (sep s : string) : list string := split_go sep 0 s.

(** [sep.join(l)] *)
Definition join (sep : string) (l : list string) : string :=
  String.concat sep l.

(** [s[:-n]] for [n > 0] *)
Definition drop_last (n : nat) (s : string) : string :=
  String.substring 0 (String.length s - n) s.

(** [s.isascii()] *)
Fixpoint isascii (s : string) : bool :=
  match s with
  | EmptyString => true
  | String c r => (nat_of_ascii c <? 128)%nat && isascii r
  end.

(** [s.upper()] for a text [s] with [s.isascii()]: the letters [a] to [z]
    are replaced, every other character is kept. *)
Definition upper_char (c : ascii) : ascii :=
  let n := nat_of_ascii c in
  if (97 <=? n)%nat && (n <=? 122)%nat then ascii_of_nat (n - 32) else c.

Fixpoint upper (s : string) : string :=
  match s with
  | EmptyString => EmptyString
  | String c r => String (upper_char c) (upper r)
  end.

(** [s.endswith(p)] *)
Definition endswith (p s : string) : bool :=
  (String.length p <=? String.length s)%nat
  && String.eqb (String.substring (String.length s - String.length p)
                                  (String.length p) s) p.

(** [key.find(sub) >= 0], also [sub in key] *)
Fixpoint contains (sub key : string) : bool :=
  String.prefix sub key
  || match key with
     | EmptyString => false
     | String _ r => contains sub r
     end.

(** [s.replace(a, b)] for a single character [a]. *)
Fixpoint replace_char (a : ascii) (b : string) (s : string) : string :=
  match s with
  | EmptyString => EmptyString
  | String c r =>
      if decide (c = a) then b +:+ replace_char a b r
      else String c (replace_char a b r)
  end.

(** [os.path.basename(p)]: what follows the last slash. *)
Fixpoint basename (p : string) : string :=
  match p with
  | EmptyString => EmptyString
  | String c r =>
      if has_char "/" r then basename r
      else if decide (c = "/"%char) then r else p
  end.

Definition is_digit (c : ascii) : bool :=
  let n := nat_of_ascii c in (48 <=? n)%nat && (n <=? 57)%nat.

(** The rest of a match of [[0-9]+$]: digits up to the end of the text, or
    up to a line feed that ends the text. *)
Fixpoint digits_to_end (s : string) : bool :=
  match s with
  | EmptyString => true
  | String c r =>
      if is_digit c then digits_to_end r
      else bool_decide (c = newline) && bool_decide (r = "")
  end.

Definition match_digits_at_end (s : string) : bool :=
  match s with
  | EmptyString => false
  | String c r => is_digit c && digits_to_end r
  end.

(** [re.search('[0-9]+$', s)]: the start of the leftmost match, tried at
    the positions [i], [i+1], ... of the text. *)
Fixpoint search_digits_at_end (i : nat) (s : string) : option nat :=
  match s with
  | EmptyString => None
  | String _ r =>
      if match_digits_at_end s then Some i
      else search_digits_at_end (S i) r
  end.

End Py.

(** ** The literal parameter table *)

Module Literals.
Section Literals.

(** The type of literal values; dictionary keys are compared for equality. *)
Context {L : Type} `{EqDecision L}.

(** [litmap]: a dictionary from literals to placeholders, in insertion
    order. *)
Definition litmap : Type := list (L * string).

(** [literal in litmap] and [litmap[literal]] *)
Fixpoint dict_get (literal : L) (m : litmap) : option string :=
  match m with
  | [] => None
  | (l, p) :: m' => if decide (l = literal) then Some p else dict_get literal m'
  end.

(** ['???%d??' % n] *)
Definition placeholder (n : nat) : string := "???" +:+ pretty n +:+ "??".

Definition get_literal_parameter (literal : L) (m : litmap)
  : string * litmap :=
  match dict_get literal m with
  | Some p => (p, m)
  | None =>
      let placeholder := placeholder (length m) in
      (placeholder, m ++ [(literal, placeholder)])
  end.

(** The literal map after interning the values [vs] in turn, starting from
    the empty dictionary of [translate_to_sql]. *)
Definition interned (vs : list L) : litmap :=
  fold_left (λ m v, (get_literal_parameter v m).2) vs [].

(** [{p: l for l, p in litmap.items()}[p]]: a later item overwrites an
    earlier one with the same placeholder. *)
Fixpoint reverse_get (p : string) (m : litmap) : option L :=
  match m with
  | [] => None
  | (l, p') :: m' =>
      match reverse_get p m' with
      | Some l' => Some l'
      | None => if decide (p' = p) then Some l else None
      end
  end.

(** The loop of [replace_literal_parameters] over the tokens, with the
    texts written to [query] and the parameters appended, in order. *)
Fixpoint replace_tokens (m : litmap) (tokens : list string)
  : result (string * list L) :=
  match tokens with
  | [] => Ok ("", [])
  | token :: rest =>
      if Py.startswith "?" token then
        match reverse_get ("??" +:+ token +:+ "??") m with
        | None => Err (KeyError ("??" +:+ token +:+ "??"))
        | Some l =>
            '(query, parameters) ← replace_tokens m rest;
            Ok ("?" +:+ query, l :: parameters)
        end
      else
        '(query, parameters) ← replace_tokens m rest;
        Ok (token +:+ query, parameters)
  end.

Definition replace_literal_parameters (raw_query : string) (m : litmap)
  : result (string * list L) :=
  replace_tokens m (Py.split "??" raw_query).

(** The placeholders of a map built by [get_literal_parameter] alone: the
    item at position [i] carries the placeholder of number [i]. *)
Definition minted (m : litmap) : Prop :=
  ∀ i l p, m !! i = Some (l, p) → p = placeholder i.

(** A staged query text seen as plain text interleaved with placeholders. *)
Inductive piece : Type :=
| Plain (s : string)
| Hole (n : nat).

Definition staged_piece (p : piece) : string :=
  match p with Plain s => s | Hole n => placeholder n end.
Definition final_piece (p : piece) : string :=
  match p with Plain s => s | Hole _ => "?" end.

Fixpoint staged (ps : list piece) : string :=
  match ps with [] => "" | p :: ps' => staged_piece p +:+ staged ps' end.
Fixpoint final (ps : list piece) : string :=
  match ps with [] => "" | p :: ps' => final_piece p +:+ final ps' end.
Fixpoint holes (ps : list piece) : list nat :=
  match ps with
  | [] => []
  | Plain _ :: ps' => holes ps'
  | Hole n :: ps' => n :: holes ps'
  end.

Fixpoint plain_text (ps : list piece) : string :=
  match ps with
  | [] => ""
  | Plain s :: ps' => s +:+ plain_text ps'
  | Hole _ :: ps' => plain_text ps'
  end.

(** Text in which no question mark is followed by another one or ends the
    text. *)
Fixpoint marker_free (s : string) : bool :=
  match s with
  | EmptyString => true
  | String c r =>
      if decide (c = "?"%char) then
        match r with
        | EmptyString => false
        | String d _ => negb (bool_decide (d = "?"%char)) && marker_free r
        end
      else marker_free r
  end.

(** The placeholders of the text were minted by [m], and the plain text
    carries nothing of a marker: it neither starts nor ends with a question
    mark and has no two of them in a row. *)
Definition piece_ok (m : litmap) (p : piece) : Prop :=
  match p with
  | Plain s => Py.startswith "?" s = false ∧ marker_free s = true
  | Hole n => n < length m
  end.

End Literals.
End Literals.

(** ** The variable binding map *)

Module Bindings.

(** An SQL clause variable [(graph, column)], where [graph] is the table
    alias of a match clause. *)
Definition colref : Type := string * string.

(** [a < b] on tuples of two strings. *)
Definition sql_var_ltb (a b : colref) : bool :=
  match String.compare a.1 b.1 with
  | Lt => true
  | Gt => false
  | Eq => String.ltb a.2 b.2
  end.

(** [equiv = [best_var, sql_var]; equiv.sort(); tuple(equiv)] *)
Definition sorted_pair (best_var sql_var : colref) : colref * colref :=
  if sql_var_ltb sql_var best_var then (sql_var, best_var)
  else (best_var, sql_var).

(** The [for equiv_var in sql_vars] loop, from the current [best_var], over
    the references still to be iterated. *)
Fixpoint find_best_var (this_graph : string) (best_var : option colref)
    (sql_vars : list colref) : option colref :=
  match sql_vars with
  | [] => best_var
  | equiv_var :: rest =>
      match best_var with
      | None => find_best_var this_graph (Some equiv_var) rest
      | Some _ =>
          if decide (this_graph = equiv_var.1) then Some equiv_var
          else find_best_var this_graph (Some equiv_var) rest
      end
  end.

(** [s.add(x)] on a set kept in iteration order. *)
Definition set_add (x : colref) (s : list colref) : list colref :=
  if decide (x ∈ s) then s else s ++ [x].

Record state : Type := State {
  varmap : gmap string (list colref);
  joins : gset (colref * colref);
}.

Definition register_clause_variable (query_var : string) (sql_var : colref)
    (st : state) : result state :=
  match varmap st !! query_var with
  | None => Ok (State (<[query_var := [sql_var]]> (varmap st)) (joins st))
  | Some sql_vars =>
      match find_best_var sql_var.1 None sql_vars with
      | None =>
          (* an empty set: sorting [None, sql_var] raises *)
          Err TypeError
      | Some best_var =>
          if decide (sql_var ≠ best_var) then
            Ok (State (<[query_var := set_add sql_var sql_vars]> (varmap st))
                      ({[ sorted_pair best_var sql_var ]} ∪ joins st))
          else Ok st
      end
  end.

Definition initial : state := State ∅ ∅.

(** The states of a translation: reached from the empty maps by
    registrations.  The iteration order of a Python set is not fixed by its
    contents, so any reordering of the reference sets is a state too. *)
Inductive reachable : state → Prop :=
| reachable_initial : reachable initial
| reachable_register st st' query_var sql_var :
    reachable st →
    register_clause_variable query_var sql_var st = Ok st' →
    reachable st'
| reachable_reorder st vm :
    reachable st →
    (∀ query_var,
       option_Forall2 Permutation (vm !! query_var) (varmap st !! query_var)) →
    reachable (State vm (joins st)).

End Bindings.

(** ** The graph-handle resolver *)

Module Handles.

(** [base_handle]: the handle without its numeric suffix, when the match of
    [[0-9]+$] does not start the handle. *)
Definition base_handle (handle : string) : string :=
  match Py.search_digits_at_end 0 handle with
  | Some start =>
      if (0 <? start)%nat then String.substring 0 start handle else handle
  | None => handle
  end.

(** [hmap.values()] *)
Definition mapped_files (hmap : gmap string string) : list string :=
  (map_to_list hmap).*2.

Definition basename_matches (handle base_handle file : string) : bool :=
  let key := Py.basename file in
  Py.contains handle key || Py.contains base_handle key.

(** The [for file in files] loop; [None] when it runs to its end. *)
Fixpoint scan_files (handle base_handle : string) (mapped : list string)
    (files : list string) : option string :=
  match files with
  | [] => None
  | file :: rest =>
      if decide (file ∈ mapped) then scan_files handle base_handle mapped rest
      else if decide (handle = file) then Some file
      else if basename_matches handle base_handle file then Some file
      else scan_files handle base_handle mapped rest
  end.

Definition map_graph_handle_to_file (files : list string)
    (hmap : gmap string string) (handle : string)
  : result (string * gmap string string) :=
  match hmap !! handle with
  | Some file => Ok (file, hmap)
  | None =>
      match scan_files handle (base_handle handle) (mapped_files hmap) files with
      | Some file => Ok (file, <[handle := file]> hmap)
      | None => Err (FailedToMapHandle handle)
      end
  end.

(** [self.files] holds the results of [os.path.realpath]: absolute paths. *)
Definition absolute (file : string) : Prop := Py.startswith "/" file = true.

End Handles.

(** ** The resolution rules of the design document

    The rules are written from their wording, with notions of their own
    for a substring, a basename and a base handle, none of them taken from
    the resolver. *)

Module HandleRules.

(** [sub] occurs in [text]. *)
Definition substring_of (sub text : string) : Prop :=
  ∃ before after, text = before +:+ sub +:+ after.

(** [key] is the basename of [path]: what follows the last slash of the
    path, or all of a path without slash. *)
Definition basename_of (path key : string) : Prop :=
  ¬ substring_of "/" key
  ∧ (path = key ∨ ∃ dir, path = dir +:+ "/" +:+ key).

Definition digit (c : ascii) : bool :=
  bool_decide (c ∈ list_ascii_of_string "0123456789").

Fixpoint numeric (s : string) : bool :=
  match s with
  | EmptyString => true
  | String c r => digit c && numeric r
  end.

(** The handle without the digits that end it. *)
Fixpoint without_trailing_digits (handle : string) : string :=
  match handle with
  | EmptyString => EmptyString
  | String c r =>
      if numeric handle then EmptyString
      else String c (without_trailing_digits r)
  end.

(** The base handle: the handle with a trailing numeric suffix stripped,
    when the digits do not occupy the whole handle. *)
Definition base_handle (handle : string) : string :=
  let stem := without_trailing_digits handle in
  if decide (stem = "") then handle else stem.

(** The basename of [file] contains the handle or the base handle. *)
Definition basename_contains (handle file : string) : Prop :=
  ∃ key,
    basename_of file key
    ∧ (substring_of handle key ∨ substring_of (base_handle handle) key).

(** [file] is the first of [files], among those not in [mapped], with the
    property [P]. *)
Definition first_unmapped (P : string → Prop) (mapped files : list string)
    (file : string) : Prop :=
  ∃ before after,
    files = before ++ file :: after
    ∧ (file ∉ mapped)
    ∧ P file
    ∧ ∀ f, f ∈ before → f ∉ mapped → ¬ P f.

(** The greedy mapping of the resolver's own description: the first file
    not yet mapped that is the handle or whose basename contains the handle
    or the base handle; nothing if there is no such file. *)
Definition resolves_greedily (files mapped : list string) (handle : string)
    (found : option string) : Prop :=
  match found with
  | Some file =>
      first_unmapped (λ f, f = handle ∨ basename_contains handle f)
                     mapped files file
  | None =>
      ∀ f, f ∈ files → f ∉ mapped →
           f ≠ handle ∧ ¬ basename_contains handle f
  end.

(** What a handle that is not memoized resolves to: the first file not yet
    mapped whose full path is the handle; only if no registered file is the
    handle, the first file not yet mapped whose basename contains the handle
    or the base handle; nothing if no file not yet mapped matches. *)
Inductive resolves (files mapped : list string) (handle : string)
  : option string → Prop :=
| by_full_path file :
    first_unmapped (λ f, f = handle) mapped files file →
    resolves files mapped handle (Some file)
| by_basename file :
    handle ∉ files →
    first_unmapped (basename_contains handle) mapped files file →
    resolves files mapped handle (Some file)
| no_match :
    (∀ f, f ∈ files → f ∉ mapped →
          f ≠ handle ∧ ¬ basename_contains handle f) →
    resolves files mapped handle None.

End HandleRules.

(** ** The expression translator *)

Module Kypher.
Section Kypher.

Context {L : Type} `{EqDecision L}.

(** [self.store.is_user_function], and [self.parameters]. *)
Variable is_user_function : string → bool.
Variable parameters : gmap string L.

#[local] Abbreviation literal_map := (@Literals.litmap L).
#[local] Abbreviation colref := Bindings.colref.

(** The operators of [OPERATOR_TABLE] with two arguments. *)
Inductive binary_op : Type :=
| Add | Sub | Multi | Div
| Eq | Neq | Lt | Gt | Lte | Gte
| And | Or.

Definition OPERATOR_TABLE (op : binary_op) : string :=
  match op with
  | Add => "+" | Sub => "-" | Multi => "*" | Div => "/"
  | Eq => "=" | Neq => "!=" | Lt => "<" | Gt => ">"
  | Lte => "<=" | Gte => ">="
  | And => "AND" | Or => "OR"
  end.

(** An element of the chain [arg2] of an [Expression2]. *)
Inductive lookup : Type :=
| PropertyLookup (property : string)
| OtherLookup.

(** The parser's expression nodes; [Param] and [Var] are the classes
    Parameter and Variable, [Binary op] stands for the node class of the
    operator [op], [Unhandled] for any class the translator does not know. *)
#[warnings="-register-all"] Inductive expr : Type :=
| Literal (value : L)
| Param (name : string)
| Var (name : string)
| List (elements : list expr)
| Minus (arg : expr)
| Binary (op : binary_op) (arg1 arg2 : expr)
| Hat (arg1 arg2 : expr)
| Not (arg : expr)
| Xor (arg1 arg2 : expr)
| Case
| Call (function : string) (args : list expr) (distinct : bool)
| Expression2 (arg1 : expr) (arg2 : list lookup)
| Expression3 (operator : string) (arg1 arg2 : expr)
| Unhandled.

(** A text between double quotes. *)
Definition quoted (s : string) : string :=
  String Py.dquote (s +:+ String Py.dquote "").

(** Modelled from the spec: [sqlstore.sql_quote_ident], which is not among
    the sources; identifiers are double-quoted with internal double-quotes
    doubled. *)
Definition sql_quote_ident (ident : string) : string :=
  quoted
    (Py.replace_char Py.dquote (String Py.dquote (String Py.dquote "")) ident).

Definition get_parameter_value (name : string) : result L :=
  match parameters !! name with
  | None => Err (UndefinedParameter name)
  | Some value => Ok value
  end.

Definition is_kgtk_operator (op : string) : bool :=
  Py.startswith "KGTK_" (Py.upper op).

(** The text [."ID"]. *)
Definition dot_quoted_ID : string :=
  "." +:+ String Py.dquote ("ID" +:+ String Py.dquote "").

(** One round of the loop over the property chain, for a property lookup. *)
Definition lookup_property (var prop : string) : string :=
  if is_kgtk_operator prop && is_user_function prop then
    prop +:+ "(" +:+ var +:+ ")"
  else if Py.endswith dot_quoted_ID (Py.upper var) then
    Py.drop_last 3 var +:+ prop +:+ String Py.dquote ""
  else
    Py.drop_last 1 var +:+ ";" +:+ prop +:+ String Py.dquote "".

(** The loop over the property chain [arg2]; [None] when it is left by
    [break]. *)
Fixpoint lookup_chain (var : string) (arg2 : list lookup) : option string :=
  match arg2 with
  | [] => Some var
  | PropertyLookup prop :: rest => lookup_chain (lookup_property var prop) rest
  | OtherLookup :: _ => None
  end.

(** The cases of the loop as the design document words them.  [s] starts
    with [p] when the case of letters is ignored: *)
Definition starts_ignoring_case (p s : string) : Prop :=
  ∃ head rest, s = head +:+ rest ∧ Py.upper head = Py.upper p.

(** the spellings of [id] in ASCII letters: *)
Definition id_spellings : list string := ["id"; "Id"; "iD"; "ID"].

(** [E] ends in [."id"], whatever the case of the two letters: *)
Definition ends_in_dot_id (E : string) : Prop :=
  ∃ alias id, E = alias +:+ "." +:+ quoted id ∧ id ∈ id_spellings.

(** [E'] is [E] with its trailing double quote replaced by a semicolon,
    the property and a double quote. *)
Definition replaces_trailing_quote (E prop E' : string) : Prop :=
  ∃ body,
    E = body +:+ String Py.dquote ""
    ∧ E' = body +:+ ";" +:+ prop +:+ String Py.dquote "".

(** [[f(x) for x in xs]], threading the literal map. *)
Definition translate_each {A} (f : A → literal_map → result (string * literal_map))
  : list A → literal_map → result (list string * literal_map) :=
  fix each xs litmap :=
    match xs with
    | [] => Ok ([], litmap)
    | x :: rest =>
        '(s, litmap) ← f x litmap;
        '(ss, litmap) ← each rest litmap;
        Ok (s :: ss, litmap)
    end.

Fixpoint expression_to_sql (e : expr) (litmap : literal_map)
    (varmap : option (gmap string (list colref))) {struct e}
  : result (string * literal_map) :=
  match e with
  | Literal value => Ok (Literals.get_literal_parameter value litmap)
  | Param name =>
      value ← get_parameter_value name;
      Ok (Literals.get_literal_parameter value litmap)
  | Var query_var =>
      match varmap with
      | None => Err (IllegalContext query_var)
      | Some varmap =>
          if decide (query_var = "*") then Ok (query_var, litmap)
          else
            match varmap !! query_var with
            | None => Err (UndefinedVariable query_var)
            | Some [] => Err IndexError
            | Some ((graph, col) :: _) =>
                Ok (graph +:+ "." +:+ sql_quote_ident col, litmap)
            end
      end
  | List elements =>
      '(elements, litmap) ←
        translate_each (λ elt litmap, expression_to_sql elt litmap None)
                       elements litmap;
      Ok ("(" +:+ Py.join ", " elements +:+ ")", litmap)
  | Minus arg =>
      '(arg, litmap) ← expression_to_sql arg litmap varmap;
      Ok ("(- " +:+ arg +:+ ")", litmap)
  | Binary op arg1 arg2 =>
      '(arg1, litmap) ← expression_to_sql arg1 litmap varmap;
      '(arg2, litmap) ← expression_to_sql arg2 litmap varmap;
      Ok ("(" +:+ arg1 +:+ " " +:+ OPERATOR_TABLE op +:+ " " +:+ arg2 +:+ ")",
          litmap)
  | Hat _ _ => Err (UnsupportedOperator "^")
  | Not arg =>
      '(arg, litmap) ← expression_to_sql arg litmap varmap;
      Ok ("(NOT " +:+ arg +:+ ")", litmap)
  | Xor _ _ => Err (UnsupportedOperator "XOR")
  | Case => Err (UnsupportedOperator "CASE")
  | Call function args distinct =>
      if decide (Py.upper function = "CAST") then
        match args with
        | [arg0; Var typ] =>
            '(arg, litmap) ← expression_to_sql arg0 litmap varmap;
            Ok ("CAST(" +:+ arg +:+ " AS " +:+ typ +:+ ")", litmap)
        | _ => Err IllegalCast
        end
      else
        '(args, litmap) ←
          translate_each (λ arg litmap, expression_to_sql arg litmap varmap)
                         args litmap;
        Ok (function +:+ "(" +:+ (if distinct then "DISTINCT " else "")
              +:+ Py.join ", " args +:+ ")", litmap)
  | Expression2 arg1 arg2 =>
      match arg1 with
      | Var _ =>
          '(var, litmap) ← expression_to_sql arg1 litmap varmap;
          match lookup_chain var arg2 with
          | Some var => Ok (var, litmap)
          | None => Err UnhandledPropertyLookup
          end
      | _ => Err UnhandledPropertyLookup
      end
  | Expression3 operator arg1 arg2 =>
      '(arg1, litmap) ← expression_to_sql arg1 litmap varmap;
      '(arg2, litmap) ← expression_to_sql arg2 litmap varmap;
      let op := Py.upper operator in
      if Py.contains op "IN" then
        Ok ("(" +:+ arg1 +:+ " " +:+ op +:+ " " +:+ arg2 +:+ ")", litmap)
      else if Py.contains op "REGEX" then
        Ok ("KGTK_REGEX(" +:+ arg1 +:+ ", " +:+ arg2 +:+ ")", litmap)
      else Err (UnhandledOperator op)
  | Unhandled => Err UnhandledExpressionType
  end.

(** A [Var] node occurs in the expression at a place that the translator
    visits; the type name of a well-formed CAST is not such a place. *)
Fixpoint mentions_variable (e : expr) : bool :=
  match e with
  | Var _ => true
  | List elements => existsb mentions_variable elements
  | Minus arg | Not arg => mentions_variable arg
  | Binary _ arg1 arg2 | Hat arg1 arg2 | Xor arg1 arg2
  | Expression3 _ arg1 arg2 => mentions_variable arg1 || mentions_variable arg2
  | Call function args _ =>
      if decide (Py.upper function = "CAST") then
        match args with
        | [arg0; Var _] => mentions_variable arg0
        | _ => existsb mentions_variable args
        end
      else existsb mentions_variable args
  | Expression2 arg1 _ => mentions_variable arg1
  | Literal _ | Param _ | Case | Unhandled => false
  end.

(** [skip_clause] and [limit_clause] are given by their expressions. *)
Definition limit_clauses_to_sql (skip_clause limit_clause : option expr)
    (litmap : literal_map) (varmap : option (gmap string (list colref)))
  : result (option string * literal_map) :=
  match skip_clause, limit_clause with
  | None, None => Ok (None, litmap)
  | _, _ =>
      '(limit, litmap) ←
        match limit_clause with
        | Some expression =>
            '(s, litmap) ← expression_to_sql expression litmap None;
            Ok ("LIMIT" +:+ " " +:+ s, litmap)
        | None => Ok ("LIMIT" +:+ " -1", litmap)
        end;
      '(limit, litmap) ←
        match skip_clause with
        | Some expression =>
            '(s, litmap) ← expression_to_sql expression litmap None;
            Ok (limit +:+ " OFFSET " +:+ s, litmap)
        | None => Ok (limit, litmap)
        end;
      Ok (Some limit, litmap)
  end.

(** *** Return-clause synthesis *)

Record return_item : Type := ReturnItem {
  expression : expr;
  name : option string;
}.

Record return_clause : Type := Return {
  distinct : bool;
  items : list return_item;
}.

(** [parser.has_element(e, lambda x: isinstance(x, parser.Call) and
    self.store.is_aggregate_function(x.function))]; the parser is not among
    the sources, so the test is a parameter of the translation. *)
Variable has_aggregate_call : expr → bool.

(** [c and s or None] for a string [s]: the empty string counts as false. *)
Definition and_or_None (c : bool) (s : string) : option string :=
  if c then (if decide (s = "") then None else Some s) else None.

(** [first and expr or (', ' + expr)] *)
Definition first_or_comma (first : bool) (expr : string) : string :=
  if first then (if decide (expr = "") then ", " +:+ expr else expr)
  else ", " +:+ expr.

(** The [for item in clause.items] loop, from the current [select], [first]
    and [agg_info]. *)
Fixpoint return_items_to_sql (items : list return_item) (select : string)
    (first : bool) (agg_info : list (option string)) (litmap : literal_map)
    (varmap : option (gmap string (list colref)))
  : result (string * list (option string) * literal_map) :=
  match items with
  | [] => Ok (select, agg_info, litmap)
  | item :: rest =>
      '(expr, litmap) ← expression_to_sql (expression item) litmap varmap;
      let select := select +:+ first_or_comma first expr in
      let is_agg := has_aggregate_call (expression item) in
      match name item with
      | Some item_name =>
          return_items_to_sql rest
            (select +:+ " " +:+ sql_quote_ident item_name) false
            (agg_info ++ [and_or_None (negb is_agg) item_name]) litmap varmap
      | None =>
          return_items_to_sql rest select false
            (agg_info ++ [and_or_None (negb is_agg) expr]) litmap varmap
      end
  end.

(** The [for col, aggi in enumerate(agg_info)] loop, from column [col]. *)
Fixpoint first_reg_last_agg (col : Z) (agg_info : list (option string))
    (first_reg last_agg : Z) : Z * Z :=
  match agg_info with
  | [] => (first_reg, last_agg)
  | Some _ :: rest =>
      first_reg_last_agg (col + 1) rest (Z.min col first_reg) last_agg
  | None :: rest =>
      first_reg_last_agg (col + 1) rest first_reg (Z.max col last_agg)
  end.

(** [l[0:stop]] *)
Definition slice_to {A} (stop : Z) (l : list A) : list A :=
  if (stop <? 0)%Z then take (Z.to_nat (Z.of_nat (length l) + stop)) l
  else take (Z.to_nat stop) l.

Definition group_by_of (agg_info : list (option string)) : option string :=
  let '(first_reg, last_agg) :=
    first_reg_last_agg 0 agg_info (Z.of_nat (length agg_info)) (-1) in
  if (last_agg >? first_reg)%Z then
    Some ("GROUP BY " +:+ Py.join ", " (omap id (slice_to last_agg agg_info)))
  else None.

Definition return_clause_to_sql_selection (clause : return_clause)
    (litmap : literal_map) (varmap : option (gmap string (list colref)))
  : result (string * option string * literal_map) :=
  let select := if distinct clause then "DISTINCT " else "" in
  '(select, agg_info, litmap) ←
    return_items_to_sql (items clause) select true [] litmap varmap;
  Ok (select, group_by_of agg_info, litmap).

(** The index of the first return item without an aggregate call, and of
    the last one with an aggregate call, as the design document words
    them; the values for "no such item" are those of the code. *)
Fixpoint first_index {A} (P : A → bool) (i : Z) (l : list A) : option Z :=
  match l with
  | [] => None
  | x :: rest => if P x then Some i else first_index P (i + 1)%Z rest
  end.

Fixpoint last_index {A} (P : A → bool) (i : Z) (l : list A) : option Z :=
  match l with
  | [] => None
  | x :: rest =>
      match last_index P (i + 1)%Z rest with
      | Some j => Some j
      | None => if P x then Some i else None
      end
  end.

Definition is_aggregate_item (item : return_item) : bool :=
  has_aggregate_call (expression item).

(** The group key of a return item whose expression was translated to
    [expr]: the alias when there is one, else the expression text. *)
Definition group_key (item : return_item) (expr : string) : string :=
  match name item with
  | Some item_name => item_name
  | None => expr
  end.

End Kypher.

(** The store of the examples: [count] is its aggregate function. *)
Definition calls_count {L} (e : @expr L) : bool :=
  match e with
  | Call function _ _ => bool_decide (Py.upper function = "COUNT")
  | _ => false
  end.

End Kypher.

(** ** The edge reader *)

Module EdgeReader.

(** The default [column_separator]. *)
Definition tab : string := String "009"%char "".

(** The attributes of an [EdgeReader] that [__next__] reads. *)
Record reader : Type := Reader {
  column_separator : string;
  column_count : Z;
  require_all_columns : bool;
  prohibit_extra_columns : bool;
  fill_missing_columns : bool;
}.

(** What [__next__] changes: the lines still to come from [file_in] (or
    from the queue of the gunzip process), whether [file_in] was closed,
    and [line_count[0]]. *)
Record input : Type := Input {
  pending : list string;
  closed : bool;
  line_count : Z;
}.

Inductive outcome : Type :=
| Returned (values : list string)
| StopIteration
| EmptySeparator
| MissingColumns (required line saw : Z)
| ExtraColumns (required line saw extra : Z).

(** The [while len(values) < self.column_count] loop, run for at most
    [fuel] rounds. *)
Fixpoint fill_missing (fuel : nat) (column_count : Z) (values : list string)
  : list string :=
  match fuel with
  | O => values
  | S fuel' =>
      if (Z.of_nat (length values) <? column_count)%Z
      then fill_missing fuel' column_count (values ++ [""])
      else values
  end.

(** [__next__], called while [file_in] is open: the end of the input
    closes the file, and what a later call does on the closed file is not
    part of the model. *)
Definition next (self : reader) (inp : input) : outcome * input :=
  match pending inp with
  | [] => (StopIteration, Input [] true (line_count inp))
  | line :: rest =>
      let inp := Input rest (closed inp) (line_count inp) in
      if decide (column_separator self = "") then (EmptySeparator, inp)
      else
        let values := Py.split (column_separator self) line in
        let len := Z.of_nat (length values) in
        if require_all_columns self && (len <? column_count self)%Z then
          (MissingColumns (column_count self) (line_count inp) len, inp)
        else if prohibit_extra_columns self && (len >? column_count self)%Z then
          (ExtraColumns (column_count self) (line_count inp) len
             (len - column_count self), inp)
        else
          let values :=
            if fill_missing_columns self && (len <? column_count self)%Z
            then fill_missing (Z.to_nat (column_count self)) (column_count self)
                              values
            else values in
          (Returned values, Input rest (closed inp) (line_count inp + 1))
  end.

End EdgeReader.

(** ** Opening an edge file and reading it through *)

Module EdgeHeader.
Import EdgeReader.

Definition NODE1_COLUMN_NAME : string := "node1".
Definition NODE2_COLUMN_NAME : string := "node2".
Definition LABEL_COLUMN_NAME : string := "label".

(** The [ValueError]s of [_setup]. *)
Inductive setup_error : Type :=
| SeparatorEmpty
| TooFewColumns
| InvalidColumnName
| MissingColumn (column_name : string).

(** The [for column_name in column_names] loop, from index [column_idx] and
    the map built so far; [None] when a column name is empty. *)
Fixpoint name_map (column_names : list string) (column_idx : nat)
    (column_name_map : gmap string nat) : option (gmap string nat) :=
  match column_names with
  | [] => Some column_name_map
  | column_name :: rest =>
      if decide (column_name = "") then None
      else name_map rest (S column_idx) (<[column_name := column_idx]> column_name_map)
  end.

(** An [EdgeReader]: the attributes that [__next__] reads, and what
    [_setup] found in the header. *)
Record edge_reader : Type := EdgeReaderOf {
  attributes : reader;
  column_names : list string;
  column_name_map : gmap string nat;
  node1_column_idx : nat;
  node2_column_idx : nat;
  label_column_idx : nat;
}.

Inductive setup_result : Type :=
| SetupOk (er : edge_reader) (inp : input)
| SetupErr (e : setup_error).

(** [file_in.readline()]: the next line, or the empty text at the end. *)
Definition readline (file_in : list string) : string * list string :=
  match file_in with
  | [] => ("", [])
  | line :: rest => (line, rest)
  end.

Definition _setup (file_in : list string)
    (require_all_columns prohibit_extra_columns fill_missing_columns : bool)
    (column_separator : string) : setup_result :=
  let '(header, file_in) := readline file_in in
  if decide (column_separator = "") then SetupErr SeparatorEmpty
  else
    let column_names := Py.split column_separator header in
    if (length column_names <? 3)%nat then SetupErr TooFewColumns
    else
      match name_map column_names 0 ∅ with
      | None => SetupErr InvalidColumnName
      | Some column_name_map =>
          match column_name_map !! NODE1_COLUMN_NAME with
          | None => SetupErr (MissingColumn NODE1_COLUMN_NAME)
          | Some node1_column_idx =>
              match column_name_map !! NODE2_COLUMN_NAME with
              | None => SetupErr (MissingColumn NODE2_COLUMN_NAME)
              | Some node2_column_idx =>
                  match column_name_map !! LABEL_COLUMN_NAME with
                  | None => SetupErr (MissingColumn LABEL_COLUMN_NAME)
                  | Some label_column_idx =>
                      SetupOk
                        (EdgeReaderOf
                           (Reader column_separator
                                   (Z.of_nat (length column_names))
                                   require_all_columns prohibit_extra_columns
                                   fill_missing_columns)
                           column_names column_name_map node1_column_idx
                           node2_column_idx label_column_idx)
                        (Input file_in false 1)
                  end
              end
          end
      end.

(** The loop [for line in er: line_count += 1] of the test program, run
    for at most [fuel] rounds: the count when the iteration stops, with the
    outcome that stopped it ([StopIteration], or the error raised); [None]
    when the rounds do not suffice. *)
Fixpoint count_lines (fuel : nat) (er : reader) (inp : input) (line_count : Z)
  : option (Z * outcome * input) :=
  match fuel with
  | O => None
  | S fuel' =>
      match next er inp with
      | (Returned _, inp') => count_lines fuel' er inp' (line_count + 1)
      | (stop, inp') => Some (line_count, stop, inp')
      end
  end.

End EdgeHeader.

(** ** Graph handles of match clauses *)

Module Graphs.
Import Handles.

(** [[0-9]*] matches the whole text. *)
Fixpoint all_digits (s : string) : bool :=
  match s with
  | EmptyString => true
  | String c r => Py.is_digit c && all_digits r
  end.

(** No two handles are mapped to one file. *)
Definition one_handle_per_file (hmap : gmap string string) : Prop :=
  ∀ handle1 handle2 file,
    hmap !! handle1 = Some file → hmap !! handle2 = Some file →
    handle1 = handle2.

Section Graphs.

(** [self.store.get_file_graph] *)
Variable get_file_graph : string → string.

(** [graph] is [clause[0].graph.name], or [None] without a graph;
    [default_graph] is [self.files[0]]. *)
Definition get_pattern_clause_graph (files : list string)
    (default_graph : string) (hmap : gmap string string)
    (graph : option string) : result (string * gmap string string) :=
  let graph :=
    match graph with
    | Some name => name
    | None => default_graph
    end in
  '(file, hmap) ← map_graph_handle_to_file files hmap graph;
  Ok (get_file_graph file, hmap).

End Graphs.
End Graphs.

(** ** Joined references *)

Module Joined.
Import Bindings.

(** Two references are equated by a pair of [joins]. *)
Definition joined (st : state) (a b : colref) : Prop := (a, b) ∈ joins st.

(** Two references are equal in every row that satisfies the joins. *)
Definition connected (st : state) : relation colref := rtsc (joined st).

End Joined.

(** ** Literal values and names of an expression *)

Module KypherText.
Import Kypher.
Section KypherText.

Context {L : Type} `{EqDecision L}.
Variable is_user_function : string → bool.
Variable parameters : gmap string L.

(** The values that [expression_to_sql] hands to [get_literal_parameter]
    while it translates an expression, in the order of the calls. *)
Fixpoint literal_values (e : @expr L) : list L :=
  match e with
  | Literal value => [value]
  | Param name =>
      match parameters !! name with Some value => [value] | None => [] end
  | List elements => concat (map literal_values elements)
  | Minus arg | Not arg => literal_values arg
  | Binary _ arg1 arg2 | Expression3 _ arg1 arg2 =>
      literal_values arg1 ++ literal_values arg2
  | Call function args _ =>
      if decide (Py.upper function = "CAST") then
        match args with
        | [arg0; Var _] => literal_values arg0
        | _ => []
        end
      else concat (map literal_values args)
  | Var _ | Hat _ _ | Xor _ _ | Case | Expression2 _ _ | Unhandled => []
  end.

(** A text without question mark. *)
Definition plain (s : string) : bool := negb (Py.has_char "?" s).

(** The names that [expression_to_sql] copies from an expression into the
    text (function names, the type of a CAST, property names) have no
    question mark. *)
Fixpoint plain_names (e : @expr L) : bool :=
  match e with
  | List elements => forallb plain_names elements
  | Minus arg | Not arg => plain_names arg
  | Binary _ arg1 arg2 | Expression3 _ arg1 arg2 =>
      plain_names arg1 && plain_names arg2
  | Call function args _ =>
      plain function
      && (if decide (Py.upper function = "CAST") then
            match args with
            | [arg0; Var typ] => plain_names arg0 && plain typ
            | _ => true
            end
          else forallb plain_names args)
  | Expression2 _ arg2 =>
      forallb (λ proplook, match proplook with
                           | PropertyLookup prop => plain prop
                           | OtherLookup => true
                           end) arg2
  | Literal _ | Param _ | Var _ | Hat _ _ | Xor _ _ | Case | Unhandled => true
  end.

(** The table aliases and column names of the variable map have no
    question mark. *)
Definition plain_columns (varmap : option (gmap string (list Bindings.colref)))
  : Prop :=
  ∀ vm query_var sql_vars graph col,
    varmap = Some vm → vm !! query_var = Some sql_vars →
    (graph, col) ∈ sql_vars →
    Py.has_char "?" graph = false ∧ Py.has_char "?" col = false.

(** A staged text for the literal map [m]: plain text without question
    mark, and placeholders that [m] has given to the values [values], in
    the order of the text. *)
Definition staged_as (m : @Literals.litmap L) (values : list L) (s : string)
  : Prop :=
  ∃ ps,
    s = Literals.staged ps
    ∧ Py.has_char "?" (Literals.plain_text ps) = false
    ∧ Forall2 (λ v n, m !! n = Some (v, Literals.placeholder n))
              values (Literals.holes ps).

(** What a translation that succeeds does to a map of interned values, and
    what its text is when the names are plain. *)
Definition translated (e : @expr L) : Prop :=
  ∀ vs varmap s m',
    expression_to_sql is_user_function parameters e (Literals.interned vs)
      varmap = Ok (s, m') →
    m' = Literals.interned (vs ++ literal_values e)
    ∧ (plain_names e = true → plain_columns varmap →
       staged_as m' (literal_values e) s).

End KypherText.
End KypherText.

(** ** Order and match clauses *)

Module Clauses.
Import Kypher.

(** What a function returns or raises, where besides the exceptions of
    [error] the AttributeError of an attribute of [None] can be raised. *)
Inductive outcome (A : Type) : Type :=
| Returns (a : A)
| Raises (e : error)
| RaisesAttributeError.
Arguments Returns {A} a.
Arguments Raises {A} e.
Arguments RaisesAttributeError {A}.

#[global] Instance outcome_ret : MRet outcome := λ A a, Returns a.
#[global] Instance outcome_bind : MBind outcome := λ A B f r,
  match r with
  | Returns a => f a
  | Raises e => Raises e
  | RaisesAttributeError => RaisesAttributeError
  end.

Definition of_result {A} (r : result A) : outcome A :=
  match r with
  | Ok a => Returns a
  | Err e => Raises e
  end.

(** A function on the states that changes the order of the references of
    the variables only. *)
Definition reorders (iteration : Bindings.state → Bindings.state) : Prop :=
  ∀ st,
    Bindings.joins (iteration st) = Bindings.joins st
    ∧ ∀ query_var,
        option_Forall2 Permutation
          (Bindings.varmap (iteration st) !! query_var)
          (Bindings.varmap st !! query_var).

Section Clauses.

Context {L : Type} `{EqDecision L}.
Variable is_user_function : string → bool.
Variable parameters : gmap string L.

(** The order in which the reference sets are iterated when they are read:
    the order of a Python set is not fixed by its elements, so it is given
    by a function on the states, which is to change the order only. *)
Variable iteration : Bindings.state → Bindings.state.

#[local] Abbreviation literal_map := (@Literals.litmap L).
#[local] Abbreviation colref := Bindings.colref.
#[local] Abbreviation expression_to_sql :=
  (Kypher.expression_to_sql is_user_function parameters).

(** [c and a or b] on strings: the empty string counts as false. *)
Definition and_or (c : bool) (a b : string) : string :=
  if c then (if decide (a = "") then b else a) else b.

Record sort_item : Type := SortItem {
  sort_expression : @expr L;
  direction : string;
}.

Definition order_clause_to_sql (order_clause : option (list sort_item))
    (litmap : literal_map) (varmap : option (gmap string (list colref)))
  : result (option string * literal_map) :=
  match order_clause with
  | None => Ok (None, litmap)
  | Some sort_items =>
      '(items, litmap) ←
        translate_each
          (λ sort_item litmap,
             '(expr, litmap) ←
               expression_to_sql (sort_expression sort_item) litmap varmap;
             let direction := Py.upper (direction sort_item) in
             Ok (expr +:+ and_or (Py.startswith "ASC" direction) ""
                                 (" " +:+ direction), litmap))
          sort_items litmap;
      Ok (Some ("ORDER BY " +:+ Py.join ", " items), litmap)
  end.

Definition where_clause_to_sql (where_clause : option (@expr L))
    (litmap : literal_map) (varmap : option (gmap string (list colref)))
  : result (string * literal_map) :=
  match where_clause with
  | None => Ok ("", litmap)
  | Some expression => expression_to_sql expression litmap varmap
  end.

(** The variable of a node or relationship pattern: a [parser.Variable], or
    a [parser.AnonymousVariable]. *)
Inductive pattern_variable : Type :=
| NamedVariable (name : string)
| AnonymousVariable (name : string).

(** A node or relationship pattern, with the attributes that the
    translation reads; [relationship] is
    [isinstance(pattern, parser.RelationshipPattern)], and [graph] is the
    name of the graph of a node pattern. *)
Record pattern : Type := Pattern {
  relationship : bool;
  graph : option string;
  labels : option (list L);
  variable : option pattern_variable;
  properties : option (list (string * @expr L));
}.

(** The label that the translation reads from a pattern: the first one. *)
Definition label_values (p : pattern) : list L :=
  match labels p with
  | Some (label :: _) => [label]
  | Some [] | None => []
  end.

(** The maps and sets that [translate_to_sql] hands to the translation of
    the match clauses: [litmap], [varmap] and [joins], [restrictions]. *)
Record translation : Type := Translation {
  literals : literal_map;
  bindings : Bindings.state;
  restrictions : gset (colref * string);
}.

(** The variable [name] has the reference [sql_var] in the variable map. *)
Definition bound (st : Bindings.state) (name : string) (sql_var : colref)
  : Prop :=
  ∃ sql_vars,
    Bindings.varmap st !! name = Some sql_vars ∧ sql_var ∈ sql_vars.

Definition get_node1_column (graph : string) : string := "node1".
Definition get_node2_column (graph : string) : string := "node2".
Definition get_label_column (graph : string) : string := "label".
Definition get_id_column (graph : string) : string := "id".

(** [if p.labels is not None:
       para = self.get_literal_parameter(p.labels[0], litmap)
       restrictions.add(((graph, col), para))] *)
Definition restrict_label (p : pattern) (graph col : string)
    (t : translation) : result translation :=
  match labels p with
  | None => Ok t
  | Some [] => Err IndexError
  | Some (label :: _) =>
      let '(para, litmap) :=
        Literals.get_literal_parameter label (literals t) in
      Ok (Translation litmap (bindings t)
                      ({[ ((graph, col), para) ]} ∪ restrictions t))
  end.

(** [if p.variable is not None
        and not isinstance(p.variable, parser.AnonymousVariable):
       self.register_clause_variable(p.variable.name, (graph, col), ...)] *)
Definition register_named (p : pattern) (graph col : string)
    (t : translation) : result translation :=
  match variable p with
  | Some (NamedVariable name) =>
      st ← Bindings.register_clause_variable name (graph, col)
             (iteration (bindings t));
      Ok (Translation (literals t) st (restrictions t))
  | Some (AnonymousVariable _) | None => Ok t
  end.

Definition pattern_clause_to_sql (clause : pattern * pattern * pattern)
    (graph : string) (t : translation) : result translation :=
  let '(node1, rel, node2) := clause in
  let node1col := get_node1_column graph in
  t ← restrict_label node1 graph node1col t;
  t ← register_named node1 graph node1col t;
  let node2col := get_node2_column graph in
  t ← restrict_label node2 graph node2col t;
  t ← register_named node2 graph node2col t;
  let labelcol := get_label_column graph in
  let idcol := get_id_column graph in
  t ← restrict_label rel graph labelcol t;
  register_named rel graph idcol t.

(** [pattern.variable.name] *)
Definition variable_name (v : pattern_variable) : string :=
  match v with NamedVariable name | AnonymousVariable name => name end.

(** The column of a property:
    [isinstance(pattern, parser.RelationshipPattern) and prop
     or column + ';' + prop] *)
Definition property_column (p : pattern) (column prop : string) : string :=
  and_or (relationship p) prop (column +:+ ";" +:+ prop).

(** The [for prop, expr in props.items()] loop of [pattern_props_to_sql]. *)
Fixpoint props_to_sql (p : pattern) (graph column : string)
    (props : list (string * @expr L)) (t : translation)
  : result translation :=
  match props with
  | [] => Ok t
  | (prop, expr) :: rest =>
      let propcol := property_column p column prop in
      t ← match expr with
          | Var name =>
              st ← Bindings.register_clause_variable name (graph, propcol)
                     (iteration (bindings t));
              Ok (Translation (literals t) st (restrictions t))
          | _ => Ok t
          end;
      '(expr, litmap) ←
        expression_to_sql expr (literals t)
                          (Some (Bindings.varmap (iteration (bindings t))));
      props_to_sql p graph column rest
        (Translation litmap (bindings t)
                     ({[ ((graph, propcol), expr) ]} ∪ restrictions t))
  end.

Definition pattern_props_to_sql (p : pattern) (graph column : string)
    (t : translation) : outcome translation :=
  match properties p with
  | None | Some [] => Returns t
  | Some props =>
      match variable p with
      | None => RaisesAttributeError
      | Some v =>
          of_result
            (st ← Bindings.register_clause_variable (variable_name v)
                    (graph, column) (iteration (bindings t));
             props_to_sql p graph column props
               (Translation (literals t) st (restrictions t)))
      end
  end.

Definition pattern_clause_props_to_sql (clause : pattern * pattern * pattern)
    (graph : string) (t : translation) : outcome translation :=
  let '(node1, rel, node2) := clause in
  let node1col := get_node1_column graph in
  t ← pattern_props_to_sql node1 graph node1col t;
  let node2col := get_node2_column graph in
  t ← pattern_props_to_sql node2 graph node2col t;
  let idcol := get_id_column graph in
  pattern_props_to_sql rel graph idcol t.

(** The literal values of the properties of a pattern, in their order. *)
Definition property_values (props : list (string * @expr L)) : list L :=
  concat (map (λ pe, KypherText.literal_values parameters pe.2) props).

End Clauses.
End Clauses.

(** ** The translation of a query *)

Module Translate.

(** [s.replace(old, new)]: the occurrences of [old] are found from left to
    right and do not overlap; [skip] characters of an occurrence are still
    to be passed over. *)
Fixpoint replace_go (old new : string) (skip : nat) (s : string) : string :=
  match s with
  | EmptyString => EmptyString
  | String c r =>
      match skip with
      | S k => replace_go old new k r
      | 0 =>
          if String.prefix old s
          then new +:+ replace_go old new (String.length old - 1) r
          else String c (replace_go old new 0 r)
      end
  end.

(** For an empty [old], [new] is put before every character and at the
    end. *)
Fixpoint interleave (new s : string) : string :=
  match s with
  | EmptyString => new
  | String c r => new +:+ String c (interleave new r)
  end.

Definition replace (old new s : string) : string :=
  if decide (old = "") then interleave new s else replace_go old new 0 s.

(** The order of tuples: the first components that differ decide. *)
Definition compare_pair {A B} (compare_a : A → A → comparison)
    (compare_b : B → B → comparison) (x y : A * B) : comparison :=
  match compare_a x.1 y.1 with
  | Eq => compare_b x.2 y.2
  | c => c
  end.

Definition not_after {A} (compare : A → A → comparison) (x y : A) : Prop :=
  compare x y ≠ Gt.

#[global] Instance not_after_dec {A} (compare : A → A → comparison) x y :
  Decision (not_after compare x y).
Proof. unfold not_after. destruct (compare x y); solve_decision. Defined.

(** [sorted(l)] *)
Definition sorted {A} (compare : A → A → comparison) (l : list A) : list A :=
  merge_sort (not_after compare) l.

Definition compare_sql_var : Bindings.colref → Bindings.colref → comparison :=
  compare_pair String.compare String.compare.

(** The text of a line feed. *)
Definition nl : string := String Py.newline "".

(** ['%s_c%d' % (graph, i+1)] *)
Definition graph_alias (graph : string) (i : nat) : string :=
  graph +:+ "_c" +:+ pretty (i + 1).

Import Kypher Clauses.

Section Translate.

Context {L : Type} `{EqDecision L}.
Variable is_user_function : string → bool.
Variable parameters : gmap string L.
Variable has_aggregate_call : @expr L → bool.

(** [self.store.get_file_graph]: the table of a file. *)
Variable get_file_graph : string → string.

(** The order in which the reference sets are iterated. *)
Variable iteration : Bindings.state → Bindings.state.

(** The attributes of a [KgtkQuery] that the translation reads. *)
Record query : Type := Query {
  files : list string;
  default_graph : string;
  match_clauses : list (@pattern L * @pattern L * @pattern L);
  where_clause : option (@expr L);
  return_clause : @Kypher.return_clause L;
  order_clause : option (list (@sort_item L));
  skip_clause : option (@expr L);
  limit_clause : option (@expr L);
}.

(** The first loop over the match clauses, from clause number [i]. *)
Fixpoint match_clauses_to_sql (q : query)
    (clauses : list (@pattern L * @pattern L * @pattern L)) (i : nat)
    (hmap : gmap string string) (graphs : gset (string * string))
    (t : @translation L)
  : result (gmap string string * gset (string * string) * @translation L) :=
  match clauses with
  | [] => Ok (hmap, graphs, t)
  | clause :: rest =>
      '(graph, hmap) ←
        Graphs.get_pattern_clause_graph get_file_graph (files q)
          (default_graph q) hmap (Clauses.graph clause.1.1);
      let graph_alias := graph_alias graph i in
      let graphs := {[ (graph, graph_alias) ]} ∪ graphs in
      t ← pattern_clause_to_sql iteration clause graph_alias t;
      match_clauses_to_sql q rest (S i) hmap graphs t
  end.

(** The second loop over the match clauses. *)
Fixpoint match_clauses_props_to_sql (q : query)
    (clauses : list (@pattern L * @pattern L * @pattern L)) (i : nat)
    (hmap : gmap string string) (t : @translation L)
  : outcome (gmap string string * @translation L) :=
  match clauses with
  | [] => Returns (hmap, t)
  | clause :: rest =>
      '(graph, hmap) ←
        of_result
          (Graphs.get_pattern_clause_graph get_file_graph (files q)
             (default_graph q) hmap (Clauses.graph clause.1.1));
      let graph_alias := graph_alias graph i in
      t ← pattern_clause_props_to_sql is_user_function parameters iteration
            clause graph_alias t;
      match_clauses_props_to_sql q rest (S i) hmap t
  end.

(** [x and query.write(prefix + x)] for a string [x]. *)
Definition and_write (x prefix query : string) : string :=
  if decide (x = "") then query else query +:+ prefix +:+ x.

(** The same for [x] a string or [None]. *)
Definition and_write_option (x : option string) (prefix query : string)
  : string :=
  match x with
  | Some x => and_write x prefix query
  | None => query
  end.

(** The text of a restriction and of a join. *)
Definition restriction_to_sql (r : Bindings.colref * string) : string :=
  nl +:+ "AND " +:+ r.1.1 +:+ "." +:+ sql_quote_ident r.1.2 +:+ "=" +:+ r.2.

Definition join_to_sql (j : Bindings.colref * Bindings.colref) : string :=
  nl +:+ "AND " +:+ j.1.1 +:+ "." +:+ sql_quote_ident j.1.2 +:+ "="
     +:+ j.2.1 +:+ "." +:+ sql_quote_ident j.2.2.

(** The text that [translate_to_sql] writes, before the literal parameters
    are replaced.  The calls of [self.store.ensure_graph_index] and of
    [self.log] act on the store and on the output only. *)
Definition raw_query (q : query) (graphs : gset (string * string))
    (t : @translation L)
  : result (string * @Literals.litmap L) :=
  let litmap := literals t in
  let varmap := Some (Bindings.varmap (iteration (bindings t))) in
  let restrictions := restrictions t in
  let joins := Bindings.joins (bindings t) in
  '(select, group_by, litmap) ←
    return_clause_to_sql_selection is_user_function parameters
      has_aggregate_call (return_clause q) litmap varmap;
  let graph_tables :=
    Py.join ", "
      (map (λ ga, ga.1 +:+ " " +:+ ga.2)
           (sorted (compare_pair String.compare String.compare)
                   (elements graphs))) in
  let query := "SELECT " +:+ select +:+ nl +:+ "FROM " +:+ graph_tables in
  let query :=
    if negb (bool_decide (restrictions = ∅))
       || negb (bool_decide (joins = ∅))
       || bool_decide (is_Some (where_clause q))
    then query +:+ nl +:+ "WHERE TRUE" else query in
  let query :=
    query
    +:+ String.concat ""
          (map restriction_to_sql
               (sorted (compare_pair compare_sql_var String.compare)
                       (elements restrictions))) in
  let query :=
    query
    +:+ String.concat ""
          (map join_to_sql
               (sorted (compare_pair compare_sql_var compare_sql_var)
                       (elements joins))) in
  '(where_text, litmap) ←
    where_clause_to_sql is_user_function parameters (where_clause q) litmap
      varmap;
  let query := and_write where_text (nl +:+ "AND ") query in
  let query := and_write_option group_by nl query in
  '(order, litmap) ←
    order_clause_to_sql is_user_function parameters (order_clause q) litmap
      varmap;
  let query := and_write_option order nl query in
  '(limit, litmap) ←
    limit_clauses_to_sql is_user_function parameters (skip_clause q)
      (limit_clause q) litmap varmap;
  let query := and_write_option limit nl query in
  Ok (replace (" TRUE" +:+ nl +:+ "AND") "" query, litmap).

(** The graph handle map [self.graph_handle_map] is an argument and a
    result. *)
Definition translate_to_sql (q : query) (hmap : gmap string string)
  : outcome (string * list L * gmap string string) :=
  '(hmap, graphs, t) ←
    of_result
      (match_clauses_to_sql q (match_clauses q) 0 hmap ∅
         (Translation [] Bindings.initial ∅));
  '(hmap, t) ← match_clauses_props_to_sql q (match_clauses q) 0 hmap t;
  '(query, litmap) ← of_result (raw_query q graphs t);
  '(query, parameters) ←
    of_result (Literals.replace_literal_parameters query litmap);
  Returns (query, parameters, hmap).

(** The names that a query gives to the text have no question mark: the
    tables of the store, the names of properties, functions and cast types,
    the aliases of return items and the directions of sort items. *)
Definition plain_pattern (p : @pattern L) : Prop :=
  ∀ props prop e,
    properties p = Some props → (prop, e) ∈ props →
    KypherText.plain prop = true ∧ KypherText.plain_names e = true.

Definition plain_query (q : query) : Prop :=
  (∀ file, KypherText.plain (get_file_graph file) = true)
  ∧ (∀ node1 rel node2,
       (node1, rel, node2) ∈ match_clauses q →
       plain_pattern node1 ∧ plain_pattern rel ∧ plain_pattern node2)
  ∧ (∀ e, where_clause q = Some e → KypherText.plain_names e = true)
  ∧ (∀ item,
       item ∈ items (return_clause q) →
       KypherText.plain_names (expression item) = true
       ∧ ∀ item_name, name item = Some item_name →
                      KypherText.plain item_name = true)
  ∧ (∀ sort_items sort_item,
       order_clause q = Some sort_items → sort_item ∈ sort_items →
       KypherText.plain_names (sort_expression sort_item) = true
       ∧ KypherText.plain (direction sort_item) = true)
  ∧ (∀ e, skip_clause q = Some e → KypherText.plain_names e = true)
  ∧ (∀ e, limit_clause q = Some e → KypherText.plain_names e = true).

End Translate.

(** A reference without question mark in alias and column. *)
Definition plain_ref (r : Bindings.colref) : Prop :=
  Py.has_char "?" r.1 = false ∧ Py.has_char "?" r.2 = false.

(** A text that is staged for the literal map [m]. *)
Definition staged_text {L} (m : @Literals.litmap L) (s : string) : Prop :=
  ∃ values, KypherText.staged_as m values s.

(** The references of the variable map and of the joins are plain. *)
Definition plain_bindings (st : Bindings.state) : Prop :=
  (∀ query_var sql_vars r,
     Bindings.varmap st !! query_var = Some sql_vars →
     r ∈ sql_vars → plain_ref r)
  ∧ (∀ a b, (a, b) ∈ Bindings.joins st → plain_ref a ∧ plain_ref b).

(** The maps and sets of a translation give staged texts: the literal map
    is one of interned values, the restrictions compare plain references
    with staged texts, and the references of the variable map and of the
    joins are plain. *)
Definition staged_state {L} `{EqDecision L} (t : @translation L) : Prop :=
  (∃ vs, literals t = Literals.interned vs)
  ∧ (∀ r val, (r, val) ∈ restrictions t →
              plain_ref r ∧ staged_text (literals t) val)
  ∧ plain_bindings (bindings t).

(** The tables and aliases of the graphs are plain. *)
Definition plain_graphs (graphs : gset (string * string)) : Prop :=
  ∀ graph alias,
    (graph, alias) ∈ graphs →
    Py.has_char "?" graph = false ∧ Py.has_char "?" alias = false.

(** The text that [translate_to_sql] takes out of the query text. *)
Definition TRUE_AND : string := " TRUE" +:+ nl +:+ "AND".

(** The first example of the module documentation:
    [match='g: (a)-[:loves]->(a), (a)-[r2:name]->(n)'] on a file with the
    table [graph_1], for the iteration order that the documented output
    shows. *)
Definition documented_query : @query string :=
  let a := Pattern false (Some "g") None (Some (NamedVariable "a")) None in
  let n := Pattern false None None (Some (NamedVariable "n")) None in
  let loves :=
    Pattern true None (Some ["loves"]) (Some (AnonymousVariable "_x1")) None in
  let r2 := Pattern true None (Some ["name"]) (Some (NamedVariable "r2")) None in
  Query ["/data/graph.tsv"] "/data/graph.tsv" [(a, loves, a); (a, r2, n)]
        None (Return false [ReturnItem (Var "*") None]) None None None.

Definition reversed (st : Bindings.state) : Bindings.state :=
  Bindings.State (reverse <$> Bindings.varmap st) (Bindings.joins st).

End Translate.

(** * Properties *)

(** ** Strings *)

Module PyFacts.
Import Py.

Lemma append_cons c s t : String c s +:+ t = String c (s +:+ t).
Proof. reflexivity. Qed.

Lemma append_nil_l t : "" +:+ t = t.
Proof. reflexivity. Qed.

Lemma append_nil_r s : s +:+ "" = s.
Proof. induction s as [|c s IH]; [done|]. by rewrite append_cons, IH. Qed.

Lemma append_assoc s t u : (s +:+ t) +:+ u = s +:+ t +:+ u.
Proof. induction s as [|c s IH]; [done|]. by rewrite !append_cons, IH. Qed.

Lemma append_length s t :
  String.length (s +:+ t) = String.length s + String.length t.
Proof. induction s as [|c s IH]; [done|]. rewrite append_cons. simpl. lia. Qed.

Lemma has_char_app c s t : has_char c (s +:+ t) = has_char c s || has_char c t.
Proof.
  induction s as [|a s IH]; [done|].
  rewrite append_cons. simpl. by destruct (decide (a = c)).
Qed.

Lemma count_char_app c s t :
  count_char c (s +:+ t) = count_char c s + count_char c t.
Proof.
  induction s as [|a s IH]; [done|].
  rewrite append_cons. simpl. rewrite IH. lia.
Qed.

Lemma count_char_absent c s : has_char c s = false → count_char c s = 0.
Proof.
  induction s as [|a s IH]; [done|]. simpl.
  destruct (decide (a = c)); [done|]. auto.
Qed.

Lemma split_go_nil sep k : split_go sep k "" = [""].
Proof. by destruct k. Qed.

Lemma split_go_skip sep k c r :
  split_go sep (S k) (String c r) = split_go sep k r.
Proof. reflexivity. Qed.

Lemma split_go_0 sep c r :
  split_go sep 0 (String c r) =
  if String.prefix sep (String c r)
  then "" :: split_go sep (String.length sep - 1) r
  else cons_head c (split_go sep 0 r).
Proof. reflexivity. Qed.

Lemma prefix_cons a p c s :
  String.prefix (String a p) (String c s) =
  if ascii_dec a c then String.prefix p s else false.
Proof. reflexivity. Qed.

Lemma prefix_nil s : String.prefix "" s = true.
Proof. by destruct s. Qed.

Lemma prefix_iff p s : String.prefix p s = true ↔ ∃ x, s = p +:+ x.
Proof.
  revert s. induction p as [|a p IH]; intros s.
  - rewrite prefix_nil. split; [|done]. intros _. exists s.
    by rewrite append_nil_l.
  - destruct s as [|c s].
    + split; [done|]. intros [x Hx]. by rewrite append_cons in Hx.
    + rewrite prefix_cons. destruct (ascii_dec a c) as [->|Hne].
      * rewrite IH. split; intros [x Hx]; exists x.
        -- by rewrite append_cons, Hx.
        -- rewrite append_cons in Hx. by injection Hx.
      * split; [done|]. intros [x Hx]. rewrite append_cons in Hx.
        by injection Hx.
Qed.

Lemma startswith_cons c s : startswith (String c "") (String c s) = true.
Proof.
  unfold startswith. rewrite prefix_cons, prefix_nil.
  by destruct (ascii_dec c c).
Qed.

Lemma prefix_marker_other c s :
  c ≠ "?"%char → String.prefix "??" (String c s) = false.
Proof. intros Hc. rewrite prefix_cons. by destruct (ascii_dec "?" c). Qed.

Lemma split_go_cons sep k s : ∃ t ts, split_go sep k s = t :: ts.
Proof.
  revert k. induction s as [|c s IH]; intros k.
  { rewrite split_go_nil. eauto. }
  destruct k as [|k]; [|rewrite split_go_skip; by apply IH].
  rewrite split_go_0.
  destruct (String.prefix sep (String c s)); [by eauto|].
  destruct (IH 0) as (t & ts & ->). simpl. eauto.
Qed.

(** Text without the marker character, followed by the marker, is a token. *)
Lemma split_go_until s rest :
  has_char "?" s = false →
  split_go "??" 0 (s +:+ "??" +:+ rest) = s :: split_go "??" 0 rest.
Proof.
  intros Hs. induction s as [|c s IH].
  - rewrite append_nil_l. by destruct rest.
  - simpl in Hs. destruct (decide (c = "?"%char)) as [|Hc]; [done|].
    rewrite (append_cons c s), split_go_0, prefix_marker_other by done.
    by rewrite (IH Hs).
Qed.

Lemma pretty_N_go_digits x s :
  has_char "?" s = false → has_char "?" (pretty_N_go x s) = false.
Proof.
  revert s. induction (N.lt_wf_0 x) as [x _ IH]; intros s Hs.
  destruct (decide (x = 0%N)) as [->|]; [by rewrite pretty_N_go_0|].
  rewrite pretty_N_go_step by lia. apply IH; [apply N.div_lt; lia|].
  simpl. rewrite Hs. unfold pretty_N_char. by repeat case_match.
Qed.

Lemma pretty_N_go_nonempty x s : s ≠ "" → pretty_N_go x s ≠ "".
Proof.
  revert s. induction (N.lt_wf_0 x) as [x _ IH]; intros s Hs.
  destruct (decide (x = 0%N)) as [->|]; [by rewrite pretty_N_go_0|].
  rewrite pretty_N_go_step by lia. apply IH; [apply N.div_lt; lia|done].
Qed.

(** ['%d' % n] is a non-empty text without the marker character. *)
Lemma pretty_nat_digits (n : nat) :
  ∃ d r, pretty n = String d r ∧ has_char "?" (String d r) = false.
Proof.
  assert (has_char "?" (pretty n) = false ∧ pretty n ≠ "") as [Hq Hne].
  { unfold pretty, pretty_nat, pretty, pretty_N.
    case_decide as Hx; [done|]. split.
    - by apply pretty_N_go_digits.
    - rewrite pretty_N_go_step by lia. by apply pretty_N_go_nonempty. }
  destruct (pretty n) as [|d r]; [done|]. eauto.
Qed.

End PyFacts.

(** ** The literal parameter table *)

Module LiteralsFacts.
Import Py PyFacts Literals.
Section LiteralsFacts.

Context {L : Type} `{EqDecision L}.
Implicit Types (m : @litmap L) (v l : L) (p : string) (vs : list L).

Lemma app_inj_r s t u : s +:+ u = t +:+ u → s = t.
Proof.
  revert t. induction s as [|c s IH]; intros [|d t] Heq; [done|..].
  - apply (f_equal String.length) in Heq.
    rewrite append_nil_l, append_cons in Heq. simpl in Heq.
    rewrite append_length in Heq. lia.
  - apply (f_equal String.length) in Heq.
    rewrite append_nil_l, append_cons in Heq. simpl in Heq.
    rewrite append_length in Heq. lia.
  - rewrite !append_cons in Heq. injection Heq as -> Heq. f_equal. by apply IH.
Qed.

Lemma placeholder_inj i j : placeholder i = placeholder j → i = j.
Proof.
  unfold placeholder. intros Heq.
  apply (inj (String.append "???")) in Heq.
  apply app_inj_r in Heq. by apply (inj pretty) in Heq.
Qed.

Lemma dict_get_app v m1 m2 :
  dict_get v (m1 ++ m2) =
  match dict_get v m1 with Some p => Some p | None => dict_get v m2 end.
Proof.
  induction m1 as [|[l p] m1 IH]; [done|]. simpl.
  by destruct (decide (l = v)).
Qed.

Lemma dict_get_Some v m p : dict_get v m = Some p → ∃ i, m !! i = Some (v, p).
Proof.
  induction m as [|[l q] m IHm]; [done|]. simpl.
  destruct (decide (l = v)) as [->|_].
  - intros [= ->]. by exists 0.
  - intros [i Hi]%IHm. by exists (S i).
Qed.

Lemma dict_get_None v m : dict_get v m = None ↔ v ∉ m.*1.
Proof.
  induction m as [|[l q] m IH]; simpl.
  - split; [intros _; apply not_elem_of_nil|done].
  - rewrite not_elem_of_cons. destruct (decide (l = v)) as [->|Hne].
    + split; [done|]. intros [Hv _]. by destruct Hv.
    + rewrite IH. split; [intros Hv; split; [congruence|done]|by intros [_ Hv]].
Qed.

Lemma dict_get_lookup m i l p :
  NoDup m.*1 → m !! i = Some (l, p) → dict_get l m = Some p.
Proof.
  revert i. induction m as [|[l' q] m IH]; intros i Hnd Hi; [done|].
  simpl in Hnd. apply NoDup_cons in Hnd as [Hl' Hnd]. simpl.
  destruct i as [|i]; simpl in Hi.
  - injection Hi as -> ->. by rewrite decide_True.
  - rewrite decide_False; [by eapply IH|].
    intros ->. apply Hl'. apply list_elem_of_fmap. exists (l, p).
    split; [done|]. by eapply list_elem_of_lookup_2.
Qed.

Lemma interned_snoc vs v :
  interned (vs ++ [v]) = (get_literal_parameter v (interned vs)).2.
Proof. unfold interned. by rewrite fold_left_app. Qed.

(** The literal maps of a translation carry the placeholder of number [i]
    at position [i], and each literal once. *)
Lemma interned_minted vs : minted (interned vs) ∧ NoDup (interned vs).*1.
Proof.
  induction vs as [|v vs [IHm IHn]] using rev_ind.
  { split; [by intros i l p|constructor]. }
  rewrite interned_snoc. unfold get_literal_parameter.
  destruct (dict_get v (interned vs)) as [p|] eqn:Hget; [done|]. simpl. split.
  - intros i l p Hi. apply lookup_app_Some in Hi as [Hi|[Hlen Hi]].
    + by eapply IHm.
    + apply list_lookup_singleton_Some in Hi as [Hi [= _ <-]].
      f_equal. lia.
  - rewrite fmap_app. apply NoDup_app. split; [done|]. split.
    + intros x Hx [->|[]%elem_of_nil]%elem_of_cons.
      by apply dict_get_None in Hget.
    + apply NoDup_singleton.
Qed.

Lemma reverse_get_absent p m : (∀ l, (l, p) ∉ m) → reverse_get p m = None.
Proof.
  induction m as [|[l q] m IH]; intros Hp; [done|]. simpl.
  rewrite IH.
  - rewrite decide_False; [done|]. intros ->. apply (Hp l). left.
  - intros l' Hl'. apply (Hp l'). by right.
Qed.

Lemma reverse_get_minted k m i l p :
  (∀ j l' p', m !! j = Some (l', p') → p' = placeholder (k + j)) →
  m !! i = Some (l, p) →
  reverse_get (placeholder (k + i)) m = Some l.
Proof.
  revert k i. induction m as [|[l0 p0] m IH]; intros k i Hm Hi; [done|].
  simpl. destruct i as [|i]; simpl in Hi.
  - injection Hi as -> ->. rewrite reverse_get_absent.
    + rewrite decide_True; [done|]. by apply (Hm 0 l p).
    + intros l' [j Hj]%list_elem_of_lookup_1.
      apply (Hm (S j) l') in Hj. apply placeholder_inj in Hj. lia.
  - replace (k + S i) with (S k + i) by lia.
    rewrite (IH (S k) i); [done| |done].
    intros j l' p' Hj. replace (S k + j) with (k + S j) by lia.
    by apply (Hm (S j) l').
Qed.

Lemma startswith_append s t :
  startswith "?" s = false → startswith "?" t = false →
  startswith "?" (s +:+ t) = false.
Proof.
  destruct s as [|c s]; [by rewrite append_nil_l|].
  unfold startswith. by rewrite append_cons, !prefix_cons, !prefix_nil.
Qed.

(** Plain text stays in the token it is in. *)
Lemma split_go_plain s rest t ts :
  marker_free s = true →
  split_go "??" 0 rest = t :: ts →
  split_go "??" 0 (s +:+ rest) = (s +:+ t) :: ts.
Proof.
  intros Hs Hrest. induction s as [|c s IH]; [done|].
  rewrite (append_cons c s), split_go_0. simpl in Hs.
  destruct (decide (c = "?"%char)) as [->|Hc].
  - destruct s as [|d s]; [done|]. apply andb_true_iff in Hs as [Hd Hs].
    apply negb_true_iff, bool_decide_eq_false in Hd.
    rewrite append_cons, prefix_cons.
    destruct (ascii_dec "?" "?") as [_|]; [|done].
    rewrite prefix_cons. destruct (ascii_dec "?" d) as [<-|_]; [done|].
    by rewrite <-append_cons, (IH Hs).
  - rewrite prefix_marker_other by done. by rewrite (IH Hs).
Qed.

Lemma replace_tokens_cons m token rest :
  replace_tokens m (token :: rest) =
  if startswith "?" token then
    match reverse_get ("??" +:+ token +:+ "??") m with
    | None => Err (KeyError ("??" +:+ token +:+ "??"))
    | Some l =>
        '(query, parameters) ← replace_tokens m rest;
        Ok ("?" +:+ query, l :: parameters)
    end
  else
    '(query, parameters) ← replace_tokens m rest;
    Ok (token +:+ query, parameters).
Proof. reflexivity. Qed.

(** A placeholder is cut into an empty token and the token of its number. *)
Lemma split_placeholder n rest :
  split_go "??" 0 (placeholder n +:+ rest) =
  "" :: ("?" +:+ pretty n) :: split_go "??" 0 rest.
Proof.
  destruct (pretty_nat_digits n) as (d & r & Hd & Hdr).
  unfold placeholder. rewrite Hd, !append_assoc.
  change ("???" +:+ String d r +:+ "??" +:+ rest)
    with (String "?" (String "?" (String "?" (String d (r +:+ "??" +:+ rest))))).
  rewrite split_go_0.
  change (String.prefix "??" (String "?" (String "?" ?x))) with true.
  cbv iota. change (String.length "??" - 1) with 1.
  rewrite split_go_skip, split_go_0.
  simpl in Hdr. destruct (decide (d = "?"%char)) as [|Hd']; [done|].
  rewrite prefix_cons. destruct (ascii_dec "?" "?") as [_|]; [|done].
  rewrite prefix_cons. destruct (ascii_dec "?" d) as [<-|_]; [done|].
  change (String d (r +:+ "??" +:+ rest)) with (String d r +:+ "??" +:+ rest).
  rewrite split_go_until; [done|]. simpl. by rewrite decide_False.
Qed.

(** The tokens of a staged text: the plain text up to the first
    placeholder, then what the loop makes of the rest. *)
Lemma staged_tokens (vs : list L) (ps : list piece) :
  Forall (piece_ok (interned vs)) ps →
  ∃ t ts q parameters,
    split "??" (staged ps) = t :: ts ∧
    startswith "?" t = false ∧
    replace_tokens (interned vs) ts = Ok (q, parameters) ∧
    final ps = t +:+ q ∧
    Forall2 (λ l n, interned vs !! n = Some (l, placeholder n))
            parameters (holes ps).
Proof.
  destruct (interned_minted vs) as [Hm _].
  induction 1 as [|[s|n] ps Hp _ (t & ts & q & pars & Hsplit & Ht & Hrep & Hfin & Hpars)].
  - by exists "", [], "", [].
  - destruct Hp as [Hstart Hfree].
    exists (s +:+ t), ts, q, pars. split_and!; [| |done| |done].
    + by apply split_go_plain.
    + by apply startswith_append.
    + simpl. by rewrite Hfin, append_assoc.
  - simpl in Hp. apply lookup_lt_is_Some in Hp as [[l p] Hl].
    pose proof (Hm _ _ _ Hl) as ->.
    exists "", (("?" +:+ pretty n) :: t :: ts), ("?" +:+ t +:+ q), (l :: pars).
    split_and!; [|done|..].
    + unfold split in *.
      change (staged (Hole n :: ps)) with (placeholder n +:+ staged ps).
      by rewrite split_placeholder, Hsplit.
    + rewrite replace_tokens_cons.
      change ("?" +:+ pretty n) with (String "?" (pretty n)) at 1.
      rewrite startswith_cons.
      change ("??" +:+ ("?" +:+ pretty n) +:+ "??") with (placeholder n).
      rewrite (reverse_get_minted 0 _ n l (placeholder n));
        [|by intros j l' p' ?%Hm|done].
      by rewrite replace_tokens_cons, Ht, Hrep.
    + simpl. by rewrite Hfin.
    + by constructor.
Qed.

(** The final text has the question marks of the plain text and one for
    each placeholder. *)
Lemma count_final (ps : list piece) :
  count_char "?" (final ps)
  = length (holes ps) + count_char "?" (plain_text ps).
Proof.
  induction ps as [|[s|n] ps IH]; [done|..]; simpl;
    rewrite !count_char_app, IH; simpl; lia.
Qed.

(** C8: interning is idempotent and deterministic.  Interning a value again
    returns the same placeholder and leaves the map as it is; a value that
    is in the map gets its placeholder, a first-time value gets the
    placeholder numbered by the size of the map before the insertion and is
    recorded at the end; and in a map built by interning, distinct values
    have distinct placeholders. *)
Theorem intern_idempotent_deterministic m v vs (w1 w2 : L) p1 p2 :
  get_literal_parameter v (get_literal_parameter v m).2
    = get_literal_parameter v m
  ∧ (∀ p, dict_get v m = Some p → get_literal_parameter v m = (p, m))
  ∧ (dict_get v m = None →
     get_literal_parameter v m
       = (placeholder (length m), m ++ [(v, placeholder (length m))]))
  ∧ (dict_get w1 (interned vs) = Some p1 →
     dict_get w2 (interned vs) = Some p2 →
     w1 ≠ w2 → p1 ≠ p2).
Proof.
  split_and!.
  - unfold get_literal_parameter at 2 3.
    destruct (dict_get v m) as [p|] eqn:Hget; simpl.
    + unfold get_literal_parameter. by rewrite Hget.
    + unfold get_literal_parameter. rewrite dict_get_app, Hget. simpl.
      by rewrite decide_True.
  - intros p Hget. unfold get_literal_parameter. by rewrite Hget.
  - intros Hget. unfold get_literal_parameter. by rewrite Hget.
  - intros [i1 H1]%dict_get_Some [i2 H2]%dict_get_Some Hne Heq.
    destruct (interned_minted vs) as [Hm _].
    pose proof (Hm _ _ _ H1) as E1. pose proof (Hm _ _ _ H2) as E2.
    assert (i1 = i2) as -> by (apply placeholder_inj; congruence).
    congruence.
Qed.

(** C1: the materialize pass on a staged text whose placeholders were
    minted by the literal map, between plain text that carries nothing of a
    marker.  The final text is the staged text with one question mark for
    each placeholder occurrence; it has one question mark for each
    parameter besides those of the plain text, so the parameter list is as
    long as the number of question marks of the final text when the plain
    text has none; and the parameters are, in text order and once per
    occurrence, the literals that the map sends to the placeholders of the
    text. *)
Theorem materialize_positional vs (ps : list piece) :
  Forall (piece_ok (interned vs)) ps →
  ∃ parameters,
    replace_literal_parameters (staged ps) (interned vs)
      = Ok (final ps, parameters)
    ∧ count_char "?" (final ps)
      = length parameters + count_char "?" (plain_text ps)
    ∧ (has_char "?" (plain_text ps) = false →
       length parameters = count_char "?" (final ps))
    ∧ Forall2 (λ l n, dict_get l (interned vs) = Some (placeholder n))
              parameters (holes ps).
Proof.
  intros Hps.
  destruct (staged_tokens vs ps Hps)
    as (t & ts & q & pars & Hsplit & Ht & Hrep & Hfin & Hpars).
  assert (length pars = length (holes ps)) as Hlen
    by by eapply Forall2_length.
  exists pars. split_and!.
  - unfold replace_literal_parameters.
    rewrite Hsplit, replace_tokens_cons, Ht, Hrep.
    simpl. by rewrite Hfin.
  - rewrite count_final. lia.
  - intros Hplain%count_char_absent. rewrite count_final. lia.
  - destruct (interned_minted vs) as [_ Hnd].
    eapply Forall2_impl; [done|]. intros l n Hl.
    exact (dict_get_lookup _ _ _ _ Hnd Hl).
Qed.

End LiteralsFacts.

Example get_literal_parameter_twice :
  get_literal_parameter "loves" (interned ["loves"; "name"; "loves"])
  = ("???0??", [("loves", "???0??"); ("name", "???1??")]).
Proof. reflexivity. Qed.

Example replace_literal_parameters_example :
  replace_literal_parameters
    "WHERE c1.label=???1?? AND c2.label=???0?? AND c3.label=???1??"
    (interned ["loves"; "name"])
  = Ok ("WHERE c1.label=? AND c2.label=? AND c3.label=?",
        ["name"; "loves"; "name"]).
Proof. reflexivity. Qed.

Lemma intern_idempotent_deterministic_witness :
  get_literal_parameter "name" (interned ["loves"])
    = ("???1??", [("loves", "???0??"); ("name", "???1??")])
  ∧ get_literal_parameter "loves" (interned ["loves"])
    = ("???0??", [("loves", "???0??")])
  ∧ "???0??" ≠ "???1??".
Proof.
  destruct (intern_idempotent_deterministic (interned ["loves"]) "name"
              ["loves"; "name"] "loves" "name" "???0??" "???1??")
    as (_ & _ & Hnew & Hdistinct).
  destruct (intern_idempotent_deterministic (interned ["loves"]) "loves"
              [] "loves" "name" "???0??" "???1??")
    as (_ & Hold & _ & _).
  split_and!.
  - apply Hnew. reflexivity.
  - apply Hold. reflexivity.
  - apply Hdistinct; [reflexivity|reflexivity|discriminate].
Defined.

Lemma materialize_positional_witness :
  let vs := ["loves"; "name"] in
  let ps := [Plain "a="; Hole 1; Plain " AND b?c="; Hole 0; Plain " OR c=";
             Hole 1] in
  staged ps = "a=???1?? AND b?c=???0?? OR c=???1??"
  ∧ final ps = "a=? AND b?c=? OR c=?"
  ∧ ∃ parameters,
      replace_literal_parameters (staged ps) (interned vs)
        = Ok (final ps, parameters)
      ∧ count_char "?" (final ps)
        = length parameters + count_char "?" (plain_text ps)
      ∧ (has_char "?" (plain_text ps) = false →
         length parameters = count_char "?" (final ps))
      ∧ Forall2 (λ l n, dict_get l (interned vs) = Some (placeholder n))
                parameters (holes ps).
Proof.
  intros vs ps. split; [reflexivity|]. split; [reflexivity|].
  apply (materialize_positional vs ps).
  repeat constructor; vm_compute; lia.
Defined.

End LiteralsFacts.

(** ** The variable binding map *)

Module BindingsFacts.
Import Bindings.

Implicit Types (a b x : colref) (st : state) (sql_vars : list colref).

Lemma compare_refl s : String.compare s s = Eq.
Proof.
  induction s as [|c s IH]; simpl; [done|].
  unfold Ascii.compare. by rewrite N.compare_refl.
Qed.

Lemma sql_var_ltb_irrefl a : sql_var_ltb a a = false.
Proof. unfold sql_var_ltb, String.ltb. by rewrite !compare_refl. Qed.

Lemma sql_var_ltb_asym a b : sql_var_ltb a b = true → sql_var_ltb b a = false.
Proof.
  unfold sql_var_ltb, String.ltb.
  rewrite (String.compare_antisym b.1 a.1), (String.compare_antisym b.2 a.2).
  destruct (String.compare a.1 b.1); simpl; [|done..].
  by destruct (String.compare a.2 b.2).
Qed.

Lemma sql_var_ltb_total a b :
  a ≠ b → sql_var_ltb a b = false → sql_var_ltb b a = true.
Proof.
  destruct a as [g1 c1], b as [g2 c2]. unfold sql_var_ltb, String.ltb. simpl.
  rewrite (String.compare_antisym g2 g1), (String.compare_antisym c2 c1).
  intros Hne. destruct (String.compare g1 g2) eqn:Hg; simpl; [|done..].
  apply String.compare_eq_iff in Hg as ->.
  destruct (String.compare c1 c2) eqn:Hc; simpl; [|done..].
  apply String.compare_eq_iff in Hc as ->. done.
Qed.

(** The order of the pairs is the lexicographic one. *)
Lemma sql_var_ltb_lexicographic a b :
  sql_var_ltb a b = true ↔
  String.ltb a.1 b.1 = true ∨ (a.1 = b.1 ∧ String.ltb a.2 b.2 = true).
Proof.
  unfold sql_var_ltb, String.ltb.
  destruct (String.compare a.1 b.1) eqn:Hg.
  - apply String.compare_eq_iff in Hg. split; [by right|].
    by intros [?|[_ ?]].
  - split; [by left|done].
  - split; [done|]. intros [?|[Heq _]]; [done|].
    by rewrite Heq, compare_refl in Hg.
Qed.

Lemma sorted_pair_ordered best_var sql_var :
  sql_var ≠ best_var →
  sql_var_ltb (sorted_pair best_var sql_var).1
              (sorted_pair best_var sql_var).2 = true.
Proof.
  intros Hne. unfold sorted_pair.
  destruct (sql_var_ltb sql_var best_var) eqn:Hlt; simpl; [done|].
  by apply sql_var_ltb_total.
Qed.

(** What the loop returns once a first reference was taken. *)
Lemma find_best_var_from this_graph best sql_vars :
  find_best_var this_graph (Some best) sql_vars =
  match filter (λ v, this_graph = v.1) sql_vars with
  | v :: _ => Some v
  | [] => Some (default best (last sql_vars))
  end.
Proof.
  revert best. induction sql_vars as [|v rest IH]; intros best; [done|].
  simpl. destruct (decide (this_graph = v.1)).
  { by rewrite filter_cons_True. }
  rewrite filter_cons_False, IH by done. unfold colref in *.
  destruct (filter _ rest); [|done]. destruct rest as [|w rest]; [done|].
  rewrite last_cons_cons.
  by destruct (proj2 (last_is_Some (w :: rest))) as [x ->].
Qed.

(** The join partner that the loop chooses: among the references iterated
    after the first one, the first with the alias of the new reference;
    without such a reference, the last one iterated. *)
Lemma find_best_var_chosen this_graph first rest :
  find_best_var this_graph None (first :: rest) =
  match filter (λ v, this_graph = v.1) rest with
  | v :: _ => Some v
  | [] => last (first :: rest)
  end.
Proof.
  simpl. rewrite find_best_var_from. unfold colref in *.
  destruct (filter _ rest); [|done]. destruct rest as [|w rest]; [done|].
  rewrite last_cons_cons.
  by destruct (proj2 (last_is_Some (w :: rest))) as [x ->].
Qed.

Lemma find_best_var_is_Some this_graph sql_vars :
  sql_vars ≠ [] → is_Some (find_best_var this_graph None sql_vars).
Proof.
  destruct sql_vars as [|first rest]; [done|]. intros _.
  rewrite find_best_var_chosen. destruct (filter _ rest); [|by eauto].
  by apply last_is_Some.
Qed.

Lemma find_best_var_elem this_graph sql_vars best_var :
  find_best_var this_graph None sql_vars = Some best_var →
  best_var ∈ sql_vars.
Proof.
  destruct sql_vars as [|first rest]; [done|].
  rewrite find_best_var_chosen.
  destruct (filter _ rest) as [|v l] eqn:Hf.
  - intros Hl. apply last_Some in Hl as [l' ->]. set_solver.
  - intros [= <-]. right.
    assert (v ∈ filter (λ v, this_graph = v.1) rest) as Hv by (rewrite Hf; left).
    by apply list_elem_of_filter in Hv as [_ ?].
Qed.

(** The reference sets of a translation are never empty, so a
    registration never raises. *)
Lemma reachable_nonempty st :
  reachable st → ∀ query_var, varmap st !! query_var ≠ Some [].
Proof.
  induction 1 as [|st st' q v _ IH Hreg|st vm _ IH Hvm]; intros query_var.
  - simpl. by rewrite lookup_empty.
  - unfold register_clause_variable in Hreg.
    destruct (varmap st !! q) as [sql_vars|] eqn:Hq.
    + destruct (find_best_var v.1 None sql_vars) as [best|]; [|done].
      destruct (decide (v ≠ best)); simplify_eq; [|by apply IH]. simpl.
      destruct (decide (q = query_var)) as [->|].
      * rewrite lookup_insert_eq. unfold set_add.
        destruct (decide (v ∈ sql_vars)); [by intros [= ->]; eapply IH|].
        intros [= []%app_nil]. done.
      * rewrite lookup_insert_ne by done. apply IH.
    + simplify_eq. simpl. destruct (decide (q = query_var)) as [->|].
      * by rewrite lookup_insert_eq.
      * rewrite lookup_insert_ne by done. apply IH.
  - simpl. specialize (Hvm query_var). specialize (IH query_var).
    destruct Hvm as [l l' Hperm|]; [|done].
    intros [= ->]. apply Permutation_nil_l in Hperm. by subst.
Qed.

Lemma register_total st query_var sql_var :
  reachable st → ∃ st', register_clause_variable query_var sql_var st = Ok st'.
Proof.
  intros Hst. unfold register_clause_variable.
  destruct (varmap st !! query_var) as [sql_vars|] eqn:Hq; [|by eauto].
  destruct (find_best_var_is_Some sql_var.1 sql_vars) as [best ->].
  { intros ->. by eapply reachable_nonempty. }
  destruct (decide (sql_var ≠ best)); eauto.
Qed.

(** The joins of a state are ordered pairs. *)
Lemma register_joins_ordered st st' query_var sql_var :
  (∀ a b, (a, b) ∈ joins st → sql_var_ltb a b = true) →
  register_clause_variable query_var sql_var st = Ok st' →
  ∀ a b, (a, b) ∈ joins st' → sql_var_ltb a b = true.
Proof.
  intros Hst Hreg a b. unfold register_clause_variable in Hreg.
  destruct (varmap st !! query_var) as [sql_vars|]; [|by simplify_eq; auto].
  destruct (find_best_var sql_var.1 None sql_vars) as [best|]; [|done].
  destruct (decide (sql_var ≠ best)) as [Hne|]; simplify_eq; [|by auto].
  simpl. intros [Hab|Hab]%elem_of_union; [|by auto].
  apply elem_of_singleton in Hab.
  pose proof (sorted_pair_ordered best sql_var Hne) as Hord.
  by rewrite <-Hab in Hord.
Qed.

(** C4: in every state of a translation, the pairs of [joins] are in
    strictly increasing lexicographic order; hence no pair is reflexive and
    no pair is there together with its flip. *)
Theorem joins_canonical st :
  reachable st →
  (∀ a b, (a, b) ∈ joins st → sql_var_ltb a b = true)
  ∧ (∀ x, (x, x) ∉ joins st)
  ∧ (∀ a b, (a, b) ∈ joins st → (b, a) ∉ joins st).
Proof.
  intros Hst.
  assert (∀ a b, (a, b) ∈ joins st → sql_var_ltb a b = true) as Hord.
  { induction Hst as [|st st' q v _ IH Hreg|st vm _ IH _]; [|by eauto using register_joins_ordered|done].
    intros a b. simpl. by intros ?%not_elem_of_empty. }
  split_and!; [done|..].
  - intros x Hx%Hord. by rewrite sql_var_ltb_irrefl in Hx.
  - intros a b Hab%Hord Hba%Hord.
    apply sql_var_ltb_asym in Hab. congruence.
Qed.

Lemma joins_canonical_witness :
  let a1 := ("g_c1", "node1") in
  let a2 := ("g_c1", "node2") in
  let st := State {[ "a" := [a1; a2] ]} ({[ (a1, a2) ]} ∪ ∅) in
  (∀ a b, (a, b) ∈ joins st → sql_var_ltb a b = true)
  ∧ (∀ x, (x, x) ∉ joins st)
  ∧ (∀ a b, (a, b) ∈ joins st → (b, a) ∉ joins st).
Proof.
  intros a1 a2 st. apply (joins_canonical st).
  apply (reachable_register (State {[ "a" := [a1] ]} ∅) st "a" a2).
  - apply (reachable_register initial _ "a" a1).
    + apply reachable_initial.
    + reflexivity.
  - reflexivity.
Defined.

(** C2, on the code: the loop takes the first reference it iterates without
    comparing its alias, and a later reference with another alias replaces
    it.  For [MATCH (a)-[]->(b {nick: a}), (a)-[]->(c)] the variable [a] has
    the references [g_c1.node1] and [g_c2.node1] when [g_c1."node2;nick"] is
    registered; the partner chosen is [g_c2.node1], although [g_c1.node1]
    has the alias of the new reference. *)
Theorem best_var_skips_first_reference :
  let sql_vars := [("g_c1", "node1"); ("g_c2", "node1")] in
  let sql_var := ("g_c1", "node2;nick") in
  ∃ st1 st2 st3,
    register_clause_variable "a" ("g_c1", "node1") initial = Ok st1
    ∧ register_clause_variable "a" ("g_c2", "node1") st1 = Ok st2
    ∧ varmap st2 !! "a" = Some sql_vars
    ∧ register_clause_variable "a" sql_var st2 = Ok st3
    ∧ ("g_c1", "node1") ∈ sql_vars
    ∧ find_best_var "g_c1" None sql_vars = Some ("g_c2", "node1")
    ∧ joins st3 = {[ (sql_var, ("g_c2", "node1")) ]} ∪ joins st2
    ∧ (("g_c1", "node1"), sql_var) ∉ joins st3.
Proof.
  intros sql_vars sql_var.
  eexists _, _, _. split_and!; [reflexivity..| |reflexivity|reflexivity|].
  - left.
  - vm_compute. discriminate.
Qed.

(** C3 as stated fails: registering a reference again can add a join. *)
Lemma register_present_adds_join :
  ¬ (∀ st query_var sql_var sql_vars,
       reachable st →
       varmap st !! query_var = Some sql_vars →
       sql_var ∈ sql_vars →
       register_clause_variable query_var sql_var st = Ok st).
Proof.
  intros Hnoop.
  set (a1 := ("g_c1", "node1")). set (a2 := ("g_c2", "node1")).
  set (a3 := ("g_c2", "node2")).
  set (st1 := State {[ "a" := [a1] ]} ∅).
  set (st2 := State {[ "a" := [a1; a2] ]} ({[ (a1, a2) ]} ∪ ∅)).
  set (st3 := State {[ "a" := [a1; a2; a3] ]}
                    ({[ (a2, a3) ]} ∪ ({[ (a1, a2) ]} ∪ ∅))).
  assert (reachable st3) as Hst3.
  { apply (reachable_register st2 st3 "a" a3); [|reflexivity].
    apply (reachable_register st1 st2 "a" a2); [|reflexivity].
    apply (reachable_register initial st1 "a" a1); [|reflexivity].
    apply reachable_initial. }
  specialize (Hnoop st3 "a" a1 [a1; a2; a3] Hst3 eq_refl ltac:(left)).
  assert (register_clause_variable "a" a1 st3
          = Ok (State {[ "a" := [a1; a2; a3] ]}
                      ({[ (a1, a3) ]} ∪ joins st3))) as Hreg by reflexivity.
  rewrite Hreg in Hnoop.
  assert ({[ (a1, a3) ]} ∪ joins st3 = joins st3) as Hj.
  { exact (f_equal (λ r, match r with Ok s => joins s | Err _ => ∅ end)
                   Hnoop). }
  assert ((a1, a3) ∈ joins st3) as Hin.
  { rewrite <-Hj. apply elem_of_union_l. by apply elem_of_singleton. }
  revert Hin. vm_compute. discriminate.
Qed.

(** C3, amended: registering a reference that the variable already has
    never raises and leaves [varmap] as it is; [joins] is unchanged when the
    best existing reference found by the loop is that reference itself, and
    otherwise gains the ordered pair of the best reference and it. *)
Theorem register_present st query_var sql_var sql_vars :
  varmap st !! query_var = Some sql_vars →
  sql_var ∈ sql_vars →
  ∃ best_var st',
    find_best_var sql_var.1 None sql_vars = Some best_var
    ∧ register_clause_variable query_var sql_var st = Ok st'
    ∧ varmap st' = varmap st
    ∧ (sql_var = best_var → joins st' = joins st)
    ∧ (sql_var ≠ best_var →
       joins st' = {[ sorted_pair best_var sql_var ]} ∪ joins st).
Proof.
  intros Hq Hin.
  destruct (find_best_var_is_Some sql_var.1 sql_vars) as [best Hbest].
  { intros ->. by apply elem_of_nil in Hin. }
  unfold register_clause_variable. rewrite Hq, Hbest.
  case_decide as Heq.
  - eexists best, _. split_and!; [done|reflexivity| |by intros ?|by intros _].
    simpl. unfold set_add. rewrite decide_True by done. by apply insert_id.
  - exists best, st.
    split_and!; [done|done|done|done|by intros ?].
Qed.

Lemma register_present_witness :
  let a1 := ("g_c1", "node1") in
  let a2 := ("g_c2", "node1") in
  let a3 := ("g_c2", "node2") in
  let st := State {[ "a" := [a1; a2; a3] ]} {[ (a1, a2); (a2, a3) ]} in
  ∃ best_var st',
    find_best_var a1.1 None [a1; a2; a3] = Some best_var
    ∧ register_clause_variable "a" a1 st = Ok st'
    ∧ varmap st' = varmap st
    ∧ (a1 = best_var → joins st' = joins st)
    ∧ (a1 ≠ best_var → joins st' = {[ sorted_pair best_var a1 ]} ∪ joins st).
Proof.
  intros a1 a2 a3 st.
  apply (register_present st "a" a1 [a1; a2; a3]).
  - reflexivity.
  - left.
Defined.

End BindingsFacts.

(** ** The graph-handle resolver *)

Module HandlesFacts.
Import Py PyFacts Handles.

Lemma basename_no_slash p : has_char "/" (basename p) = false.
Proof.
  induction p as [|c r IH]; [done|]. simpl.
  destruct (has_char "/" r) eqn:Hr; [done|].
  destruct (decide (c = "/"%char)) as [|Hc]; [done|].
  simpl. by rewrite decide_False.
Qed.

Lemma prefix_has_char c sub key :
  String.prefix sub key = true → has_char c sub = true → has_char c key = true.
Proof.
  revert key. induction sub as [|a sub IH]; intros [|b key]; try done.
  rewrite prefix_cons. destruct (ascii_dec a b) as [->|]; [|done].
  simpl. intros Hp. destruct (decide (b = c)); [done|]. by apply IH.
Qed.

Lemma contains_nil sub : contains sub "" = String.prefix sub "" || false.
Proof. reflexivity. Qed.

Lemma contains_cons sub b key :
  contains sub (String b key)
  = String.prefix sub (String b key) || contains sub key.
Proof. reflexivity. Qed.

Lemma contains_has_char c sub key :
  contains sub key = true → has_char c sub = true → has_char c key = true.
Proof.
  intros Hc Hsub. induction key as [|b key IH].
  - rewrite contains_nil, orb_false_r in Hc. by eapply prefix_has_char.
  - rewrite contains_cons in Hc. apply orb_true_iff in Hc as [Hp|Hc].
    + by eapply prefix_has_char.
    + simpl. destruct (decide (b = c)); [done|]. by apply IH.
Qed.

Lemma absolute_has_slash file : absolute file → has_char "/" file = true.
Proof.
  unfold absolute, startswith. destruct file as [|c r]; [done|].
  rewrite prefix_cons. by destruct (ascii_dec "/" c) as [<-|].
Qed.

Lemma base_handle_absolute handle :
  absolute handle → has_char "/" (base_handle handle) = true.
Proof.
  intros Habs. unfold base_handle.
  destruct (search_digits_at_end 0 handle) as [start|];
    [|by apply absolute_has_slash].
  destruct start as [|n]; simpl; [by apply absolute_has_slash|].
  unfold absolute, startswith in Habs. destruct handle as [|c r]; [done|].
  rewrite prefix_cons in Habs. by destruct (ascii_dec "/" c) as [<-|].
Qed.

(** No basename contains an absolute path, nor its base handle. *)
Lemma basename_matches_absolute handle file :
  absolute handle → basename_matches handle (base_handle handle) file = false.
Proof.
  intros Habs. unfold basename_matches.
  apply orb_false_iff. split; apply not_true_is_false; intros Hc.
  - apply (contains_has_char "/") in Hc; [|by apply absolute_has_slash].
    by rewrite basename_no_slash in Hc.
  - apply (contains_has_char "/") in Hc; [|by apply base_handle_absolute].
    by rewrite basename_no_slash in Hc.
Qed.

(** The loop returns the first file, not yet mapped, that is the handle or
    whose basename matches. *)
Lemma scan_files_find handle base mapped files :
  scan_files handle base mapped files =
  List.find (λ file, bool_decide (file ∉ mapped)
                     && (bool_decide (file = handle)
                         || basename_matches handle base file)) files.
Proof.
  induction files as [|file rest IH]; [done|]. simpl.
  destruct (decide (file ∈ mapped)) as [Hm|Hm].
  - by rewrite bool_decide_eq_false_2 by auto.
  - rewrite bool_decide_eq_true_2 by done. simpl.
    destruct (decide (handle = file)) as [->|Hne].
    + by rewrite bool_decide_eq_true_2.
    + rewrite bool_decide_eq_false_2 by done. simpl.
      by destruct (basename_matches handle base file).
Qed.

Lemma find_none_elem {A} (P : A → bool) (l : list A) :
  (∀ x, x ∈ l → P x = false) → List.find P l = None.
Proof.
  induction l as [|x l IH]; intros Hext; [done|]. simpl.
  rewrite Hext by left. apply IH. intros y Hy. apply Hext. by right.
Qed.

Lemma find_first {A} (P : A → bool) (l before after : list A) x :
  l = before ++ x :: after → P x = true →
  (∀ y, y ∈ before → P y = false) → List.find P l = Some x.
Proof.
  intros -> Hx. induction before as [|y before IH]; intros Hbefore; simpl.
  - by rewrite Hx.
  - rewrite Hbefore by left. apply IH. intros z Hz. apply Hbefore. by right.
Qed.

Lemma find_Some_first {A} (P : A → bool) (l : list A) x :
  List.find P l = Some x →
  ∃ before after,
    l = before ++ x :: after ∧ P x = true ∧ ∀ y, y ∈ before → P y = false.
Proof.
  induction l as [|y l IH]; [done|]. simpl. destruct (P y) eqn:Hy.
  - intros [= ->]. exists [], l. split; [done|]. split; [done|].
    by intros z ?%elem_of_nil.
  - intros (before & after & -> & Hx & Hbefore)%IH.
    exists (y :: before), after. split; [done|]. split; [done|].
    intros z [->|Hz]%elem_of_cons; [done|by apply Hbefore].
Qed.

Lemma find_None_all {A} (P : A → bool) (l : list A) :
  List.find P l = None → ∀ y, y ∈ l → P y = false.
Proof.
  induction l as [|x l IH]; simpl.
  - by intros _ y ?%elem_of_nil.
  - destruct (P x) eqn:Hx; [done|].
    intros Hnone y [->|Hy]%elem_of_cons; [done|by apply IH].
Qed.

(** *** The notions of the rules and the functions of the resolver *)

Lemma contains_iff sub key :
  contains sub key = true ↔ HandleRules.substring_of sub key.
Proof.
  unfold HandleRules.substring_of. induction key as [|b key IH].
  - rewrite contains_nil, orb_false_r, prefix_iff. split.
    + intros [x Hx]. exists "", x. by rewrite append_nil_l.
    + intros (before & after & Hkey).
      destruct before; [|by rewrite append_cons in Hkey].
      rewrite append_nil_l in Hkey. by exists after.
  - rewrite contains_cons, orb_true_iff, IH, prefix_iff. split.
    + intros [[x Hx]|(before & after & Hkey)].
      * exists "", x. by rewrite append_nil_l.
      * exists (String b before), after. by rewrite append_cons, Hkey.
    + intros (before & after & Hkey). destruct before as [|c before].
      * left. exists after. by rewrite append_nil_l in Hkey.
      * right. rewrite append_cons in Hkey. injection Hkey as -> Hkey.
        by exists before, after.
Qed.

Lemma has_char_iff c s :
  has_char c s = true ↔ HandleRules.substring_of (String c "") s.
Proof.
  rewrite <-contains_iff. induction s as [|a s IH].
  - by rewrite contains_nil.
  - rewrite contains_cons, prefix_cons, prefix_nil. simpl.
    destruct (ascii_dec c a) as [->|Hne].
    + by rewrite decide_True.
    + rewrite decide_False by done. simpl. apply IH.
Qed.

Lemma basename_whole p : has_char "/" p = false → basename p = p.
Proof.
  destruct p as [|c r]; [done|]. simpl.
  destruct (decide (c = "/"%char)); [done|]. by intros ->.
Qed.

Lemma basename_after_slash dir key :
  has_char "/" key = false → basename (dir +:+ String "/" key) = key.
Proof.
  intros Hkey. induction dir as [|c dir IH].
  - rewrite append_nil_l. simpl. by rewrite Hkey.
  - rewrite append_cons. simpl. rewrite has_char_app. simpl.
    by rewrite orb_true_r.
Qed.

(** [os.path.basename] gives the basename of the rules, and nothing else
    is one. *)
Lemma basename_of_iff path key :
  HandleRules.basename_of path key ↔ key = basename path.
Proof.
  unfold HandleRules.basename_of. rewrite <-has_char_iff. split.
  - intros [Hkey%not_true_is_false [->|[dir ->]]].
    + by rewrite basename_whole.
    + change ("/" +:+ key) with (String "/" ("" +:+ key)).
      by rewrite append_nil_l, basename_after_slash.
  - intros ->. split; [by rewrite basename_no_slash|].
    induction path as [|c r IH]; [by left|]. simpl.
    destruct (has_char "/" r) eqn:Hr.
    + right. destruct IH as [Heq|[dir Hdir]].
      * pose proof (basename_no_slash r) as Hno.
        rewrite <-Heq in Hno. congruence.
      * exists (String c dir). by rewrite append_cons, <-Hdir.
    + destruct (decide (c = "/"%char)) as [->|]; [|by left].
      right. exists "". by rewrite append_nil_l.
Qed.

Lemma digit_is_digit c : HandleRules.digit c = is_digit c.
Proof. by destruct c as [[] [] [] [] [] [] [] []]. Qed.

Lemma digits_to_end_numeric s :
  has_char newline s = false → digits_to_end s = HandleRules.numeric s.
Proof.
  induction s as [|c r IH]; [done|]. simpl. rewrite digit_is_digit.
  destruct (decide (c = newline)) as [|Hc]; [done|]. intros Hr.
  destruct (is_digit c); [by apply IH|].
  by rewrite bool_decide_eq_false_2.
Qed.

Lemma search_without_trailing_digits s i :
  has_char newline s = false →
  search_digits_at_end i s
  = if decide (HandleRules.without_trailing_digits s = s) then None
    else Some (i + String.length (HandleRules.without_trailing_digits s)).
Proof.
  revert i. induction s as [|c r IH]; intros i Hs; [done|].
  assert (has_char newline r = false) as Hr.
  { simpl in Hs. by destruct (decide (c = newline)). }
  change (search_digits_at_end i (String c r))
    with (if is_digit c && digits_to_end r then Some i
          else search_digits_at_end (S i) r).
  change (HandleRules.without_trailing_digits (String c r))
    with (if HandleRules.digit c && HandleRules.numeric r then ""
          else String c (HandleRules.without_trailing_digits r)).
  rewrite digits_to_end_numeric, <-digit_is_digit by done.
  destruct (HandleRules.digit c && HandleRules.numeric r).
  - rewrite decide_False by done. simpl. by rewrite Nat.add_0_r.
  - rewrite IH by done.
    destruct (decide (HandleRules.without_trailing_digits r = r))
      as [Heq|Hne].
    + rewrite decide_True; [done|by rewrite Heq].
    + rewrite decide_False by (by intros [= ?]). simpl. f_equal. lia.
Qed.

Lemma substring_without_trailing_digits s :
  String.substring 0 (String.length (HandleRules.without_trailing_digits s)) s
  = HandleRules.without_trailing_digits s.
Proof.
  induction s as [|c r IH]; [done|].
  change (HandleRules.without_trailing_digits (String c r))
    with (if HandleRules.digit c && HandleRules.numeric r then ""
          else String c (HandleRules.without_trailing_digits r)).
  destruct (HandleRules.digit c && HandleRules.numeric r); [done|].
  simpl. by rewrite IH.
Qed.

(** The base handle that the resolver computes is the one of the rules,
    for a handle without line feed. *)
Lemma base_handle_rules handle :
  has_char newline handle = false →
  base_handle handle = HandleRules.base_handle handle.
Proof.
  intros Hnl. unfold base_handle, HandleRules.base_handle.
  rewrite search_without_trailing_digits by done. simpl.
  destruct (decide (HandleRules.without_trailing_digits handle = handle))
    as [Heq|Hne].
  - rewrite Heq. by case_decide.
  - destruct (decide (HandleRules.without_trailing_digits handle = ""))
      as [Hstem|Hstem].
    + by rewrite Hstem.
    + rewrite substring_without_trailing_digits.
      by destruct (HandleRules.without_trailing_digits handle).
Qed.

Lemma basename_matches_iff handle file :
  has_char newline handle = false →
  basename_matches handle (base_handle handle) file = true
  ↔ HandleRules.basename_contains handle file.
Proof.
  intros Hnl. unfold basename_matches, HandleRules.basename_contains.
  rewrite orb_true_iff, !contains_iff, base_handle_rules by done. split.
  - intros Hkey. exists (basename file). by rewrite basename_of_iff.
  - by intros (key & ->%basename_of_iff & Hkey).
Qed.


Example base_handle_g12 : base_handle "g12" = "g".
Proof. reflexivity. Qed.

Example base_handle_digits : base_handle "2020" = "2020".
Proof. reflexivity. Qed.

Example map_graph_handle_examples :
  let files := ["/data/graph.tsv"; "/data/works.tsv"] in
  map_graph_handle_to_file files ∅ "g12"
    = Ok ("/data/graph.tsv", {[ "g12" := "/data/graph.tsv" ]})
  ∧ map_graph_handle_to_file files {[ "g" := "/data/graph.tsv" ]} "w"
    = Ok ("/data/works.tsv",
          <[ "w" := "/data/works.tsv" ]> {[ "g" := "/data/graph.tsv" ]})
  ∧ map_graph_handle_to_file files {[ "g" := "/data/graph.tsv" ]}
      "/data/works.tsv"
    = Ok ("/data/works.tsv",
          <[ "/data/works.tsv" := "/data/works.tsv" ]>
            {[ "g" := "/data/graph.tsv" ]})
  ∧ map_graph_handle_to_file files {[ "g" := "/data/graph.tsv" ]} "graph"
    = Err (FailedToMapHandle "graph").
Proof. vm_compute. done. Qed.

(** Without absolute paths the single pass of the loop shows: a basename
    match that comes first wins over a later file that is the handle, which
    the rules prefer. *)
Remark relative_paths_single_pass :
  map_graph_handle_to_file ["ag"; "g"] ∅ "g" = Ok ("ag", {[ "g" := "ag" ]})
  ∧ HandleRules.resolves ["ag"; "g"] (mapped_files ∅) "g" (Some "g").
Proof.
  split; [by vm_compute|]. apply HandleRules.by_full_path.
  exists ["ag"], []. split_and!; [done| |done|].
  - unfold mapped_files. rewrite map_to_list_empty. apply not_elem_of_nil.
  - intros f Hf _ ->. by apply list_elem_of_singleton in Hf.
Qed.


End HandlesFacts.

(** ** The expression translator *)

Module KypherFacts.
Import Py PyFacts Kypher.

Lemma upper_app s t : upper (s +:+ t) = upper s +:+ upper t.
Proof.
  induction s as [|c s IH]; [done|]. rewrite append_cons. simpl.
  by rewrite IH, append_cons.
Qed.

Lemma upper_length s : String.length (upper s) = String.length s.
Proof. induction s as [|c s IH]; [done|]. simpl. by rewrite IH. Qed.

Lemma substring_all s : String.substring 0 (String.length s) s = s.
Proof. induction s as [|c s IH]; [done|]. simpl. by rewrite IH. Qed.

Lemma substring_0_app s t : String.substring 0 (String.length s) (s +:+ t) = s.
Proof.
  induction s as [|c s IH]; [by destruct t|]. rewrite append_cons. simpl.
  by rewrite IH.
Qed.

Lemma substring_skip_app s t :
  String.substring (String.length s) (String.length t) (s +:+ t) = t.
Proof.
  induction s as [|c s IH]; [by rewrite append_nil_l, substring_all|].
  by rewrite append_cons.
Qed.

Lemma endswith_app p s : endswith p (s +:+ p) = true.
Proof.
  unfold endswith. rewrite append_length.
  replace (String.length s + String.length p - String.length p)
    with (String.length s) by lia.
  rewrite substring_skip_app, String.eqb_refl, andb_true_r.
  apply Nat.leb_le. lia.
Qed.

Lemma drop_last_app s t : drop_last (String.length t) (s +:+ t) = s.
Proof.
  unfold drop_last. rewrite append_length.
  replace (String.length s + String.length t - String.length t)
    with (String.length s) by lia.
  apply substring_0_app.
Qed.

Lemma upper_quoted s : upper (quoted s) = quoted (upper s).
Proof. unfold quoted. simpl. by rewrite upper_app. Qed.

Lemma upper_app_inv s a b :
  upper s = a +:+ b →
  ∃ a' b', s = a' +:+ b' ∧ upper a' = a ∧ upper b' = b.
Proof.
  revert s. induction a as [|c a IH]; intros s.
  - rewrite append_nil_l. intros Hs. exists "", s.
    by rewrite append_nil_l.
  - destruct s as [|d s]; [by rewrite append_cons|].
    rewrite append_cons. simpl.
    intros [= Hd (a' & b' & -> & <- & <-)%IH].
    exists (String d a'), b'. rewrite append_cons. simpl. by rewrite Hd.
Qed.

Lemma substring_cut s n :
  n ≤ String.length s →
  s = String.substring 0 n s +:+ String.substring n (String.length s - n) s.
Proof.
  revert n. induction s as [|c s IH]; intros n Hn.
  - simpl in Hn. by replace n with 0 by lia.
  - destruct n as [|n].
    + simpl. by rewrite substring_all, append_nil_l.
    + simpl in *. rewrite append_cons. f_equal. apply IH. lia.
Qed.

Lemma endswith_inv p s : endswith p s = true → ∃ pre, s = pre +:+ p.
Proof.
  unfold endswith. intros [Hlen Heq]%andb_true_iff.
  apply Nat.leb_le in Hlen. apply String.eqb_eq in Heq.
  exists (String.substring 0 (String.length s - String.length p) s).
  pose proof (substring_cut s (String.length s - String.length p)) as Hcut.
  replace (String.length s - (String.length s - String.length p))
    with (String.length p) in Hcut by lia.
  rewrite Heq in Hcut. apply Hcut. lia.
Qed.

(** The characters that [upper] turns into those of the text [."ID"]. *)
Lemma upper_char_dot c : upper_char c = "."%char → c = "."%char.
Proof.
  destruct c as [[] [] [] [] [] [] [] []]; vm_compute; intros Hc;
    first [reflexivity|discriminate Hc].
Qed.

Lemma upper_char_dquote c : upper_char c = dquote → c = dquote.
Proof.
  destruct c as [[] [] [] [] [] [] [] []]; vm_compute; intros Hc;
    first [reflexivity|discriminate Hc].
Qed.

Lemma upper_char_I c :
  upper_char c = "I"%char → c = "i"%char ∨ c = "I"%char.
Proof.
  destruct c as [[] [] [] [] [] [] [] []]; vm_compute; intros Hc;
    first [by left|by right|discriminate Hc].
Qed.

Lemma upper_char_D c :
  upper_char c = "D"%char → c = "d"%char ∨ c = "D"%char.
Proof.
  destruct c as [[] [] [] [] [] [] [] []]; vm_compute; intros Hc;
    first [by left|by right|discriminate Hc].
Qed.

Section KypherFacts.

Context {L : Type} `{EqDecision L}.
Variable is_user_function : string → bool.
Variable parameters : gmap string L.

#[local] Abbreviation lookup_property :=
  (Kypher.lookup_property is_user_function).
#[local] Abbreviation lookup_chain := (Kypher.lookup_chain is_user_function).
#[local] Abbreviation expression_to_sql :=
  (Kypher.expression_to_sql (L:=L) is_user_function parameters).
#[local] Abbreviation limit_clauses_to_sql :=
  (Kypher.limit_clauses_to_sql (L:=L) is_user_function parameters).

Implicit Types (e : @expr L) (litmap : @Literals.litmap L).

(** A chain with an element that is no property lookup is left by [break]. *)
Lemma lookup_chain_other var arg2 :
  OtherLookup ∈ arg2 → lookup_chain var arg2 = None.
Proof.
  revert var. induction arg2 as [|[prop|] rest IH]; intros var Hin.
  - by apply elem_of_nil in Hin.
  - simpl. apply IH. by apply elem_of_cons in Hin as [|].
  - done.
Qed.

Lemma lookup_property_id var prop alias id :
  is_kgtk_operator prop && is_user_function prop = false →
  var = alias +:+ "." +:+ quoted id →
  upper id = "ID" →
  lookup_property var prop = alias +:+ "." +:+ quoted prop.
Proof.
  intros Hfun -> Hid. unfold Kypher.lookup_property. rewrite Hfun.
  assert (String.length id = 2) as Hlen.
  { by rewrite <-upper_length, Hid. }
  rewrite !upper_app, upper_quoted, Hid.
  change (upper "." +:+ quoted "ID") with dot_quoted_ID.
  rewrite endswith_app.
  replace (alias +:+ "." +:+ quoted id)
    with ((alias +:+ "." +:+ String dquote "") +:+ id +:+ String dquote "").
  - replace 3 with (String.length (id +:+ String dquote ""))
      by (rewrite append_length; simpl; lia).
    rewrite drop_last_app. by rewrite !append_assoc.
  - by rewrite !append_assoc.
Qed.

Lemma lookup_property_wide var prop body :
  is_kgtk_operator prop && is_user_function prop = false →
  endswith dot_quoted_ID (upper var) = false →
  var = body +:+ String dquote "" →
  lookup_property var prop = body +:+ ";" +:+ prop +:+ String dquote "".
Proof.
  intros Hfun Hid ->. unfold Kypher.lookup_property. rewrite Hfun, Hid.
  change 1 with (String.length (String dquote "")).
  by rewrite drop_last_app.
Qed.

(** The loop over a chain of property lookups is a fold of its rounds. *)
Lemma lookup_chain_fold var props :
  lookup_chain var (PropertyLookup <$> props)
  = Some (fold_left lookup_property props var).
Proof.
  revert var. induction props as [|prop props IH]; intros var; [done|].
  simpl. apply IH.
Qed.

Lemma expression2_chain query_var arg2 litmap varmap :
  expression_to_sql (Expression2 (Var query_var) arg2) litmap varmap
  = '(var, litmap) ← expression_to_sql (Var query_var) litmap varmap;
    match lookup_chain var arg2 with
    | Some var => Ok (var, litmap)
    | None => Err UnhandledPropertyLookup
    end.
Proof. reflexivity. Qed.

(** The text of a variable other than [*] ends in a double quote. *)
Lemma variable_ends_in_quote query_var litmap varmap E litmap' :
  query_var ≠ "*" →
  expression_to_sql (Var query_var) litmap varmap = Ok (E, litmap') →
  ∃ body, E = body +:+ String dquote "".
Proof.
  intros Hstar. simpl. destruct varmap as [vm|]; [|done].
  rewrite decide_False by done.
  destruct (vm !! query_var) as [[|[graph col] ?]|]; try done.
  intros [= <- _]. unfold sql_quote_ident, quoted.
  eexists (graph +:+ "." +:+ String dquote _).
  by rewrite !append_assoc, append_cons.
Qed.

(** *** The case tests of the loop, in the words of the design document *)

Lemma is_kgtk_operator_iff prop :
  is_kgtk_operator prop = true ↔ starts_ignoring_case "KGTK_" prop.
Proof.
  unfold is_kgtk_operator, startswith, starts_ignoring_case.
  rewrite prefix_iff. split.
  - intros [x (head & rest & -> & Hhead & _)%upper_app_inv].
    by exists head, rest.
  - intros (head & rest & -> & Hhead). exists (upper rest).
    by rewrite upper_app, Hhead.
Qed.

Lemma id_spellings_upper id : id ∈ id_spellings → upper id = "ID".
Proof.
  unfold id_spellings. intros Hid.
  repeat (apply elem_of_cons in Hid as [->|Hid]; [done|]).
  by apply elem_of_nil in Hid.
Qed.

Lemma ends_in_dot_id_iff E :
  endswith dot_quoted_ID (upper E) = true ↔ ends_in_dot_id E.
Proof.
  split.
  - intros [pre (alias & tail & -> & _ & Htail)%upper_app_inv]%endswith_inv.
    exists alias.
    destruct tail as [|c1 [|c2 [|c3 [|c4 [|c5 [|]]]]]]; try done.
    injection Htail as ->%upper_char_dot ->%upper_char_dquote
      Hi%upper_char_I Hd%upper_char_D ->%upper_char_dquote.
    exists (String c3 (String c4 "")). split; [done|].
    unfold id_spellings.
    destruct Hi as [-> | ->], Hd as [-> | ->];
      repeat first [by left | right].
  - intros (alias & id & -> & Hid%id_spellings_upper).
    rewrite !upper_app, upper_quoted, Hid.
    change (upper "." +:+ quoted "ID") with dot_quoted_ID.
    apply endswith_app.
Qed.

Lemma not_kgtk_function prop :
  ¬ (is_user_function prop = true ∧ starts_ignoring_case "KGTK_" prop) →
  is_kgtk_operator prop && is_user_function prop = false.
Proof.
  intros Hnot. apply not_true_is_false.
  intros [Hk%is_kgtk_operator_iff Hu]%andb_true_iff. by apply Hnot.
Qed.

(** C6: the translation of a property lookup folds over the properties,
    from the text of the variable, and returns the text that the fold
    ends with; when the variable cannot be translated, its error is
    raised.  The text of a variable other than [*] ends in a double quote.
    For ASCII texts a round of the fold is: a property that is a registered
    user function with a name that starts with KGTK_, in any case of
    letters, wraps the current text; otherwise a text that ends in
    [."id"], in any case of letters, gets the property in place of [id];
    otherwise a text that ends in a double quote gets a semicolon and the
    property before that double quote.  A chain element that is no
    property lookup makes the translation fail. *)
Theorem property_lookup_fold (query_var : string) (props : list string)
    litmap varmap :
  expression_to_sql (Expression2 (Var query_var) (PropertyLookup <$> props))
                    litmap varmap
  = ('(E, litmap') ← expression_to_sql (Var query_var) litmap varmap;
     Ok (fold_left lookup_property props E, litmap'))
  ∧ (∀ E litmap',
       query_var ≠ "*" →
       expression_to_sql (Var query_var) litmap varmap = Ok (E, litmap') →
       ∃ body, E = body +:+ String dquote "")
  ∧ (∀ E prop,
       isascii prop = true →
       is_user_function prop = true → starts_ignoring_case "KGTK_" prop →
       lookup_property E prop = prop +:+ "(" +:+ E +:+ ")")
  ∧ (∀ E prop,
       isascii E = true → isascii prop = true →
       ¬ (is_user_function prop = true ∧ starts_ignoring_case "KGTK_" prop) →
       (∀ alias id,
          E = alias +:+ "." +:+ quoted id → id ∈ id_spellings →
          lookup_property E prop = alias +:+ "." +:+ quoted prop)
       ∧ (¬ ends_in_dot_id E →
          ∀ body, E = body +:+ String dquote "" →
            lookup_property E prop
            = body +:+ ";" +:+ prop +:+ String dquote ""))
  ∧ (∀ (arg1 : @expr L) arg2,
       OtherLookup ∈ arg2 →
       is_Err (expression_to_sql (Expression2 arg1 arg2) litmap varmap)).
Proof.
  split_and!.
  - rewrite expression2_chain.
    destruct (expression_to_sql (Var query_var) litmap varmap)
      as [[E litmap']|e]; [|done].
    simpl. by rewrite lookup_chain_fold.
  - intros E litmap' Hstar. by apply variable_ends_in_quote.
  - intros E prop _ Hu Hk%is_kgtk_operator_iff.
    unfold Kypher.lookup_property. by rewrite Hk, Hu.
  - intros E prop _ _ Hfun%not_kgtk_function. split.
    + intros alias id HE Hid%id_spellings_upper.
      by apply (lookup_property_id _ _ alias id).
    + intros Hid body HE. apply lookup_property_wide; [done| |done].
      apply not_true_is_false. by intros ?%ends_in_dot_id_iff.
  - intros arg1 arg2 Hin.
    destruct arg1 as [?|?|v|?|?|? ? ?|? ?|?|? ?| |? ? ?|? ?|? ? ?|];
      try done.
    rewrite expression2_chain.
    destruct (expression_to_sql (Var v) litmap varmap) as [[E litmap']|e];
      [|done].
    simpl. by rewrite lookup_chain_other.
Qed.

(** Induction on expressions, with the hypothesis for every element of a
    list of expressions. *)
Lemma expr_nested_ind (P : @expr L → Prop) :
  (∀ value, P (Literal value)) →
  (∀ param, P (Param param)) →
  (∀ query_var, P (Var query_var)) →
  (∀ elements, Forall P elements → P (List elements)) →
  (∀ arg, P arg → P (Minus arg)) →
  (∀ op arg1 arg2, P arg1 → P arg2 → P (Binary op arg1 arg2)) →
  (∀ arg1 arg2, P arg1 → P arg2 → P (Hat arg1 arg2)) →
  (∀ arg, P arg → P (Not arg)) →
  (∀ arg1 arg2, P arg1 → P arg2 → P (Xor arg1 arg2)) →
  P Case →
  (∀ function args distinct, Forall P args → P (Call function args distinct)) →
  (∀ arg1 arg2, P arg1 → P (Expression2 arg1 arg2)) →
  (∀ operator arg1 arg2, P arg1 → P arg2 → P (Expression3 operator arg1 arg2)) →
  P Unhandled →
  ∀ e, P e.
Proof.
  intros HLit HPar HVar HList HMinus HBin HHat HNot HXor HCase HCall HE2 HE3
    HUn.
  fix IH 1.
  intros [value|param|query_var|elements|arg|op arg1 arg2|arg1 arg2|arg
         |arg1 arg2| |function args distinct|arg1 arg2|operator arg1 arg2|].
  - apply HLit.
  - apply HPar.
  - apply HVar.
  - apply HList. revert elements.
    fix IHes 1. intros [|x es]; constructor; [apply IH|apply IHes].
  - apply HMinus, IH.
  - apply HBin; apply IH.
  - apply HHat; apply IH.
  - apply HNot, IH.
  - apply HXor; apply IH.
  - apply HCase.
  - apply HCall. revert args.
    fix IHes 1. intros [|x es]; constructor; [apply IH|apply IHes].
  - apply HE2, IH.
  - apply HE3; apply IH.
  - apply HUn.
Qed.

Lemma bind_raises {A B} (r : result A) (f : A → result B) :
  is_Err r → is_Err (r ≫= f).
Proof. by destruct r. Qed.

Lemma bind_then_raises {A B} (r : result A) (f : A → result B) :
  (∀ a, is_Err (f a)) → is_Err (r ≫= f).
Proof. intros Hf. destruct r; [apply Hf|done]. Qed.

Lemma translate_each_raises {A}
    (f : A → @Literals.litmap L → result (string * @Literals.litmap L))
    (xs : list A) (x : A) :
  x ∈ xs → (∀ litmap, is_Err (f x litmap)) →
  ∀ litmap, is_Err (translate_each f xs litmap).
Proof.
  intros Hin Hx. induction xs as [|y xs IH]; intros litmap.
  - by apply elem_of_nil in Hin.
  - simpl. apply elem_of_cons in Hin as [<-|Hin].
    + by apply bind_raises.
    + apply bind_then_raises. intros [s litmap'].
      apply bind_raises. by apply IH.
Qed.

Lemma existsb_elem {A} (p : A → bool) (xs : list A) :
  existsb p xs = true → ∃ x, x ∈ xs ∧ p x = true.
Proof.
  intros (x & Hin & Hp)%existsb_exists. exists x.
  split; [by apply list_elem_of_In|done].
Qed.

Lemma each_mention_raises (xs : list (@expr L)) :
  Forall (λ e, ∀ litmap, mentions_variable e = true →
                         is_Err (expression_to_sql e litmap None)) xs →
  existsb mentions_variable xs = true →
  ∀ litmap,
    is_Err (translate_each (λ e litmap, expression_to_sql e litmap None)
                           xs litmap).
Proof.
  intros Hall (x & Hin & Hx)%existsb_elem.
  apply (translate_each_raises _ xs x Hin).
  intros litmap. by eapply (proj1 (Forall_forall _ _) Hall).
Qed.

(** With the variable map forced absent, an expression that mentions a
    variable is not translated. *)
Lemma mentions_variable_raises e :
  ∀ litmap, mentions_variable e = true →
            is_Err (expression_to_sql e litmap None).
Proof.
  induction e as [?|?|?|elements IH|arg IH|op arg1 arg2 IH1 IH2|? ? ? ?
                 |arg IH|? ? ? ?| |function args distinct IH|arg1 arg2 IH
                 |operator arg1 arg2 IH1 IH2|] using expr_nested_ind;
    intros litmap Hm; try done.
  - simpl. apply bind_raises. by apply each_mention_raises.
  - simpl. apply bind_raises. by apply IH.
  - simpl in *. apply orb_true_iff in Hm as [Hm|Hm].
    + apply bind_raises. by apply IH1.
    + apply bind_then_raises. intros [s litmap'].
      apply bind_raises. by apply IH2.
  - simpl. apply bind_raises. by apply IH.
  - simpl in *. case_decide.
    + destruct args as [|arg0 [|[] [|]]]; try done.
      apply bind_raises. apply Forall_cons in IH as [IH _]. by apply IH.
    + apply bind_raises. by apply each_mention_raises.
  - simpl in Hm.
    destruct arg1 as [?|?|query_var|?|?|? ? ?|? ?|?|? ?| |? ? ?|? ?|? ? ?|];
      done.
  - simpl in *. apply orb_true_iff in Hm as [Hm|Hm].
    + apply bind_raises. by apply IH1.
    + apply bind_then_raises. intros [s litmap'].
      apply bind_raises. by apply IH2.
Qed.

Lemma translate_each_literals (values : list L) (v : string)
    (rest : list (@expr L)) litmap :
  translate_each (λ e litmap, expression_to_sql e litmap None)
                 ((Literal <$> values) ++ Var v :: rest) litmap
  = Err (IllegalContext v).
Proof.
  revert litmap. induction values as [|value values IH]; intros litmap;
    [done|].
  simpl. destruct (Literals.get_literal_parameter value litmap) as [s litmap'].
  simpl. by rewrite IH.
Qed.

(** C9: a variable translated where variables are forbidden.  With the
    variable map absent, the translation of a variable raises the
    illegal-context error, and no expression that mentions a variable is
    translated to a text.  The elements of a list are translated without
    the variable map, whatever the map of the list is: a list with a
    variable among its elements is not translated, and the error is the
    illegal-context one when only literals come before the variable.  The
    same holds for the expressions of LIMIT and SKIP. *)
Theorem variable_in_forbidden_position (v : string) (e : @expr L)
    (elements : list (@expr L)) (skip_clause limit_clause : option (@expr L))
    litmap varmap :
  expression_to_sql (Var v) litmap None = Err (IllegalContext v)
  ∧ (mentions_variable e = true → is_Err (expression_to_sql e litmap None))
  ∧ (e ∈ elements → mentions_variable e = true →
     is_Err (expression_to_sql (List elements) litmap varmap))
  ∧ (∀ values rest,
       expression_to_sql (List ((Literal <$> values) ++ Var v :: rest))
                         litmap varmap
       = Err (IllegalContext v))
  ∧ (limit_clause = Some e → mentions_variable e = true →
     is_Err (limit_clauses_to_sql skip_clause limit_clause litmap varmap))
  ∧ (skip_clause = Some e → mentions_variable e = true →
     is_Err (limit_clauses_to_sql skip_clause limit_clause litmap varmap))
  ∧ limit_clauses_to_sql skip_clause (Some (Var v)) litmap varmap
    = Err (IllegalContext v)
  ∧ limit_clauses_to_sql (Some (Var v)) None litmap varmap
    = Err (IllegalContext v).
Proof.
  split_and!.
  - done.
  - apply mentions_variable_raises.
  - intros Hin Hm. simpl. apply bind_raises.
    apply (translate_each_raises _ elements e Hin).
    intros litmap'. by apply mentions_variable_raises.
  - intros values rest. simpl. by rewrite translate_each_literals.
  - intros -> Hm. unfold Kypher.limit_clauses_to_sql.
    assert (is_Err (expression_to_sql e litmap None)) as Herr
      by by apply mentions_variable_raises.
    destruct skip_clause; simpl;
      by destruct (Kypher.expression_to_sql _ _ e litmap None).
  - intros -> Hm. unfold Kypher.limit_clauses_to_sql.
    destruct limit_clause as [limit|]; simpl.
    + destruct (Kypher.expression_to_sql _ _ limit litmap None)
        as [[s litmap']|]; [|done]. simpl.
      pose proof (mentions_variable_raises e litmap' Hm) as Herr.
      by destruct (Kypher.expression_to_sql _ _ e litmap' None).
    + pose proof (mentions_variable_raises e litmap Hm) as Herr.
      by destruct (Kypher.expression_to_sql _ _ e litmap None).
  - by destruct skip_clause.
  - done.
Qed.

End KypherFacts.

(** The store of the examples knows one user function, [kgtk_year]. *)
Example expression_to_sql_examples :
  let user (f : string) := bool_decide (f = "kgtk_year") in
  let varmap : gmap string (list Bindings.colref) :=
    {[ "a" := [("g_c1", "node1")]; "r" := [("g_c2", "id")] ]} in
  let to_sql e := Kypher.expression_to_sql (L:=string) user ∅ e [] (Some varmap) in
  to_sql (Var "a") = Ok ("g_c1." +:+ quoted "node1", [])
  ∧ to_sql (Expression2 (Var "r") [PropertyLookup "label"])
    = Ok ("g_c2." +:+ quoted "label", [])
  ∧ to_sql (Expression2 (Var "a") [PropertyLookup "name"])
    = Ok ("g_c1." +:+ quoted "node1;name", [])
  ∧ to_sql (Expression2 (Var "a") [PropertyLookup "kgtk_year"])
    = Ok ("kgtk_year(g_c1." +:+ quoted "node1" +:+ ")", [])
  ∧ to_sql (Binary Eq (Var "a") (Literal "Joe"))
    = Ok ("(g_c1." +:+ quoted "node1" +:+ " = ???0??)", [("Joe", "???0??")])
  ∧ to_sql (Expression3 "in" (Var "a") (List [Literal "x"; Literal "y"]))
    = Ok ("(g_c1." +:+ quoted "node1" +:+ " IN (???0??, ???1??))",
          [("x", "???0??"); ("y", "???1??")])
  ∧ to_sql (List [Literal "x"; Var "a"]) = Err (IllegalContext "a")
  ∧ to_sql (Expression2 (Var "a") [PropertyLookup "name"; OtherLookup])
    = Err UnhandledPropertyLookup.
Proof. vm_compute. done. Qed.

Example limit_clauses_to_sql_examples :
  let limit skip_clause limit_clause :=
    Kypher.limit_clauses_to_sql (L:=string) (λ _, false) ∅
      skip_clause limit_clause [] (Some ∅) in
  limit None (Some (Literal "3")) = Ok (Some "LIMIT ???0??", [("3", "???0??")])
  ∧ limit (Some (Literal "2")) None
    = Ok (Some "LIMIT -1 OFFSET ???0??", [("2", "???0??")])
  ∧ limit None None = Ok (None, [])
  ∧ limit None (Some (Var "n")) = Err (IllegalContext "n").
Proof. vm_compute. done. Qed.

(** The translation of [r.kgtk_year.name]: after the function the text
    ends in a parenthesis, which the next round drops; no trailing double
    quote is replaced, and the text returned is no column reference. *)
Lemma property_lookup_after_function :
  let user (f : string) := bool_decide (f = "kgtk_year") in
  let varmap : gmap string (list Bindings.colref) :=
    {[ "r" := [("g_c2", "id")] ]} in
  let to_sql e :=
    Kypher.expression_to_sql (L:=string) user ∅ e [] (Some varmap) in
  let E := "kgtk_year(g_c2." +:+ quoted "id" +:+ ")" in
  to_sql (Expression2 (Var "r") [PropertyLookup "kgtk_year"]) = Ok (E, [])
  ∧ to_sql (Expression2 (Var "r")
              [PropertyLookup "kgtk_year"; PropertyLookup "name"])
    = Ok (Kypher.lookup_property user E "name", [])
  ∧ Kypher.lookup_property user E "name"
    = "kgtk_year(g_c2." +:+ quoted "id" +:+ ";name" +:+ String dquote ""
  ∧ ¬ (user "name" = true ∧ starts_ignoring_case "KGTK_" "name")
  ∧ ¬ ends_in_dot_id E
  ∧ ¬ replaces_trailing_quote E "name" (Kypher.lookup_property user E "name").
Proof.
  intros user varmap to_sql E. split_and!.
  - reflexivity.
  - reflexivity.
  - reflexivity.
  - by intros [Huser _].
  - by intros ?%ends_in_dot_id_iff.
  - intros (body & Hbody & _).
    pose proof (endswith_app (String dquote "") body) as Hends.
    by rewrite <-Hbody in Hends.
Qed.

Lemma property_lookup_fold_witness :
  let user (f : string) := bool_decide (f = "kgtk_year") in
  let varmap : gmap string (list Bindings.colref) :=
    {[ "a" := [("g_c1", "node1")]; "r" := [("g_c2", "Id")] ]} in
  let to_sql e :=
    Kypher.expression_to_sql (L:=string) user ∅ e [] (Some varmap) in
  to_sql (Expression2 (Var "a")
            [PropertyLookup "name"; PropertyLookup "kgtk_year"])
    = Ok ("kgtk_year(g_c1." +:+ quoted "node1;name" +:+ ")", [])
  ∧ (∃ body, "g_c1." +:+ quoted "node1" = body +:+ String dquote "")
  ∧ Kypher.lookup_property user ("g_c1." +:+ quoted "node1") "kgtk_year"
    = "kgtk_year" +:+ "(" +:+ ("g_c1." +:+ quoted "node1") +:+ ")"
  ∧ Kypher.lookup_property user ("g_c2" +:+ "." +:+ quoted "Id") "label"
    = "g_c2" +:+ "." +:+ quoted "label"
  ∧ Kypher.lookup_property user ("g_c1." +:+ quoted "node1") "name"
    = "g_c1." +:+ String dquote "node1" +:+ ";" +:+ "name" +:+ String dquote ""
  ∧ is_Err (to_sql (Expression2 (Var "a") [PropertyLookup "name"; OtherLookup])).
Proof.
  intros user varmap to_sql.
  destruct (property_lookup_fold (L:=string) user ∅ "a"
              ["name"; "kgtk_year"] [] (Some varmap))
    as (Hfold & Hquote & Hfun & Hcolumn & Hfail).
  assert (¬ (user "name" = true ∧ starts_ignoring_case "KGTK_" "name"))
    as Hname by (by intros [Huser _]).
  assert (¬ (user "label" = true ∧ starts_ignoring_case "KGTK_" "label"))
    as Hlabel by (by intros [Huser _]).
  split_and!.
  - exact Hfold.
  - apply (Hquote _ []); [discriminate|reflexivity].
  - apply Hfun; [reflexivity..|]. by exists "kgtk_", "year".
  - destruct (Hcolumn ("g_c2" +:+ "." +:+ quoted "Id") "label"
                eq_refl eq_refl Hlabel) as [Hid _].
    apply (Hid "g_c2" "Id"); [reflexivity|]. right. left.
  - destruct (Hcolumn ("g_c1." +:+ quoted "node1") "name"
                eq_refl eq_refl Hname) as [_ Hwide].
    apply (Hwide ltac:(by intros ?%ends_in_dot_id_iff)
                 ("g_c1." +:+ String dquote "node1")).
    reflexivity.
  - apply (Hfail (Var "a")). right. left.
Defined.

Lemma variable_in_forbidden_position_witness :
  let e : @expr string := Binary Add (Literal "1") (Var "n") in
  let to_sql e varmap :=
    Kypher.expression_to_sql (L:=string) (λ _, false) ∅ e [] varmap in
  let limit skip_clause limit_clause :=
    Kypher.limit_clauses_to_sql (L:=string) (λ _, false) ∅
      skip_clause limit_clause [] (Some ∅) in
  is_Err (to_sql e None)
  ∧ is_Err (to_sql (List [Literal "a"; e]) (Some ∅))
  ∧ is_Err (limit None (Some e))
  ∧ is_Err (limit (Some e) (Some (Literal "3"))).
Proof.
  intros e to_sql limit.
  destruct (variable_in_forbidden_position (L:=string) (λ _, false) ∅
              "n" e [Literal "a"; e] None (Some e) [] (Some ∅))
    as (_ & Hexpr & Hlist & _ & Hlimit & _ & _ & _).
  destruct (variable_in_forbidden_position (L:=string) (λ _, false) ∅
              "n" e [] (Some e) (Some (Literal "3")) [] (Some ∅))
    as (_ & _ & _ & _ & _ & Hskip & _ & _).
  split_and!.
  - apply Hexpr. reflexivity.
  - apply Hlist; [right; left|reflexivity].
  - apply Hlimit; reflexivity.
  - apply Hskip; reflexivity.
Defined.

End KypherFacts.

(** ** Return-clause synthesis *)

Module ReturnFacts.
Import Py PyFacts Kypher.

Section Indexes.

Context {A : Type}.
Implicit Types (P Q : A → bool) (l : list A) (i j : Z).

Lemma first_index_bounds P i l j :
  first_index P i l = Some j → (i ≤ j < i + Z.of_nat (length l))%Z.
Proof.
  revert i. induction l as [|x l IH]; intros i; [done|]. simpl.
  destruct (P x); [intros [= <-]; lia|]. intros Hj%IH. lia.
Qed.

Lemma last_index_bounds P i l j :
  last_index P i l = Some j → (i ≤ j < i + Z.of_nat (length l))%Z.
Proof.
  revert i. induction l as [|x l IH]; intros i; [done|]. simpl.
  destruct (last_index P (i + 1) l) as [k|] eqn:Hk.
  - intros [= <-]. apply IH in Hk. lia.
  - destruct (P x); [intros [= <-]; lia|done].
Qed.

Lemma first_index_ext P Q i l :
  Forall (λ x, P x = Q x) l → first_index P i l = first_index Q i l.
Proof.
  intros Hall. revert i. induction Hall as [|x l Hx _ IH]; intros i; [done|].
  simpl. by rewrite Hx, IH.
Qed.

Lemma last_index_ext P Q i l :
  Forall (λ x, P x = Q x) l → last_index P i l = last_index Q i l.
Proof.
  intros Hall. revert i. induction Hall as [|x l Hx _ IH]; intros i; [done|].
  simpl. by rewrite Hx, IH.
Qed.

Lemma first_index_fmap {B} (f : B → A) P i (l : list B) :
  first_index P i (f <$> l) = first_index (λ x, P (f x)) i l.
Proof.
  revert i. induction l as [|x l IH]; intros i; [done|]. simpl.
  by rewrite IH.
Qed.

Lemma last_index_fmap {B} (f : B → A) P i (l : list B) :
  last_index P i (f <$> l) = last_index (λ x, P (f x)) i l.
Proof.
  revert i. induction l as [|x l IH]; intros i; [done|]. simpl.
  by rewrite IH.
Qed.

End Indexes.

(** The loop over [agg_info] finds the first entry that is not [None] and
    the last entry that is [None]. *)
Lemma first_reg_last_agg_indexes col (agg_info : list (option string))
    first_reg last_agg :
  first_reg_last_agg col agg_info first_reg last_agg
  = (match first_index (λ aggi, bool_decide (is_Some aggi)) col agg_info with
     | Some i => Z.min i first_reg
     | None => first_reg
     end,
     match last_index (λ aggi, bool_decide (aggi = None)) col agg_info with
     | Some j => Z.max j last_agg
     | None => last_agg
     end).
Proof.
  revert col first_reg last_agg.
  induction agg_info as [|[key|] rest IH]; intros col first_reg last_agg;
    [done|..]; simpl; rewrite IH.
  - f_equal.
    + destruct (first_index _ (col + 1) rest) as [i|] eqn:Hi; [|done].
      apply first_index_bounds in Hi. lia.
    + by destruct (last_index _ (col + 1) rest).
  - f_equal.
    destruct (last_index _ (col + 1) rest) as [j|] eqn:Hj; [|done].
    apply last_index_bounds in Hj. lia.
Qed.

Section ReturnFacts.

Context {L : Type} `{EqDecision L}.
Variable is_user_function : string → bool.
Variable parameters : gmap string L.
Variable has_aggregate_call : @expr L → bool.

#[local] Abbreviation expression_to_sql :=
  (Kypher.expression_to_sql (L:=L) is_user_function parameters).
#[local] Abbreviation return_items_to_sql :=
  (Kypher.return_items_to_sql (L:=L) is_user_function parameters
     has_aggregate_call).
#[local] Abbreviation return_clause_to_sql_selection :=
  (Kypher.return_clause_to_sql_selection (L:=L) is_user_function parameters
     has_aggregate_call).
#[local] Abbreviation is_aggregate_item :=
  (Kypher.is_aggregate_item (L:=L) has_aggregate_call).

(** A return item with the text of its expression. *)
#[local] Abbreviation column := (@return_item L * string)%type.

(** The entry of [agg_info] for a column. *)
#[local] Abbreviation entry := (λ c : column,
  and_or_None (negb (is_aggregate_item c.1)) (group_key c.1 c.2)).

(** The expression text of the column is a translation of its item. *)
#[local] Abbreviation translated := (λ varmap (c : column),
  ∃ litmap1 litmap2,
    expression_to_sql (expression c.1) litmap1 varmap = Ok (c.2, litmap2)).

Lemma return_items_agg_info items sel is_first agg_info litmap varmap
    sel' agg_info' litmap' :
  return_items_to_sql items sel is_first agg_info litmap varmap
    = Ok (sel', agg_info', litmap') →
  ∃ cols : list column,
    cols.*1 = items
    ∧ Forall (translated varmap) cols
    ∧ agg_info' = agg_info ++ (entry <$> cols).
Proof.
  revert sel is_first agg_info litmap.
  induction items as [|item items IH]; intros sel is_first agg_info litmap.
  - intros [= _ <- _]. exists []. by rewrite app_nil_r.
  - simpl.
    destruct (Kypher.expression_to_sql _ _ (expression item) litmap varmap)
      as [[expr litmap1]|] eqn:Hexpr; [|done]. simpl.
    intros Hrest.
    assert (∃ sel1,
      return_items_to_sql items sel1 false
        (agg_info ++ [entry (item, expr)]) litmap1 varmap
      = Ok (sel', agg_info', litmap')) as [sel1 Hloop].
    { unfold group_key. simpl. destruct (name item); eauto. }
    apply IH in Hloop as (cols & Hitems & Htrans & ->).
    exists ((item, expr) :: cols). split_and!.
    + by rewrite fmap_cons, Hitems.
    + constructor; [by exists litmap, litmap1|done].
    + by rewrite <-app_assoc.
Qed.

Lemma entry_is_Some (c : column) :
  group_key c.1 c.2 ≠ "" →
  bool_decide (is_Some (entry c)) = negb (is_aggregate_item c.1)
  ∧ bool_decide (entry c = None) = is_aggregate_item c.1.
Proof.
  intros Hkey. unfold and_or_None.
  destruct (is_aggregate_item c.1); simpl; [done|].
  by rewrite decide_False.
Qed.

Lemma omap_id_cons {A} (x : option A) (l : list (option A)) :
  omap id (x :: l)
  = match x with Some y => y :: omap id l | None => omap id l end.
Proof. by destruct x. Qed.

Lemma group_keys_entries (cols : list column) :
  Forall (λ c, group_key c.1 c.2 ≠ "") cols →
  omap id (entry <$> cols)
  = (λ c, group_key c.1 c.2)
      <$> filter (λ c, is_aggregate_item c.1 = false) cols.
Proof.
  induction 1 as [|c cols Hc _ IH]; [done|].
  rewrite fmap_cons, omap_id_cons, IH. unfold and_or_None.
  destruct (is_aggregate_item c.1) eqn:Hagg; simpl.
  - rewrite filter_cons_False; [done|]. by rewrite Hagg.
  - rewrite decide_False by done.
    rewrite filter_cons_True by done. by rewrite fmap_cons.
Qed.


End ReturnFacts.

Example return_clause_examples :
  let varmap : gmap string (list Bindings.colref) :=
    {[ "a" := [("g_c1", "node1")]; "b" := [("g_c1", "node2")] ]} in
  let selection items :=
    Kypher.return_clause_to_sql_selection (L:=string) (λ _, false) ∅
      calls_count (Return false items) [] (Some varmap) in
  let a := "g_c1." +:+ quoted "node1" in
  let count_b := "count(g_c1." +:+ quoted "node2" +:+ ")" in
  selection [ReturnItem (Var "a") None;
             ReturnItem (Call "count" [Var "b"] false) (Some "n")]
    = Ok (a +:+ ", " +:+ count_b +:+ " " +:+ quoted "n",
          Some ("GROUP BY " +:+ a), [])
  ∧ selection [ReturnItem (Call "count" [Var "b"] false) None;
               ReturnItem (Var "a") None]
    = Ok (count_b +:+ ", " +:+ a, None, [])
  ∧ selection [ReturnItem (Var "a") (Some "x"); ReturnItem (Var "b") None;
               ReturnItem (Call "count" [Var "b"] false) None;
               ReturnItem (Var "b") (Some "y")]
    = Ok (a +:+ " " +:+ quoted "x" +:+ ", g_c1." +:+ quoted "node2" +:+ ", "
            +:+ count_b +:+ ", g_c1." +:+ quoted "node2" +:+ " " +:+ quoted "y",
          Some ("GROUP BY x, g_c1." +:+ quoted "node2"), [])
  ∧ selection [ReturnItem (Var "a") None; ReturnItem (Var "b") None]
    = Ok (a +:+ ", g_c1." +:+ quoted "node2", None, []).
Proof. vm_compute. done. Qed.


End ReturnFacts.

(** ** The edge reader *)

Module EdgeReaderFacts.
Import EdgeReader.

Implicit Types (values : list string).

(** The loop stops, with the missing fields filled in. *)
Lemma fill_missing_replicate fuel column_count (values : list string) :
  (column_count - Z.of_nat (length values) ≤ Z.of_nat fuel)%Z →
  fill_missing fuel column_count values
  = values ++ replicate (Z.to_nat (column_count - Z.of_nat (length values))) "".
Proof.
  revert values. induction fuel as [|fuel IH]; intros values Hfuel; simpl.
  - replace (Z.to_nat _) with 0 by lia. by rewrite app_nil_r.
  - destruct (Z.ltb_spec (Z.of_nat (length values)) column_count) as [Hlt|Hge].
    + rewrite IH by (rewrite length_app; simpl; lia).
      rewrite length_app. simpl.
      replace (Z.to_nat (column_count - Z.of_nat (length values)))
        with (S (Z.to_nat (column_count - Z.of_nat (length values + 1))))
        by lia.
      simpl. by rewrite <-app_assoc.
    + replace (Z.to_nat _) with 0 by lia. by rewrite app_nil_r.
Qed.

(** C10: with [fill_missing_columns] and [prohibit_extra_columns] set, a
    record that [__next__] returns has exactly [column_count] fields: the
    fields of the line, which are not more than [column_count], followed by
    empty strings up to that number.  A line with more fields raises. *)
Theorem next_returns_column_count (self : reader) (inp inp' : input)
    (values : list string) :
  fill_missing_columns self = true →
  prohibit_extra_columns self = true →
  (next self inp = (Returned values, inp') →
   Z.of_nat (length values) = column_count self
   ∧ ∃ line rest,
       let fields := Py.split (column_separator self) line in
       pending inp = line :: rest
       ∧ (Z.of_nat (length fields) ≤ column_count self)%Z
       ∧ values = fields ++ replicate
                    (Z.to_nat (column_count self - Z.of_nat (length fields))) ""
       ∧ inp' = Input rest (closed inp) (line_count inp + 1))
  ∧ (∀ line rest,
       pending inp = line :: rest →
       column_separator self ≠ "" →
       (column_count self
        < Z.of_nat (length (Py.split (column_separator self) line)))%Z →
       ∃ required number saw extra,
         (next self inp).1 = ExtraColumns required number saw extra).
Proof.
  intros Hfill Hextra. unfold next. rewrite Hfill, Hextra. split.
  - destruct (pending inp) as [|line rest] eqn:Hpending; [done|].
    case_decide; [done|]. simpl.
    set (fields := Py.split (column_separator self) line).
    destruct (Z.ltb_spec (Z.of_nat (length fields)) (column_count self))
      as [Hlt|Hge].
    + rewrite andb_true_r. destruct (require_all_columns self); [done|].
      simpl. destruct (Z.gtb_spec (Z.of_nat (length fields)) (column_count self));
        [lia|].
      intros [= <- <-]. rewrite fill_missing_replicate by lia. split.
      * rewrite length_app, length_replicate. lia.
      * exists line, rest. cbv zeta. fold fields.
        split_and!; [done|lia|done|done].
    + rewrite andb_false_r.
      destruct (Z.gtb_spec (Z.of_nat (length fields)) (column_count self));
        [done|].
      intros [= <- <-]. split; [lia|].
      exists line, rest. cbv zeta. fold fields.
      split_and!; [done|lia| |done].
      replace (Z.to_nat _) with 0 by lia. by rewrite app_nil_r.
  - intros line rest -> Hsep Hlen. rewrite decide_False by done. simpl.
    destruct (Z.ltb_spec (Z.of_nat (length (Py.split (column_separator self) line)))
                         (column_count self)); [lia|].
    rewrite andb_false_r.
    destruct (Z.gtb_spec (Z.of_nat (length (Py.split (column_separator self) line)))
                         (column_count self)); [|lia].
    simpl. eauto.
Qed.

Example next_examples :
  let self := Reader tab 4 false true true in
  let strict := Reader tab 4 true true false in
  let line := "Joe" +:+ tab +:+ "loves" +:+ tab +:+ "Joe" in
  next self (Input [line] false 1)
    = (Returned ["Joe"; "loves"; "Joe"; ""], Input [] false 2)
  ∧ next strict (Input [line] false 1)
    = (MissingColumns 4 1 3, Input [] false 1)
  ∧ next self (Input [line +:+ tab +:+ "e14" +:+ tab +:+ "x"] false 7)
    = (ExtraColumns 4 7 5 1, Input [] false 7)
  ∧ next self (Input [] false 3) = (StopIteration, Input [] true 3).
Proof. vm_compute. done. Qed.

Lemma next_returns_column_count_witness :
  let self := Reader tab 4 false true true in
  let line := "Joe" +:+ tab +:+ "loves" +:+ tab +:+ "Joe" in
  let values := ["Joe"; "loves"; "Joe"; ""] in
  next self (Input [line] false 1) = (Returned values, Input [] false 2)
  ∧ Z.of_nat (length values) = column_count self.
Proof.
  intros self line values.
  destruct (next_returns_column_count self (Input [line] false 1)
              (Input [] false 2) values eq_refl eq_refl) as [Hreturned _].
  split; [reflexivity|]. apply Hreturned. reflexivity.
Defined.

End EdgeReaderFacts.

(** ** Splitting and joining *)

Module SplitFacts.
Import Py PyFacts.

Lemma prefix_length sep s :
  String.prefix sep s = true → String.length sep ≤ String.length s.
Proof.
  revert s. induction sep as [|a sep IH]; intros [|c s]; simpl; try done;
    try lia.
  destruct (ascii_dec a c); [|done]. intros Hp%IH. lia.
Qed.

Lemma prefix_split sep s :
  String.prefix sep s = true →
  s = sep +:+ String.substring (String.length sep)
                (String.length s - String.length sep) s.
Proof.
  revert s. induction sep as [|a sep IH]; intros [|c s]; try done.
  - intros _. simpl. by rewrite KypherFacts.substring_all.
  - rewrite prefix_cons. destruct (ascii_dec a c) as [->|]; [|done].
    intros Hp. rewrite append_cons. simpl. f_equal. by apply IH.
Qed.

Lemma join_cons sep t ts :
  join sep (t :: ts)
  = match ts with [] => t | _ :: _ => t +:+ sep +:+ join sep ts end.
Proof. by destruct ts. Qed.

Lemma join_cons_head sep c l :
  l ≠ [] → join sep (cons_head c l) = String c (join sep l).
Proof. destruct l as [|t [|t' ts]]; done. Qed.

(** Joining the parts of a text gives the text back: [skip] characters of
    it still belong to the separator that was passed. *)
Lemma join_split_go sep k s :
  sep ≠ "" → k ≤ String.length s →
  sep +:+ join sep (split_go sep k s)
  = sep +:+ String.substring k (String.length s - k) s.
Proof.
  intros Hsep. revert k. induction s as [|c r IH]; intros k Hk.
  { rewrite split_go_nil. simpl in Hk. by replace k with 0 by lia. }
  destruct k as [|k].
  - rewrite split_go_0, Nat.sub_0_r, KypherFacts.substring_all.
    destruct (String.prefix sep (String c r)) eqn:Hp.
    + pose proof (prefix_length _ _ Hp) as Hlen. simpl in Hlen.
      destruct sep as [|a sep']; [done|].
      rewrite prefix_cons in Hp. destruct (ascii_dec a c) as [->|]; [|done].
      destruct (split_go_cons (String c sep') (String.length (String c sep') - 1) r)
        as (t & ts & Hsplit).
      rewrite join_cons, Hsplit, <-Hsplit, append_nil_l.
      rewrite IH by (simpl in *; lia).
      replace (String.length (String c sep') - 1) with (String.length sep')
        by (simpl; lia).
      f_equal. rewrite append_cons. f_equal.
      by rewrite <-prefix_split.
    + destruct (split_go_cons sep 0 r) as (t & ts & Hsplit).
      rewrite join_cons_head by by rewrite Hsplit.
      specialize (IH 0 ltac:(lia)). rewrite Nat.sub_0_r in IH.
      rewrite KypherFacts.substring_all in IH.
      apply (inj (String.append sep)) in IH. by rewrite IH.
  - rewrite split_go_skip. simpl in Hk. rewrite IH by lia. done.
Qed.

Lemma join_split sep s : sep ≠ "" → join sep (split sep s) = s.
Proof.
  intros Hsep. pose proof (join_split_go sep 0 s Hsep ltac:(lia)) as Hj.
  rewrite Nat.sub_0_r, KypherFacts.substring_all in Hj.
  by apply (inj (String.append sep)) in Hj.
Qed.

Lemma prefix_snoc_newline sep s :
  has_char newline sep = false →
  String.prefix sep (s +:+ String newline "") = String.prefix sep s.
Proof.
  revert s. induction sep as [|a sep IH]; intros s Hsep.
  { by rewrite !prefix_nil. }
  simpl in Hsep. destruct (decide (a = newline)) as [|Ha]; [done|].
  destruct s as [|c s].
  - rewrite append_nil_l, prefix_cons.
    by destruct (ascii_dec a newline).
  - rewrite append_cons, !prefix_cons.
    destruct (ascii_dec a c); [by apply IH|done].
Qed.

(** A line feed at the end of a text stays at the end of its last part. *)
Lemma split_go_snoc_newline sep k s :
  sep ≠ "" → has_char newline sep = false → k ≤ String.length s →
  ∃ init t,
    split_go sep k s = init ++ [t]
    ∧ split_go sep k (s +:+ String newline "")
      = init ++ [t +:+ String newline ""].
Proof.
  intros Hsep Hnl. revert k. induction s as [|c r IH]; intros k Hk.
  - simpl in Hk. replace k with 0 by lia. exists [], "".
    split; [done|]. rewrite append_nil_l, split_go_0.
    rewrite <-(append_nil_l (String newline "")), prefix_snoc_newline by done.
    destruct sep; [done|]. done.
  - rewrite append_cons. destruct k as [|k].
    + assert (String.prefix sep (String c (r +:+ String newline ""))
              = String.prefix sep (String c r)) as Hpre.
      { rewrite <-append_cons. by apply prefix_snoc_newline. }
      rewrite !split_go_0, Hpre.
      destruct (String.prefix sep (String c r)) eqn:Hp.
      * apply prefix_length in Hp. simpl in Hp.
        destruct (IH (String.length sep - 1) ltac:(lia))
          as (init & t & -> & ->).
        by exists ("" :: init), t.
      * destruct (IH 0 ltac:(lia)) as (init & t & -> & ->).
        destruct init as [|x init]; simpl.
        -- by exists [], (String c t).
        -- by exists (String c x :: init), t.
    + rewrite !split_go_skip. apply IH. simpl in Hk. lia.
Qed.

End SplitFacts.

(** ** Opening an edge file and reading it through *)

Module EdgeHeaderFacts.
Import Py PyFacts EdgeReader EdgeHeader.

Implicit Types (names : list string) (m : gmap string nat) (k : string).

Lemma name_map_None names idx m : name_map names idx m = None ↔ "" ∈ names.
Proof.
  revert idx m. induction names as [|n names IH]; intros idx m; simpl.
  - split; [done|]. by intros ?%elem_of_nil.
  - rewrite elem_of_cons. case_decide as Hn.
    + split; [by left|done].
    + rewrite IH. split; [by right|]. by intros [?|?].
Qed.

(** An entry of the finished map is an old one for a name that is no column,
    or the index of the last column of that name. *)
Lemma name_map_lookup names idx m m' k i :
  name_map names idx m = Some m' →
  m' !! k = Some i →
  ((k ∉ names) ∧ m !! k = Some i)
  ∨ ((idx ≤ i) ∧ names !! (i - idx) = Some k
     ∧ ∀ j, i - idx < j → names !! j ≠ Some k).
Proof.
  revert idx m. induction names as [|n names IH]; intros idx m; simpl.
  - intros [= <-] Hk. left. split; [apply not_elem_of_nil|done].
  - case_decide as Hn; [done|]. intros Hmap Hk.
    destruct (IH _ _ Hmap Hk) as [[Hnotin Hlook]|(Hle & Hlook & Hlast)].
    + destruct (decide (n = k)) as [->|Hne].
      * rewrite lookup_insert_eq in Hlook. injection Hlook as <-. right.
        split; [lia|]. rewrite Nat.sub_diag. split; [done|].
        intros [|j] Hj; [lia|]. simpl. intros Hin. apply Hnotin.
        by eapply list_elem_of_lookup_2.
      * rewrite lookup_insert_ne in Hlook by done. left.
        split; [|done]. by apply not_elem_of_cons.
    + right. split; [lia|].
      replace (i - idx) with (S (i - S idx)) by lia. split; [done|].
      intros [|j] Hj; [lia|]. simpl. apply Hlast. lia.
Qed.

Lemma name_map_elem names idx m m' k :
  name_map names idx m = Some m' → k ∈ names → is_Some (m' !! k).
Proof.
  revert idx m. induction names as [|n names IH]; intros idx m; simpl.
  - by intros _ ?%elem_of_nil.
  - case_decide as Hn; [done|]. intros Hmap Hin.
    destruct (decide (k ∈ names)) as [Hk|Hk]; [by eapply IH|].
    apply elem_of_cons in Hin as [->|?]; [|done].
    assert (∀ names idx m m', name_map names idx m = Some m' →
              n ∉ names → m' !! n = m !! n) as Hkeep.
    { clear. intros names. induction names as [|x names IH];
        intros idx m m'; simpl; [by intros [= <-]|].
      case_decide; [done|]. intros Hmap [Hne Hnotin]%not_elem_of_cons.
      rewrite (IH _ _ _ Hmap Hnotin). by rewrite lookup_insert_ne. }
    rewrite (Hkeep _ _ _ _ Hmap Hk), lookup_insert_eq. by eexists.
Qed.

(** The index that the column-name map holds for a name points at the
    last column of that name. *)
Lemma name_map_index (names : list string) cmap k i :
  name_map names 0 ∅ = Some cmap → cmap !! k = Some i →
  names !! i = Some k ∧ ∀ j, i < j → names !! j ≠ Some k.
Proof.
  intros Hmap Hk.
  destruct (name_map_lookup _ _ _ _ _ _ Hmap Hk)
    as [[_ Hempty]|(_ & Hlook & Hlast)]; [by rewrite lookup_empty in Hempty|].
  rewrite Nat.sub_0_r in *. done.
Qed.

(** The steps that [_setup] has passed when it returns. *)
Lemma setup_inv file_in require_all prohibit_extra fill_missing
    column_separator er inp :
  _setup file_in require_all prohibit_extra fill_missing column_separator
    = SetupOk er inp →
  let names := split column_separator (readline file_in).1 in
  ∃ cmap,
    column_separator ≠ ""
    ∧ 3 ≤ length names
    ∧ name_map names 0 ∅ = Some cmap
    ∧ cmap !! NODE1_COLUMN_NAME = Some (node1_column_idx er)
    ∧ cmap !! NODE2_COLUMN_NAME = Some (node2_column_idx er)
    ∧ cmap !! LABEL_COLUMN_NAME = Some (label_column_idx er)
    ∧ column_names er = names
    ∧ attributes er
      = Reader column_separator (Z.of_nat (length names))
               require_all prohibit_extra fill_missing
    ∧ inp = Input (readline file_in).2 false 1.
Proof.
  unfold _setup. destruct (readline file_in) as [header rest] eqn:Hread.
  case_decide as Hsep; [done|].
  destruct (length (split column_separator header) <? 3) eqn:Hlen; [done|].
  apply Nat.ltb_ge in Hlen.
  destruct (name_map _ 0 ∅) as [cmap|] eqn:Hmap; [|done].
  destruct (cmap !! NODE1_COLUMN_NAME) as [i1|] eqn:H1; [|done].
  destruct (cmap !! NODE2_COLUMN_NAME) as [i2|] eqn:H2; [|done].
  destruct (cmap !! LABEL_COLUMN_NAME) as [i3|] eqn:H3; [|done].
  intros [= <- <-]. simpl. exists cmap. split_and!; done.
Qed.

(** X1: what [_setup] returns.  The column names are the parts of the
    header line, at least three and none empty; [column_count] is their
    number; the three indexes point at the columns named [node1], [node2]
    and [label], the last one of each name; the policies are the ones
    given; and reading goes on after the header, at line 1. *)
Theorem setup_returns file_in require_all prohibit_extra fill_missing
    column_separator er inp :
  _setup file_in require_all prohibit_extra fill_missing column_separator
    = SetupOk er inp →
  column_names er = split column_separator (readline file_in).1
  ∧ (3 ≤ length (column_names er))
  ∧ ("" ∉ column_names er)
  ∧ attributes er
    = Reader column_separator (Z.of_nat (length (column_names er)))
             require_all prohibit_extra fill_missing
  ∧ (∀ name idx,
       (name, idx) ∈ [(NODE1_COLUMN_NAME, node1_column_idx er);
                      (NODE2_COLUMN_NAME, node2_column_idx er);
                      (LABEL_COLUMN_NAME, label_column_idx er)] →
       column_names er !! idx = Some name
       ∧ ∀ j, idx < j → column_names er !! j ≠ Some name)
  ∧ inp = Input (readline file_in).2 false 1.
Proof.
  intros Hsetup.
  destruct (setup_inv _ _ _ _ _ _ _ Hsetup)
    as (cmap & Hsep & Hlen & Hmap & H1 & H2 & H3 & Hnames & Hattr & Hinp).
  rewrite Hnames. split_and!; [done|done| |done| |done].
  - intros Hin. by apply (name_map_None _ 0 ∅) in Hin; rewrite Hin in Hmap.
  - intros name idx Hin.
    repeat (apply elem_of_cons in Hin as [[= -> ->]|Hin];
            [by eapply name_map_index|]).
    by apply elem_of_nil in Hin.
Qed.

(** X2: [_setup] succeeds exactly on a header line, cut at a separator that
    is not empty, with at least three columns, none with an empty name, and
    with columns named [node1], [node2] and [label]. *)
Theorem setup_succeeds_iff file_in require_all prohibit_extra fill_missing
    column_separator :
  let names := split column_separator (readline file_in).1 in
  (∃ er inp,
     _setup file_in require_all prohibit_extra fill_missing column_separator
       = SetupOk er inp)
  ↔ column_separator ≠ ""
    ∧ (3 ≤ length names)
    ∧ ("" ∉ names)
    ∧ NODE1_COLUMN_NAME ∈ names
    ∧ NODE2_COLUMN_NAME ∈ names
    ∧ LABEL_COLUMN_NAME ∈ names.
Proof.
  intros names. unfold _setup, names.
  destruct (readline file_in) as [header rest] eqn:Hread. simpl.
  case_decide as Hsep; [by split; [intros (? & ? & ?)|intros []]|].
  destruct (Nat.ltb_spec (length (split column_separator header)) 3)
    as [Hlen|Hlen].
  { split; [by intros (? & ? & ?)|]. intros (_ & ? & _). exfalso. lia. }
  destruct (name_map _ 0 ∅) as [cmap|] eqn:Hmap.
  2: { apply name_map_None in Hmap.
       split; [by intros (? & ? & ?)|]. by intros (_ & _ & ? & _). }
  assert ("" ∉ split column_separator header) as Hnames.
  { intros Hin. apply (name_map_None _ 0 ∅) in Hin. by rewrite Hin in Hmap. }
  assert (∀ k, is_Some (cmap !! k) ↔ k ∈ split column_separator header)
    as Hdom.
  { intros k. split; [|by eapply name_map_elem]. intros [i Hk].
    destruct (name_map_lookup _ _ _ _ _ _ Hmap Hk)
      as [[_ Hempty]|(_ & Hlook & _)]; [by rewrite lookup_empty in Hempty|].
    by eapply list_elem_of_lookup_2. }
  rewrite <-(Hdom NODE1_COLUMN_NAME), <-(Hdom NODE2_COLUMN_NAME),
    <-(Hdom LABEL_COLUMN_NAME).
  destruct (cmap !! NODE1_COLUMN_NAME) as [i1|] eqn:H1.
  2: { split; [by intros (? & ? & ?)|]. by intros (_ & _ & _ & [] & _). }
  destruct (cmap !! NODE2_COLUMN_NAME) as [i2|] eqn:H2.
  2: { split; [by intros (? & ? & ?)|]. by intros (_ & _ & _ & _ & [] & _). }
  destruct (cmap !! LABEL_COLUMN_NAME) as [i3|] eqn:H3.
  2: { split; [by intros (? & ? & ?)|]. by intros (_ & _ & _ & _ & _ & []). }
  split; [|by eauto]. intros _. split_and!; done.
Qed.

(** With a separator that has no line feed, the header line without its
    line feed is cut into the same columns, and the three columns that
    [_setup] finds are among those before the last one. *)
Lemma setup_newline_inv header rest require_all prohibit_extra fill_missing
    column_separator er inp :
  has_char newline column_separator = false →
  _setup ((header +:+ String newline "") :: rest) require_all prohibit_extra
         fill_missing column_separator = SetupOk er inp →
  ∃ init t,
    split column_separator header = init ++ [t]
    ∧ column_names er = init ++ [t +:+ String newline ""]
    ∧ init !! node1_column_idx er = Some NODE1_COLUMN_NAME
    ∧ init !! node2_column_idx er = Some NODE2_COLUMN_NAME
    ∧ init !! label_column_idx er = Some LABEL_COLUMN_NAME.
Proof.
  intros Hnl Hsetup.
  destruct (setup_inv _ _ _ _ _ _ _ Hsetup)
    as (cmap & Hsep & _ & Hmap & H1 & H2 & H3 & Hnames & _ & _).
  simpl in Hnames, Hmap.
  destruct (SplitFacts.split_go_snoc_newline column_separator 0 header
              Hsep Hnl ltac:(lia)) as (init & t & Hheader & Hsplit).
  unfold split in Hnames, Hmap. rewrite Hsplit in Hnames, Hmap.
  exists init, t. split; [done|]. split; [done|].
  assert (∀ name idx, has_char newline name = false →
            cmap !! name = Some idx → init !! idx = Some name) as Hbefore.
  { intros name idx Hname Hidx.
    destruct (name_map_index _ _ _ _ Hmap Hidx) as [Hlook _].
    apply lookup_app_Some in Hlook as [Hlook|[_ Hlook]]; [done|].
    destruct (idx - length init) as [|k]; [|done].
    injection Hlook as <-.
    rewrite has_char_app in Hname. simpl in Hname.
    by rewrite orb_true_r in Hname. }
  split_and!; by apply Hbefore.
Qed.

(** X3: the line feed of the header line stays in the name of the last
    column.  So with a separator that has no line feed: when [_setup]
    succeeds, the name of the last column ends in a line feed, and the
    columns [node1], [node2] and [label] that it finds come before the last
    one; and a header in which one of these three names is no column before
    the last one is refused, also when that name ends the header. *)
Theorem setup_last_column_keeps_newline header rest require_all
    prohibit_extra fill_missing column_separator :
  has_char newline column_separator = false →
  let file_in := (header +:+ String newline "") :: rest in
  (∀ er inp,
     _setup file_in require_all prohibit_extra fill_missing column_separator
       = SetupOk er inp →
     (∃ name, last (column_names er) = Some (name +:+ String newline ""))
     ∧ S (node1_column_idx er) < length (column_names er)
     ∧ S (node2_column_idx er) < length (column_names er)
     ∧ S (label_column_idx er) < length (column_names er))
  ∧ (∀ name,
       name ∈ [NODE1_COLUMN_NAME; NODE2_COLUMN_NAME; LABEL_COLUMN_NAME] →
       name ∉ removelast (split column_separator header) →
       ∃ e, _setup file_in require_all prohibit_extra fill_missing
                   column_separator = SetupErr e).
Proof.
  intros Hnl file_in. split.
  - intros er inp Hsetup.
    destruct (setup_newline_inv _ _ _ _ _ _ _ _ Hnl Hsetup)
      as (init & t & _ & Hnames & H1 & H2 & H3).
    rewrite Hnames, length_app. simpl. split.
    + exists t. apply last_snoc.
    + apply lookup_lt_Some in H1, H2, H3. lia.
  - intros name Hname Hnot_before.
    destruct (_setup file_in _ _ _ _) as [er inp|e] eqn:Hsetup; [|by eexists].
    destruct (setup_newline_inv _ _ _ _ _ _ _ _ Hnl Hsetup)
      as (init & t & Hheader & _ & H1 & H2 & H3).
    rewrite Hheader, removelast_last in Hnot_before.
    destruct Hnot_before.
    repeat (apply elem_of_cons in Hname as [->|Hname];
            [by eapply list_elem_of_lookup_2|]).
    by apply elem_of_nil in Hname.
Qed.

Lemma next_exact (er : reader) line rest c lc :
  column_separator er ≠ "" →
  Z.of_nat (length (split (column_separator er) line)) = column_count er →
  next er (Input (line :: rest) c lc)
  = (Returned (split (column_separator er) line), Input rest c (lc + 1)).
Proof.
  intros Hsep Hlen. unfold next. simpl. rewrite decide_False by done.
  rewrite Hlen, Z.ltb_irrefl, Z.gtb_ltb, Z.ltb_irrefl, !andb_false_r. done.
Qed.

Lemma count_lines_prefix fuel (er : reader) good rest c lc n :
  column_separator er ≠ "" →
  Forall (λ line, Z.of_nat (length (split (column_separator er) line))
                  = column_count er) good →
  count_lines (length good + fuel) er (Input (good ++ rest) c lc) n
  = count_lines fuel er (Input rest c (lc + Z.of_nat (length good)))
                (n + Z.of_nat (length good)).
Proof.
  intros Hsep Hgood. revert lc n.
  induction Hgood as [|line good Hline _ IH]; intros lc n.
  { simpl. by rewrite !Z.add_0_r. }
  simpl length. simpl app. simpl count_lines.
  rewrite next_exact by done. rewrite IH. f_equal; [f_equal|]; lia.
Qed.

(** X4: reading through a file, not yet read to its end, whose lines all
    have [column_count] fields: the loop of the test program counts every
    line, the iteration stops with the file closed, and [line_count] has
    advanced by the number of lines.  The rounds suffice when they are more
    than the lines. *)
Theorem count_lines_all (er : reader) lines lc n fuel :
  column_separator er ≠ "" →
  Forall (λ line, Z.of_nat (length (split (column_separator er) line))
                  = column_count er) lines →
  length lines < fuel →
  count_lines fuel er (Input lines false lc) n
  = Some ((n + Z.of_nat (length lines))%Z, StopIteration,
          Input [] true (lc + Z.of_nat (length lines))).
Proof.
  intros Hsep Hlines Hfuel.
  replace fuel with (length lines + S (fuel - S (length lines))) by lia.
  replace (Input lines false lc) with (Input (lines ++ []) false lc)
    by by rewrite app_nil_r.
  by rewrite count_lines_prefix.
Qed.

(** X5: the first line with a wrong number of fields stops the loop, after
    the lines before it were counted; the error carries the number of that
    line, counted from [line_count], which is 1 for the first line after the
    header.  A line with too few fields is refused when all columns are
    required, a line with too many when extra columns are prohibited. *)
Theorem count_lines_first_bad (er : reader) good bad rest c lc n fuel :
  column_separator er ≠ "" →
  Forall (λ line, Z.of_nat (length (split (column_separator er) line))
                  = column_count er) good →
  length good < fuel →
  let saw := Z.of_nat (length (split (column_separator er) bad)) in
  let number := (lc + Z.of_nat (length good))%Z in
  let counted := (n + Z.of_nat (length good))%Z in
  (require_all_columns er = true → (saw < column_count er)%Z →
   count_lines fuel er (Input (good ++ bad :: rest) c lc) n
   = Some (counted, MissingColumns (column_count er) number saw,
           Input rest c number))
  ∧ (prohibit_extra_columns er = true → (column_count er < saw)%Z →
     count_lines fuel er (Input (good ++ bad :: rest) c lc) n
     = Some (counted,
             ExtraColumns (column_count er) number saw (saw - column_count er),
             Input rest c number)).
Proof.
  intros Hsep Hgood Hfuel saw number counted.
  replace fuel with (length good + S (fuel - S (length good))) by lia.
  rewrite count_lines_prefix by done. simpl count_lines. unfold next. simpl.
  rewrite decide_False by done. fold saw. split.
  - intros -> Hsaw. by rewrite (proj2 (Z.ltb_lt _ _) Hsaw).
  - intros -> Hsaw. rewrite Z.gtb_ltb, (proj2 (Z.ltb_lt _ _) Hsaw).
    rewrite (proj2 (Z.ltb_ge _ _)) by lia. by rewrite andb_false_r.
Qed.

(** X6: a record is returned as the line was cut: unless missing columns
    are filled, joining the fields with the separator gives the line back,
    line terminator included; and when all columns are required and extra
    ones prohibited, as [open] has it by default, they are [column_count]
    fields. *)
Theorem next_returns_line (er : reader) (inp inp' : input) values :
  fill_missing_columns er = false →
  next er inp = (Returned values, inp') →
  ∃ line rest,
    pending inp = line :: rest
    ∧ values = split (column_separator er) line
    ∧ join (column_separator er) values = line
    ∧ (require_all_columns er = true → prohibit_extra_columns er = true →
       Z.of_nat (length values) = column_count er).
Proof.
  intros Hfill. unfold next. rewrite Hfill.
  destruct (pending inp) as [|line rest]; [done|].
  case_decide as Hsep; [done|]. simpl.
  destruct (require_all_columns er && _) eqn:Hreq; [done|].
  destruct (prohibit_extra_columns er && _) eqn:Hext; [done|].
  intros [= <- <-]. exists line, rest.
  split; [done|]. split; [done|]. split.
  - by apply SplitFacts.join_split.
  - intros Hr Hp. rewrite Hr in Hreq. rewrite Hp in Hext. simpl in *.
    apply Z.ltb_ge in Hreq. rewrite Z.gtb_ltb in Hext.
    apply Z.ltb_ge in Hext. lia.
Qed.

Example setup_examples :
  let header := "node1" +:+ tab +:+ "label" +:+ tab +:+ "node2" +:+ tab
                +:+ "id" +:+ String newline "" in
  let short := "node1" +:+ tab +:+ "label" +:+ tab +:+ "node2"
               +:+ String newline "" in
  _setup [header; "x"] true true false tab
    = SetupOk
        (EdgeReaderOf (Reader tab 4 true true false)
           ["node1"; "label"; "node2"; "id" +:+ String newline ""]
           {[ "node1" := 0; "label" := 1; "node2" := 2;
              "id" +:+ String newline "" := 3 ]} 0 2 1)
        (Input ["x"] false 1)
  ∧ _setup [short] true true false tab
    = SetupErr (MissingColumn "node2")
  ∧ _setup [] true true false tab = SetupErr TooFewColumns
  ∧ _setup [header] true true false "" = SetupErr SeparatorEmpty
  ∧ _setup ["node1" +:+ tab +:+ tab +:+ "node2" +:+ tab +:+ "label"]
           true true false tab
    = SetupErr InvalidColumnName.
Proof. vm_compute. done. Qed.

(** A name that ends the header and is also an earlier column: the earlier
    column is the one found. *)
Example setup_repeated_name :
  let header := "node2" +:+ tab +:+ "label" +:+ tab +:+ "node1" +:+ tab
                +:+ "node2" +:+ String newline "" in
  ∃ er inp,
    _setup [header] true true false tab = SetupOk er inp
    ∧ node2_column_idx er = 0
    ∧ column_names er
      = ["node2"; "label"; "node1"; "node2" +:+ String newline ""].
Proof. eexists _, _. split; [reflexivity|]. by vm_compute. Qed.

Lemma setup_returns_witness :
  let header := "node1" +:+ tab +:+ "label" +:+ tab +:+ "node2" +:+ tab
                +:+ "id" in
  ∃ er inp,
    _setup [header; "x"] true true false tab = SetupOk er inp
    ∧ column_names er = ["node1"; "label"; "node2"; "id"]
    ∧ (3 ≤ length (column_names er))
    ∧ column_names er !! node2_column_idx er = Some "node2".
Proof.
  intros header. eexists _, _. split; [reflexivity|].
  destruct (setup_returns [header; "x"] true true false tab _ _ eq_refl)
    as (Hnames & Hlen & _ & _ & Hidx & _).
  split_and!; [exact Hnames|exact Hlen|].
  apply (Hidx "node2"). right. left.
Defined.

Lemma setup_last_column_keeps_newline_witness :
  let header := "node1" +:+ tab +:+ "label" +:+ tab +:+ "node2" +:+ tab
                +:+ "id" in
  let ends_in_node2 := "node1" +:+ tab +:+ "label" +:+ tab +:+ "id" +:+ tab
                       +:+ "node2" in
  (∃ er inp,
     _setup [header +:+ String newline ""] true true false tab
       = SetupOk er inp
     ∧ (∃ name, last (column_names er) = Some (name +:+ String newline ""))
     ∧ S (node2_column_idx er) < length (column_names er))
  ∧ ∃ e, _setup [ends_in_node2 +:+ String newline ""] true true false tab
         = SetupErr e.
Proof.
  intros header ends_in_node2. split.
  - eexists _, _. split; [reflexivity|].
    destruct (setup_last_column_keeps_newline header [] true true false tab
                eq_refl) as [Hfound _].
    destruct (Hfound _ _ eq_refl) as (Hlast & _ & Hnode2 & _).
    split; [exact Hlast|exact Hnode2].
  - destruct (setup_last_column_keeps_newline ends_in_node2 [] true true
                false tab eq_refl) as [_ Hrefused].
    apply (Hrefused "node2"); [by right; left|].
    vm_compute. intros Hin.
    repeat (apply elem_of_cons in Hin as [Heq|Hin]; [discriminate Heq|]).
    by apply elem_of_nil in Hin.
Defined.

Lemma count_lines_all_witness :
  let er := Reader tab 3 true true false in
  let lines := ["a" +:+ tab +:+ "b" +:+ tab +:+ "c";
                "d" +:+ tab +:+ "e" +:+ tab +:+ "f"] in
  count_lines 3 er (Input lines false 1) 0
  = Some (2%Z, StopIteration, Input [] true 3).
Proof.
  intros er lines.
  apply (count_lines_all er lines 1 0 3).
  - discriminate.
  - repeat constructor.
  - simpl. lia.
Defined.

Lemma count_lines_first_bad_witness :
  let er := Reader tab 3 true true false in
  let good := ["a" +:+ tab +:+ "b" +:+ tab +:+ "c"] in
  count_lines 5 er (Input (good ++ ["d" +:+ tab +:+ "e"; "x"]) false 1) 0
  = Some (1%Z, MissingColumns 3 2 2, Input ["x"] false 2).
Proof.
  intros er good.
  destruct (count_lines_first_bad er good ("d" +:+ tab +:+ "e") ["x"]
              false 1 0 5) as [Hmissing _].
  - discriminate.
  - repeat constructor.
  - simpl. lia.
  - apply Hmissing; [reflexivity|]. vm_compute. reflexivity.
Defined.

Lemma next_returns_line_witness :
  let er := Reader tab 3 true true false in
  let line := "a" +:+ tab +:+ "b" +:+ tab +:+ "c" +:+ String newline "" in
  let values := ["a"; "b"; "c" +:+ String newline ""] in
  ∃ line' rest,
    pending (Input [line] false 1) = line' :: rest
    ∧ values = split (column_separator er) line'
    ∧ join (column_separator er) values = line'
    ∧ (require_all_columns er = true → prohibit_extra_columns er = true →
       Z.of_nat (length values) = column_count er).
Proof.
  intros er line values.
  apply (next_returns_line er (Input [line] false 1) (Input [] false 2)
           ["a"; "b"; "c" +:+ String newline ""]); reflexivity.
Defined.

End EdgeHeaderFacts.

(** ** Graph handles of match clauses *)

Module GraphsFacts.
Import Py PyFacts Handles HandlesFacts Graphs.

Implicit Types (hmap : gmap string string) (files mapped : list string).

Lemma elem_of_mapped_files hmap file :
  file ∈ mapped_files hmap ↔ ∃ handle, hmap !! handle = Some file.
Proof.
  unfold mapped_files. rewrite list_elem_of_fmap. split.
  - intros ([handle f] & -> & Hin). exists handle.
    by apply elem_of_map_to_list in Hin.
  - intros [handle Hh]. exists (handle, file). split; [done|].
    by apply elem_of_map_to_list.
Qed.

Lemma scan_files_Some handle base mapped files file :
  scan_files handle base mapped files = Some file →
  file ∈ files ∧ (file ∉ mapped)
  ∧ (file = handle ∨ basename_matches handle base file = true).
Proof.
  induction files as [|f files IH]; [done|]. simpl.
  destruct (decide (f ∈ mapped)) as [|Hf].
  { intros (? & ? & ?)%IH. split; [by right|done]. }
  destruct (decide (handle = f)) as [->|_].
  { intros [= <-]. split; [by left|]. split; [done|by left]. }
  destruct (basename_matches handle base f) eqn:Hb.
  { intros [= <-]. split; [by left|]. split; [done|by right]. }
  intros (? & ? & ?)%IH. split; [by right|done].
Qed.

(** X7: a resolved handle stays resolved.  After a successful call the map
    holds the file for the handle and every earlier entry, and a later call
    for the same handle, whatever the files are then, returns the same file
    and leaves the map as it is. *)
Theorem resolution_is_memoized files files' hmap hmap' handle file :
  map_graph_handle_to_file files hmap handle = Ok (file, hmap') →
  hmap' !! handle = Some file
  ∧ hmap ⊆ hmap'
  ∧ map_graph_handle_to_file files' hmap' handle = Ok (file, hmap').
Proof.
  unfold map_graph_handle_to_file.
  destruct (hmap !! handle) as [f|] eqn:Hmemo.
  - intros [= <- <-]. by rewrite Hmemo.
  - destruct (scan_files _ _ _ _) as [f|]; [|done].
    intros [= <- <-]. rewrite lookup_insert_eq.
    split; [done|]. split; [by apply insert_subseteq|done].
Qed.

(** X8: no file is given to two handles.  If no two handles of the map
    share a file, this is still so after a call; and the file found for a
    handle that was not memoized is a registered file, mapped to no handle
    before, that is the handle or has a matching basename. *)
Theorem resolution_one_handle_per_file files hmap hmap' handle file :
  one_handle_per_file hmap →
  map_graph_handle_to_file files hmap handle = Ok (file, hmap') →
  one_handle_per_file hmap'
  ∧ (hmap !! handle = None →
     file ∈ files
     ∧ (∀ other, hmap !! other ≠ Some file)
     ∧ (file = handle
        ∨ basename_matches handle (base_handle handle) file = true)).
Proof.
  intros Hinj. unfold map_graph_handle_to_file.
  destruct (hmap !! handle) as [f|] eqn:Hmemo.
  { intros [= <- <-]. by split. }
  destruct (scan_files _ _ _ _) as [f|] eqn:Hscan; [|done].
  intros [= <- <-].
  apply scan_files_Some in Hscan as (Hin & Hnew & Hmatch).
  assert (∀ other, hmap !! other ≠ Some f) as Hfresh.
  { intros other Hother. apply Hnew, elem_of_mapped_files. by exists other. }
  split; [|done].
  intros h1 h2 f' H1 H2.
  destruct (decide (h1 = handle)) as [->|Hne1];
    destruct (decide (h2 = handle)) as [->|Hne2]; [done|..].
  - rewrite lookup_insert_eq in H1. rewrite lookup_insert_ne in H2 by done.
    injection H1 as <-. by destruct (Hfresh h2).
  - rewrite lookup_insert_eq in H2. rewrite lookup_insert_ne in H1 by done.
    injection H2 as <-. by destruct (Hfresh h1).
  - rewrite lookup_insert_ne in H1, H2 by done. by eapply Hinj.
Qed.

(** X9: a clause without a graph is given the first file as its handle.
    With absolute paths it gets the first file itself if no handle has
    taken that file, and cannot be resolved once a handle has. *)
Theorem default_graph_resolution (get_file_graph : string → string)
    default_graph files hmap :
  Forall absolute (default_graph :: files) →
  hmap !! default_graph = None →
  get_pattern_clause_graph get_file_graph (default_graph :: files)
    default_graph hmap None
  = if decide (default_graph ∈ mapped_files hmap)
    then Err (FailedToMapHandle default_graph)
    else Ok (get_file_graph default_graph,
             <[default_graph := default_graph]> hmap).
Proof.
  intros Habs Hmemo. unfold get_pattern_clause_graph, map_graph_handle_to_file.
  rewrite Hmemo. case_decide as Hin.
  - rewrite scan_files_find, find_none_elem; [done|].
    intros file Hfile.
    destruct (decide (file = default_graph)) as [->|Hne].
    + by rewrite bool_decide_eq_false_2 by auto.
    + rewrite (bool_decide_eq_false_2 (file = _)) by done.
      rewrite basename_matches_absolute; [apply andb_false_r|].
      by apply Forall_cons in Habs as [? _].
  - simpl. rewrite decide_False by done. by rewrite decide_True.
Qed.

Lemma digits_to_end_all ds : all_digits ds = true → digits_to_end ds = true.
Proof.
  induction ds as [|d ds IH]; [done|]. simpl.
  intros [-> ?]%andb_true_iff. auto.
Qed.

Lemma digits_to_end_blocked s x ds :
  is_digit x = false → ds ≠ "" → digits_to_end (s +:+ String x ds) = false.
Proof.
  intros Hx Hds. induction s as [|c s IH].
  - rewrite append_nil_l. simpl. rewrite Hx.
    rewrite (bool_decide_eq_false_2 (ds = "")) by done. apply andb_false_r.
  - rewrite append_cons. simpl. destruct (is_digit c); [done|].
    rewrite (bool_decide_eq_false_2 (_ = "")); [apply andb_false_r|].
    by destruct s.
Qed.

Lemma search_digits_after i pre x ds :
  is_digit x = false → ds ≠ "" → all_digits ds = true →
  search_digits_at_end i (pre +:+ String x ds)
  = Some (i + S (String.length pre)).
Proof.
  intros Hx Hds Hall. revert i. induction pre as [|c pre IH]; intros i.
  - rewrite append_nil_l. simpl. rewrite Hx. simpl.
    destruct ds as [|d ds]; [done|]. simpl in Hall.
    apply andb_true_iff in Hall as [Hd Hall]. simpl.
    rewrite Hd, digits_to_end_all by done. simpl. f_equal. lia.
  - rewrite append_cons. simpl.
    rewrite digits_to_end_blocked by done. rewrite andb_false_r.
    rewrite IH. f_equal. lia.
Qed.

(** X10: the base handle.  A numeric suffix after a text that does not end
    in a digit is stripped; a handle that is all digits is its own base
    handle. *)
Theorem base_handle_strips_digits pre x ds :
  is_digit x = false → ds ≠ "" → all_digits ds = true →
  base_handle ((pre +:+ String x "") +:+ ds) = pre +:+ String x ""
  ∧ base_handle ds = ds.
Proof.
  intros Hx Hds Hall. unfold base_handle. split.
  - replace ((pre +:+ String x "") +:+ ds) with (pre +:+ String x ds)
      by by rewrite append_assoc.
    rewrite search_digits_after by done. simpl.
    replace (pre +:+ String x ds) with ((pre +:+ String x "") +:+ ds)
      by by rewrite append_assoc.
    replace (S (String.length pre)) with (String.length (pre +:+ String x ""))
      by (rewrite append_length; simpl; lia).
    apply KypherFacts.substring_0_app.
  - destruct ds as [|d ds]; [done|]. simpl in *.
    apply andb_true_iff in Hall as [Hd Hall].
    by rewrite Hd, digits_to_end_all.
Qed.

Lemma resolution_is_memoized_witness :
  let files := ["/data/graph.tsv"; "/data/works.tsv"] in
  let hmap : gmap string string := {[ "g" := "/data/graph.tsv" ]} in
  hmap !! "g" = Some "/data/graph.tsv"
  ∧ hmap ⊆ hmap
  ∧ map_graph_handle_to_file [] hmap "g" = Ok ("/data/graph.tsv", hmap).
Proof.
  intros files hmap.
  apply (resolution_is_memoized files [] ∅ hmap "g" "/data/graph.tsv").
  reflexivity.
Defined.

Lemma resolution_one_handle_per_file_witness :
  let files := ["/data/graph.tsv"; "/data/works.tsv"] in
  let hmap : gmap string string := {[ "g" := "/data/graph.tsv" ]} in
  one_handle_per_file (<[ "w" := "/data/works.tsv" ]> hmap)
  ∧ (hmap !! "w" = None →
     "/data/works.tsv" ∈ files
     ∧ (∀ other, hmap !! other ≠ Some "/data/works.tsv")
     ∧ ("/data/works.tsv" = "w"
        ∨ basename_matches "w" (base_handle "w") "/data/works.tsv" = true)).
Proof.
  intros files hmap.
  apply (resolution_one_handle_per_file files hmap _ "w" "/data/works.tsv").
  - intros h1 h2 f [<- <-]%lookup_singleton_Some [<- _]%lookup_singleton_Some.
    reflexivity.
  - reflexivity.
Defined.

Lemma default_graph_resolution_witness :
  let hmap : gmap string string := {[ "g" := "/data/graph.tsv" ]} in
  get_pattern_clause_graph (λ file, "graph_1")
    ["/data/graph.tsv"; "/data/works.tsv"] "/data/graph.tsv" hmap None
  = Err (FailedToMapHandle "/data/graph.tsv").
Proof.
  intros hmap.
  apply (default_graph_resolution (λ file, "graph_1") "/data/graph.tsv"
           ["/data/works.tsv"] hmap).
  - repeat constructor.
  - reflexivity.
Defined.

Lemma base_handle_strips_digits_witness :
  base_handle "g12" = "g" ∧ base_handle "12" = "12".
Proof.
  apply (base_handle_strips_digits "" "g" "12"); [reflexivity|discriminate|reflexivity].
Defined.

End GraphsFacts.

(** ** What the joins of a translation say *)

Module JoinedFacts.
Import Bindings BindingsFacts Joined.

Implicit Types (a b x : colref) (st : state) (sql_vars : list colref).

Lemma connected_mono st st' a b :
  joins st ⊆ joins st' → connected st a b → connected st' a b.
Proof.
  intros Hsub. unfold connected.
  apply rtc_subrel. intros x y [?|?]; [left|right]; by apply Hsub.
Qed.

Lemma connected_sym st a b : connected st a b → connected st b a.
Proof. unfold connected. intros. by symmetry. Qed.

Lemma connected_trans st a b c :
  connected st a b → connected st b c → connected st a c.
Proof. unfold connected. intros. by etrans. Qed.

Lemma connected_sorted_pair st best_var sql_var :
  sorted_pair best_var sql_var ∈ joins st → connected st sql_var best_var.
Proof.
  unfold sorted_pair, connected.
  destruct (sql_var_ltb sql_var best_var); intros Hin.
  - apply rtc_once. by left.
  - apply rtc_once. by right.
Qed.

Lemma elem_of_set_add x y sql_vars :
  x ∈ set_add y sql_vars ↔ x = y ∨ x ∈ sql_vars.
Proof.
  unfold set_add. case_decide.
  - split; [by right|]. by intros [->|?].
  - rewrite elem_of_app, list_elem_of_singleton. tauto.
Qed.

(** The shape of a successful registration. *)
Lemma register_cases st st' query_var sql_var :
  register_clause_variable query_var sql_var st = Ok st' →
  (varmap st !! query_var = None
   ∧ st' = State (<[query_var := [sql_var]]> (varmap st)) (joins st))
  ∨ (∃ sql_vars best_var,
       varmap st !! query_var = Some sql_vars
       ∧ best_var ∈ sql_vars
       ∧ ((sql_var = best_var ∧ st' = st)
          ∨ (sql_var ≠ best_var
             ∧ st' = State (<[query_var := set_add sql_var sql_vars]>
                              (varmap st))
                           ({[ sorted_pair best_var sql_var ]} ∪ joins st)))).
Proof.
  unfold register_clause_variable.
  destruct (varmap st !! query_var) as [sql_vars|] eqn:Hq.
  - destruct (find_best_var sql_var.1 None sql_vars) as [best|] eqn:Hbest;
      [|done].
    apply find_best_var_elem in Hbest.
    intros Hreg. right. exists sql_vars, best. split; [done|]. split; [done|].
    destruct (decide (sql_var = best)) as [Heq|Hne].
    + left. split; [done|]. rewrite decide_False in Hreg by auto. congruence.
    + right. split; [done|]. rewrite decide_True in Hreg by done. congruence.
  - intros [= <-]. by left.
Qed.

(** X11: the joins connect all references of a variable.  In every state
    of a translation, any two references registered for one query variable
    are linked by a chain of join pairs, so that the conditions made from
    the joins force all columns of a variable to be equal. *)
Theorem references_connected st query_var sql_vars a b :
  reachable st →
  varmap st !! query_var = Some sql_vars →
  a ∈ sql_vars → b ∈ sql_vars →
  connected st a b.
Proof.
  intros Hst. revert query_var sql_vars a b.
  induction Hst as [|st st' q v _ IH Hreg|st vm _ IH Hvm];
    intros query_var sql_vars a b Hq Ha Hb.
  - simpl in Hq. by rewrite lookup_empty in Hq.
  - apply register_cases in Hreg
      as [[Hnew ->]|(refs & best & Hrefs & Hbest & [[-> ->]|[Hne ->]])].
    + simpl in Hq. destruct (decide (q = query_var)) as [->|Hqne].
      * rewrite lookup_insert_eq in Hq. simplify_eq.
        apply list_elem_of_singleton in Ha as ->.
        apply list_elem_of_singleton in Hb as ->. apply rtc_refl.
      * rewrite lookup_insert_ne in Hq by done.
        eapply (connected_mono st); [done|]. by eapply IH.
    + by eapply IH.
    + simpl in Hq.
      set (st' := State _ _).
      assert (joins st ⊆ joins st') as Hsub by (simpl; set_solver).
      destruct (decide (q = query_var)) as [->|Hqne].
      * rewrite lookup_insert_eq in Hq. simplify_eq.
        assert (∀ x, x ∈ set_add v refs → connected st' x best) as Hall.
        { intros x [->|Hx]%elem_of_set_add.
          - apply connected_sorted_pair. simpl. set_solver.
          - apply (connected_mono st); [done|]. by eapply IH. }
        eapply connected_trans; [by apply Hall|].
        by apply connected_sym, Hall.
      * rewrite lookup_insert_ne in Hq by done.
        apply (connected_mono st); [done|]. by eapply IH.
  - simpl in Hq. specialize (Hvm query_var). rewrite Hq in Hvm.
    inversion Hvm as [l l' Hperm Hl Hl'|]; simplify_eq.
    unfold connected. simpl. fold (connected st a b).
    eapply IH; [done|by rewrite <-Hperm..].
Qed.

(** X12: the joins equate nothing else.  In every state of a translation,
    the two references of a join pair are different references of one and
    the same query variable. *)
Theorem joins_within_variable st a b :
  reachable st →
  (a, b) ∈ joins st →
  a ≠ b
  ∧ ∃ query_var sql_vars,
      varmap st !! query_var = Some sql_vars ∧ a ∈ sql_vars ∧ b ∈ sql_vars.
Proof.
  intros Hst. revert a b.
  induction Hst as [|st st' q v _ IH Hreg|st vm _ IH Hvm]; intros a b Hab.
  - simpl in Hab. by apply not_elem_of_empty in Hab.
  - apply register_cases in Hreg
      as [[Hnew ->]|(refs & best & Hrefs & Hbest & [[-> ->]|[Hne ->]])].
    + simpl in Hab. destruct (IH a b Hab) as (Hne & q' & refs & Hq' & ? & ?).
      split; [done|]. exists q', refs. split; [|done]. simpl.
      rewrite lookup_insert_ne; [done|]. intros ->. congruence.
    + by apply IH.
    + simpl in Hab. apply elem_of_union in Hab as [Hab|Hab].
      * apply elem_of_singleton in Hab. unfold sorted_pair in Hab.
        assert (a ≠ b ∧ a ∈ set_add v refs ∧ b ∈ set_add v refs)
          as (? & ? & ?).
        { destruct (sql_var_ltb v best); simplify_eq;
            (split; [done|]); rewrite !elem_of_set_add; auto. }
        split; [done|]. exists q, (set_add v refs). simpl.
        by rewrite lookup_insert_eq.
      * destruct (IH a b Hab) as (Hab' & q' & refs' & Hq' & Ha & Hb).
        split; [done|]. simpl.
        destruct (decide (q = q')) as [->|Hqne].
        -- exists q', (set_add v refs). rewrite lookup_insert_eq.
           simplify_eq. rewrite !elem_of_set_add. auto.
        -- exists q', refs'. by rewrite lookup_insert_ne.
  - simpl in Hab. destruct (IH a b Hab) as (Hne & q' & refs & Hq' & Ha & Hb).
    split; [done|]. simpl. specialize (Hvm q'). rewrite Hq' in Hvm.
    inversion Hvm as [l l' Hperm Hl Hl'|]; simplify_eq.
    exists q', l. split; [done|]. by rewrite Hperm.
Qed.

(** A registration in a state of a translation does not raise and keeps
    the references. *)
Lemma register_grows st query_var sql_var :
  reachable st →
  ∃ st',
    register_clause_variable query_var sql_var st = Ok st'
    ∧ reachable st'
    ∧ (∃ sql_vars,
         varmap st' !! query_var = Some sql_vars ∧ sql_var ∈ sql_vars)
    ∧ (∀ q sql_vars x,
         varmap st !! q = Some sql_vars → x ∈ sql_vars →
         ∃ sql_vars', varmap st' !! q = Some sql_vars' ∧ x ∈ sql_vars').
Proof.
  intros Hst. destruct (register_total st query_var sql_var Hst) as [st' Hreg].
  exists st'. split; [done|]. split; [by eapply reachable_register|].
  apply register_cases in Hreg
    as [[Hnew ->]|(refs & best & Hrefs & Hbest & [[-> ->]|[Hne ->]])]; simpl.
  - split.
    + exists [sql_var]. rewrite lookup_insert_eq. split; [done|]. by left.
    + intros q refs x Hq Hx. exists refs. split; [|done].
      rewrite lookup_insert_ne; [done|]. intros ->. congruence.
  - split; by eauto.
  - split.
    + exists (set_add sql_var refs). rewrite lookup_insert_eq.
      split; [done|]. apply elem_of_set_add. by left.
    + intros q refs' x Hq Hx. destruct (decide (query_var = q)) as [->|].
      * exists (set_add sql_var refs). rewrite lookup_insert_eq.
        split; [done|]. apply elem_of_set_add. right. congruence.
      * exists refs'. by rewrite lookup_insert_ne.
Qed.

(** X13: registering a reference in a state of a translation never raises;
    afterwards the reference is among those of its variable, nothing that
    was registered or joined before is lost, and at most one join pair is
    new. *)
Theorem register_extends st query_var sql_var :
  reachable st →
  ∃ st',
    register_clause_variable query_var sql_var st = Ok st'
    ∧ reachable st'
    ∧ (∃ sql_vars,
         varmap st' !! query_var = Some sql_vars ∧ sql_var ∈ sql_vars)
    ∧ (∀ q sql_vars x,
         varmap st !! q = Some sql_vars → x ∈ sql_vars →
         ∃ sql_vars', varmap st' !! q = Some sql_vars' ∧ x ∈ sql_vars')
    ∧ joins st ⊆ joins st'
    ∧ size (joins st') ≤ S (size (joins st)).
Proof.
  intros Hst.
  destruct (register_grows st query_var sql_var Hst)
    as (st' & Hreg & Hst' & Hnew & Hkeep).
  exists st'. split_and!; [done..| |].
  - apply register_cases in Hreg
      as [[_ ->]|(refs & best & _ & _ & [[_ ->]|[_ ->]])]; simpl; [done..|].
    apply union_subseteq_r.
  - apply register_cases in Hreg
      as [[_ ->]|(refs & best & _ & _ & [[_ ->]|[_ ->]])]; simpl; [lia..|].
    rewrite size_union_alt, size_singleton.
    assert (size (joins st ∖ {[sorted_pair best sql_var]})
            ≤ size (joins st)) as Hle
      by by apply subseteq_size, subseteq_difference_l.
    lia.
Qed.

Lemma references_connected_witness :
  let a1 := ("g_c1", "node1") in
  let a2 := ("g_c2", "node1") in
  let a3 := ("g_c2", "node2") in
  let st := State {[ "a" := [a1; a2; a3] ]}
                  ({[ (a2, a3) ]} ∪ ({[ (a1, a2) ]} ∪ ∅)) in
  connected st a1 a3.
Proof.
  intros a1 a2 a3 st.
  apply (references_connected st "a" [a1; a2; a3] a1 a3).
  - apply (reachable_register (State {[ "a" := [a1; a2] ]}
                                     ({[ (a1, a2) ]} ∪ ∅)) st "a" a3);
      [|reflexivity].
    apply (reachable_register (State {[ "a" := [a1] ]} ∅) _ "a" a2);
      [|reflexivity].
    apply (reachable_register initial _ "a" a1); [|reflexivity].
    apply reachable_initial.
  - reflexivity.
  - left.
  - right. right. left.
Defined.

Lemma joins_within_variable_witness :
  let a1 := ("g_c1", "node1") in
  let a2 := ("g_c2", "node1") in
  let st := State {[ "a" := [a1; a2] ]} ({[ (a1, a2) ]} ∪ ∅) in
  a1 ≠ a2
  ∧ ∃ query_var sql_vars,
      varmap st !! query_var = Some sql_vars ∧ a1 ∈ sql_vars ∧ a2 ∈ sql_vars.
Proof.
  intros a1 a2 st. apply (joins_within_variable st a1 a2).
  - apply (reachable_register (State {[ "a" := [a1] ]} ∅) st "a" a2);
      [|reflexivity].
    apply (reachable_register initial _ "a" a1); [|reflexivity].
    apply reachable_initial.
  - simpl. set_solver.
Defined.

Lemma register_extends_witness :
  let a1 := ("g_c1", "node1") in
  ∃ st',
    register_clause_variable "a" a1 initial = Ok st'
    ∧ reachable st'
    ∧ (∃ sql_vars, varmap st' !! "a" = Some sql_vars ∧ a1 ∈ sql_vars)
    ∧ (∀ q sql_vars x,
         varmap initial !! q = Some sql_vars → x ∈ sql_vars →
         ∃ sql_vars', varmap st' !! q = Some sql_vars' ∧ x ∈ sql_vars')
    ∧ joins initial ⊆ joins st'
    ∧ size (joins st') ≤ S (size (joins initial)).
Proof.
  intros a1. apply (register_extends initial "a" a1). apply reachable_initial.
Defined.

End JoinedFacts.

(** ** The literal map over a translation *)

Module LiteralMapFacts.
Import Py PyFacts Literals LiteralsFacts SplitFacts.
Section LiteralMapFacts.

Context {L : Type} `{EqDecision L}.
Implicit Types (m : @litmap L) (v l : L) (p : string) (vs : list L).

Lemma get_literal_parameter_app v m :
  ∃ k, (get_literal_parameter v m).2 = m ++ k.
Proof.
  unfold get_literal_parameter. destruct (dict_get v m).
  - exists []. by rewrite app_nil_r.
  - by eexists.
Qed.

Lemma interned_app vs ws : ∃ k, interned (vs ++ ws) = interned vs ++ k.
Proof.
  unfold interned. rewrite fold_left_app.
  generalize (fold_left (λ m v, (get_literal_parameter v m).2) vs []).
  induction ws as [|w ws IH]; intros m; simpl.
  - exists []. by rewrite app_nil_r.
  - destruct (get_literal_parameter_app w m) as [k1 ->].
    destruct (IH (m ++ k1)) as [k2 ->]. exists (k1 ++ k2).
    by rewrite <-app_assoc.
Qed.

Lemma interned_elem vs v : v ∈ vs ↔ is_Some (dict_get v (interned vs)).
Proof.
  induction vs as [|x vs IH] using rev_ind.
  { split; [by intros ?%not_elem_of_nil|by intros [? ?]]. }
  rewrite interned_snoc, elem_of_app, list_elem_of_singleton, IH.
  unfold get_literal_parameter.
  destruct (dict_get x (interned vs)) as [q|] eqn:Hx; simpl.
  - split; [|by left]. intros [?| ->]; [done|by eexists].
  - rewrite dict_get_app. simpl.
    destruct (dict_get v (interned vs)) as [q|] eqn:Hv.
    + split; [by eexists|]. left. by eexists.
    + destruct (decide (x = v)) as [->|Hne].
      * split; [by eexists|by right].
      * split; [|by intros [? ?]]. intros [[? ?]| ->]; done.
Qed.

(** X14: the literal map of a translation only grows.  Every interned
    literal has a placeholder, a literal that was not interned has none, a
    placeholder given once is still the literal's placeholder after any
    further internings, and the map has at most one item for each
    interning. *)
Theorem interned_placeholders_stable vs ws v :
  (v ∈ vs ↔ is_Some (dict_get v (interned vs)))
  ∧ (∀ p, dict_get v (interned vs) = Some p →
          dict_get v (interned (vs ++ ws)) = Some p)
  ∧ length (interned vs) ≤ length vs.
Proof.
  split_and!.
  - apply interned_elem.
  - intros p Hp. destruct (interned_app vs ws) as [k ->].
    by rewrite dict_get_app, Hp.
  - induction vs as [|x vs' IH] using rev_ind; [done|].
    rewrite interned_snoc, length_app. simpl. unfold get_literal_parameter.
    destruct (dict_get x (interned vs')); simpl; [lia|].
    rewrite length_app. simpl. lia.
Qed.

Lemma replace_tokens_plain_then m t ts :
  startswith "?" t = false →
  replace_tokens m (t :: ts)
  = '(query, parameters) ← replace_tokens m ts; Ok (t +:+ query, parameters).
Proof. intros Ht. by rewrite replace_tokens_cons, Ht. Qed.

(** The tokens of a staged text that is followed by more text, when the
    loop raises on what follows. *)
Lemma staged_tokens_raise vs (ps : list piece) tail t' ts' e :
  Forall (piece_ok (interned vs)) ps →
  split_go "??" 0 tail = t' :: ts' →
  startswith "?" t' = false →
  replace_tokens (interned vs) ts' = Err e →
  ∃ t ts,
    split_go "??" 0 (staged ps +:+ tail) = t :: ts
    ∧ startswith "?" t = false
    ∧ replace_tokens (interned vs) ts = Err e.
Proof.
  intros Hps Htail Ht' Hraise. destruct (interned_minted vs) as [Hm _].
  induction Hps as [|[s|n] ps Hp _ (t & ts & Hsplit & Ht & Hrep)].
  - by exists t', ts'.
  - destruct Hp as [Hstart Hfree]. exists (s +:+ t), ts.
    split_and!; [|by apply startswith_append|done].
    change (staged (Plain s :: ps)) with (s +:+ staged ps).
    rewrite append_assoc. by apply split_go_plain.
  - simpl in Hp. apply lookup_lt_is_Some in Hp as [[l p] Hl].
    pose proof (Hm _ _ _ Hl) as ->.
    exists "", (("?" +:+ pretty n) :: t :: ts). split_and!; [|done|].
    + change (staged (Hole n :: ps)) with (placeholder n +:+ staged ps).
      by rewrite append_assoc, split_placeholder, Hsplit.
    + rewrite replace_tokens_cons.
      change ("?" +:+ pretty n) with (String "?" (pretty n)) at 1.
      rewrite startswith_cons.
      change ("??" +:+ ("?" +:+ pretty n) +:+ "??") with (placeholder n).
      rewrite (reverse_get_minted 0 _ n l (placeholder n));
        [|by intros j l' p' ?%Hm|done].
      by rewrite replace_tokens_plain_then, Hrep.
Qed.

(** X15: a placeholder that the literal map has not given raises.  In a
    text that is well staged up to a placeholder whose number is not below
    the size of the map, the materialize pass raises the key error of that
    placeholder, whatever text follows it. *)
Theorem unknown_placeholder_raises vs (ps : list piece) n rest :
  Forall (piece_ok (interned vs)) ps →
  length (interned vs) ≤ n →
  replace_literal_parameters (staged ps +:+ placeholder n +:+ rest)
    (interned vs)
  = Err (KeyError (placeholder n)).
Proof.
  intros Hps Hn. destruct (interned_minted vs) as [Hm _].
  unfold replace_literal_parameters, split.
  destruct (staged_tokens_raise vs ps (placeholder n +:+ rest) ""
              (("?" +:+ pretty n) :: split_go "??" 0 rest)
              (KeyError (placeholder n)) Hps)
    as (t & ts & -> & Ht & Hrep).
  - apply split_placeholder.
  - done.
  - rewrite replace_tokens_cons.
    change ("?" +:+ pretty n) with (String "?" (pretty n)) at 1.
    rewrite startswith_cons.
    change ("??" +:+ ("?" +:+ pretty n) +:+ "??") with (placeholder n).
    rewrite reverse_get_absent; [done|].
    intros l [i Hi]%list_elem_of_lookup.
    pose proof (Hm _ _ _ Hi) as Heq%placeholder_inj.
    apply lookup_lt_Some in Hi. lia.
  - by rewrite replace_tokens_plain_then, Hrep.
Qed.

Lemma replace_tokens_plain m ts :
  Forall (λ t, startswith "?" t = false) ts →
  replace_tokens m ts = Ok (join "" ts, []).
Proof.
  induction 1 as [|t ts Ht _ IH]; [done|].
  rewrite replace_tokens_plain_then, IH, (join_cons "" t ts) by done.
  destruct ts as [|t2 ts]; [|done].
  change (join "" []) with "". simpl. by rewrite append_nil_r.
Qed.

(** X16: markers that are not part of a placeholder are dropped.  If none
    of the parts between the [??] markers of a text starts with a question
    mark, the materialize pass returns the parts run together, without the
    markers that stood between them, and no parameters, for every literal
    map. *)
Theorem stray_markers_dropped raw_query m :
  Forall (λ t, startswith "?" t = false) (split "??" raw_query) →
  replace_literal_parameters raw_query m
    = Ok (join "" (split "??" raw_query), [])
  ∧ join "??" (split "??" raw_query) = raw_query.
Proof.
  intros Hts. split.
  - by apply replace_tokens_plain.
  - by apply join_split.
Qed.

End LiteralMapFacts.

Lemma interned_placeholders_stable_witness :
  dict_get "loves" (interned ["loves"; "name"; "loves"; "age"])
  = Some "???0??".
Proof.
  apply (interned_placeholders_stable ["loves"] ["name"; "loves"; "age"]
           "loves").
  reflexivity.
Defined.

Lemma unknown_placeholder_raises_witness :
  replace_literal_parameters "a=???0?? AND b=???7?? AND c=???1??"
    (interned ["loves"; "name"])
  = Err (KeyError "???7??").
Proof.
  apply (unknown_placeholder_raises ["loves"; "name"]
           [Plain "a="; Hole 0; Plain " AND b="] 7 " AND c=???1??").
  - repeat constructor.
  - simpl. lia.
Defined.

Lemma stray_markers_dropped_witness :
  replace_literal_parameters "x.a??b = 1" (interned ["loves"])
    = Ok ("x.ab = 1", [])
  ∧ join "??" (split "??" "x.a??b = 1") = "x.a??b = 1".
Proof.
  apply (stray_markers_dropped "x.a??b = 1" (interned ["loves"])).
  repeat constructor.
Defined.

End LiteralMapFacts.

(** ** The text and the literal values of an expression *)

Module KypherTextFacts.
Import Py PyFacts Literals LiteralsFacts LiteralMapFacts SplitFacts.
Import HandlesFacts Kypher KypherFacts KypherText.

Lemma staged_app (ps1 ps2 : list piece) :
  staged (ps1 ++ ps2) = staged ps1 +:+ staged ps2.
Proof.
  induction ps1 as [|p ps1 IH]; [done|]. simpl. by rewrite IH, append_assoc.
Qed.

Lemma plain_text_app (ps1 ps2 : list piece) :
  plain_text (ps1 ++ ps2) = plain_text ps1 +:+ plain_text ps2.
Proof.
  induction ps1 as [|[s|n] ps1 IH]; [done|..]; simpl; [|done].
  by rewrite IH, append_assoc.
Qed.

Lemma holes_app (ps1 ps2 : list piece) :
  holes (ps1 ++ ps2) = holes ps1 ++ holes ps2.
Proof.
  induction ps1 as [|[s|n] ps1 IH]; [done|..]; simpl; [done|].
  by rewrite IH.
Qed.

Lemma has_char_quoted s : has_char "?" (quoted s) = has_char "?" s.
Proof.
  unfold quoted.
  change (String dquote (s +:+ String dquote ""))
    with (String dquote "" +:+ s +:+ String dquote "").
  rewrite !has_char_app. simpl. by rewrite orb_false_r.
Qed.

Lemma has_char_sql_quote_ident s :
  has_char "?" s = false → has_char "?" (sql_quote_ident s) = false.
Proof.
  intros Hs. unfold sql_quote_ident. rewrite has_char_quoted.
  induction s as [|c s IH]; [done|]. simpl in *.
  destruct (decide (c = "?"%char)); [done|].
  destruct (decide (c = dquote)).
  - rewrite has_char_app. simpl. by apply IH.
  - simpl. rewrite decide_False by done. by apply IH.
Qed.

Lemma has_char_substring c n s :
  has_char c s = false → has_char c (String.substring 0 n s) = false.
Proof.
  revert n. induction s as [|a s IH]; intros [|n]; simpl; try done.
  destruct (decide (a = c)); [done|]. apply IH.
Qed.

Lemma has_char_contains c sub key :
  contains sub key = true → has_char c key = false → has_char c sub = false.
Proof.
  intros Hc Hkey. destruct (has_char c sub) eqn:Hsub; [|done].
  apply (contains_has_char c) in Hc; [congruence|done].
Qed.

Lemma plain_startswith s :
  has_char "?" s = false → startswith "?" s = false.
Proof.
  destruct s as [|c s]; [done|]. intros Hs. unfold startswith.
  rewrite prefix_cons. destruct (ascii_dec "?" c) as [<-|]; [|done].
  by simpl in Hs.
Qed.

Lemma plain_marker_free s : has_char "?" s = false → marker_free s = true.
Proof.
  induction s as [|c s IH]; [done|]. simpl.
  destruct (decide (c = "?"%char)); [done|]. apply IH.
Qed.

Section KypherTextFacts.

Context {L : Type} `{EqDecision L}.
Variable is_user_function : string → bool.
Variable parameters : gmap string L.

#[local] Abbreviation lookup_property :=
  (Kypher.lookup_property is_user_function).
#[local] Abbreviation lookup_chain := (Kypher.lookup_chain is_user_function).
#[local] Abbreviation expression_to_sql :=
  (Kypher.expression_to_sql (L:=L) is_user_function parameters).
#[local] Abbreviation literal_values :=
  (KypherText.literal_values (L:=L) parameters).
#[local] Abbreviation translated :=
  (KypherText.translated (L:=L) is_user_function parameters).

Implicit Types (e : @expr L) (m : @litmap L) (vs values : list L).

Lemma staged_as_plain m s : has_char "?" s = false → staged_as m [] s.
Proof.
  intros Hs. exists [Plain s]. simpl. rewrite append_nil_r.
  split_and!; [done..|constructor].
Qed.

Lemma staged_as_hole m v n :
  m !! n = Some (v, placeholder n) → staged_as m [v] (placeholder n).
Proof.
  intros Hn. exists [Hole n]. simpl. rewrite append_nil_r.
  split_and!; [done..|]. by repeat constructor.
Qed.

Lemma staged_as_app m vs1 vs2 s1 s2 :
  staged_as m vs1 s1 → staged_as m vs2 s2 →
  staged_as m (vs1 ++ vs2) (s1 +:+ s2).
Proof.
  intros (ps1 & -> & Hp1 & Hh1) (ps2 & -> & Hp2 & Hh2). exists (ps1 ++ ps2).
  rewrite staged_app, plain_text_app, has_char_app, Hp1, Hp2, holes_app.
  split_and!; [done..|]. by apply Forall2_app.
Qed.

Lemma staged_as_plain_l m vs p s :
  has_char "?" p = false → staged_as m vs s → staged_as m vs (p +:+ s).
Proof.
  intros Hp Hs. apply (staged_as_app m [] vs); [by apply staged_as_plain|done].
Qed.

Lemma staged_as_plain_r m vs s p :
  staged_as m vs s → has_char "?" p = false → staged_as m vs (s +:+ p).
Proof.
  intros Hs Hp. rewrite <-(app_nil_r vs).
  apply staged_as_app; [done|by apply staged_as_plain].
Qed.

Lemma staged_as_mono m k vs s : staged_as m vs s → staged_as (m ++ k) vs s.
Proof.
  intros (ps & -> & Hp & Hh). exists ps. split_and!; [done..|].
  eapply Forall2_impl; [done|]. intros v n Hn. by apply lookup_app_l_Some.
Qed.

Lemma staged_as_interned vs ws values s :
  staged_as (interned vs) values s → staged_as (interned (vs ++ ws)) values s.
Proof.
  destruct (interned_app vs ws) as [k ->]. apply staged_as_mono.
Qed.

(** Interning a value in a map of a translation gives the placeholder of
    the position where the map holds the value. *)
Lemma get_literal_parameter_interned vs v :
  ∃ n,
    get_literal_parameter v (interned vs)
      = (placeholder n, interned (vs ++ [v]))
    ∧ interned (vs ++ [v]) !! n = Some (v, placeholder n).
Proof.
  destruct (interned_minted vs) as [Hm _].
  rewrite interned_snoc. unfold get_literal_parameter.
  destruct (dict_get v (interned vs)) as [p|] eqn:Hget; simpl.
  - destruct (dict_get_Some _ _ _ Hget) as [i Hi].
    pose proof (Hm _ _ _ Hi) as ->. by exists i.
  - exists (length (interned vs)). split; [done|].
    by apply list_lookup_middle.
Qed.

Lemma lookup_property_plain var prop :
  has_char "?" var = false → has_char "?" prop = false →
  has_char "?" (lookup_property var prop) = false.
Proof.
  intros Hvar Hprop. unfold Kypher.lookup_property, drop_last.
  destruct (_ && _); [|destruct (endswith _ _)];
    rewrite !has_char_app, ?Hvar, ?Hprop, ?has_char_substring by done; done.
Qed.

Lemma lookup_chain_plain var arg2 var' :
  has_char "?" var = false →
  forallb (λ proplook, match proplook with
                       | PropertyLookup prop => plain prop
                       | OtherLookup => true
                       end) arg2 = true →
  lookup_chain var arg2 = Some var' →
  has_char "?" var' = false.
Proof.
  revert var. induction arg2 as [|[prop|] rest IH]; intros var Hvar Hp Hc.
  - by injection Hc as <-.
  - simpl in Hp, Hc. apply andb_true_iff in Hp as [Hprop Hp].
    apply negb_true_iff in Hprop.
    eapply IH; [|done..]. by apply lookup_property_plain.
  - done.
Qed.

Lemma variable_text query_var m varmap s m' :
  expression_to_sql (Var query_var) m varmap = Ok (s, m') →
  m' = m ∧ (plain_columns varmap → has_char "?" s = false).
Proof.
  simpl. destruct varmap as [vm|]; [|done].
  case_decide as Hstar; [subst; by intros [= <- <-]|].
  destruct (vm !! query_var) as [[|[graph col] rest]|] eqn:Hq; try done.
  intros [= <- <-]. split; [done|]. intros Hplain.
  destruct (Hplain vm query_var _ graph col eq_refl Hq ltac:(left))
    as [Hg Hc].
  rewrite !has_char_app, Hg. simpl. by apply has_char_sql_quote_ident.
Qed.

Lemma expression2_variable query_var arg2 m varmap :
  expression_to_sql (Expression2 (Var query_var) arg2) m varmap
  = '(var, litmap) ← expression_to_sql (Var query_var) m varmap;
    match lookup_chain var arg2 with
    | Some var => Ok (var, litmap)
    | None => Err UnhandledPropertyLookup
    end.
Proof. reflexivity. Qed.

Lemma expression3_operator operator arg1 arg2 m varmap :
  expression_to_sql (Expression3 operator arg1 arg2) m varmap
  = '(arg1, litmap) ← expression_to_sql arg1 m varmap;
    '(arg2, litmap) ← expression_to_sql arg2 litmap varmap;
    if contains (upper operator) "IN" then
      Ok ("(" +:+ arg1 +:+ " " +:+ upper operator +:+ " " +:+ arg2 +:+ ")",
          litmap)
    else if contains (upper operator) "REGEX" then
      Ok ("KGTK_REGEX(" +:+ arg1 +:+ ", " +:+ arg2 +:+ ")", litmap)
    else Err (UnhandledOperator (upper operator)).
Proof. reflexivity. Qed.

Lemma translate_each_staged (xs : list (@expr L)) :
  Forall translated xs →
  ∀ vs varmap ss m',
    translate_each (λ e m, expression_to_sql e m varmap) xs (interned vs)
      = Ok (ss, m') →
    m' = interned (vs ++ concat (map literal_values xs))
    ∧ length ss = length xs
    ∧ (forallb plain_names xs = true → plain_columns varmap →
       staged_as m' (concat (map literal_values xs)) (join ", " ss)).
Proof.
  induction 1 as [|x xs Hx _ IH]; intros vs varmap ss m' Heach.
  - injection Heach as <- <-. rewrite app_nil_r. split_and!; [done..|].
    intros _ _. by apply staged_as_plain.
  - simpl in Heach.
    destruct (expression_to_sql x (interned vs) varmap) as [[s m1]|] eqn:Hs;
      simpl in Heach; [|done].
    apply Hx in Hs as [-> Hsx].
    destruct (translate_each _ xs _) as [[ss' m2]|] eqn:Hss;
      simpl in Heach; [|done].
    injection Heach as <- <-.
    apply IH in Hss as (-> & Hlen & Hssx).
    split_and!.
    + simpl. by rewrite app_assoc.
    + simpl. lia.
    + intros [Hpx Hpxs]%andb_true_iff Hcols. rewrite join_cons.
      change (concat (map literal_values (x :: xs)))
        with (literal_values x ++ concat (map literal_values xs)).
      destruct ss' as [|s2 ss'].
      * destruct xs; [|done]. simpl. rewrite !app_nil_r. by apply Hsx.
      * apply staged_as_app; [by apply staged_as_interned, Hsx|].
        apply staged_as_plain_l; [done|]. by apply Hssx.
Qed.

Lemma expression_translated e : translated e.
Proof.
  induction e as [value|name|query_var|elements IH|arg IH
                 |op arg1 arg2 IH1 IH2|? ? ? ?
                 |arg IH|? ? ? ?| |function args distinct IH|arg1 arg2 IH
                 |operator arg1 arg2 IH1 IH2|] using expr_nested_ind;
    intros vs varmap s m' Hsql; try done.
  - simpl in Hsql. destruct (get_literal_parameter_interned vs value)
      as (n & Hn & Hl).
    rewrite Hn in Hsql. injection Hsql as <- <-. split; [done|].
    intros _ _. by apply staged_as_hole.
  - simpl in *. unfold get_parameter_value in Hsql.
    destruct (parameters !! name) as [value|]; simpl in Hsql; [|done].
    destruct (get_literal_parameter_interned vs value) as (n & Hn & Hl).
    rewrite Hn in Hsql. injection Hsql as <- <-. split; [done|].
    intros _ _. by apply staged_as_hole.
  - apply variable_text in Hsql as [-> Hplain]. simpl. rewrite app_nil_r.
    split; [done|]. intros _ Hcols. by apply staged_as_plain, Hplain.
  - simpl in Hsql.
    destruct (translate_each _ elements _) as [[ss m1]|] eqn:Heach;
      simpl in Hsql; [|done].
    injection Hsql as <- <-.
    apply (translate_each_staged _ IH) in Heach as (-> & _ & Hst).
    split; [done|]. intros Hp _.
    apply staged_as_plain_l; [done|]. apply staged_as_plain_r; [|done].
    apply Hst; [done|]. by intros ? ? ? ? ? [=].
  - simpl in Hsql.
    destruct (expression_to_sql arg _ _) as [[a m1]|] eqn:Ha;
      simpl in Hsql; [|done].
    injection Hsql as <- <-. apply IH in Ha as [-> Hst].
    split; [done|]. intros Hp Hcols.
    apply staged_as_plain_l; [done|]. apply staged_as_plain_r; [|done].
    by apply Hst.
  - simpl in Hsql.
    destruct (expression_to_sql arg1 _ _) as [[a1 m1]|] eqn:Ha1;
      simpl in Hsql; [|done].
    apply IH1 in Ha1 as [-> Hst1].
    destruct (expression_to_sql arg2 _ _) as [[a2 m2]|] eqn:Ha2;
      simpl in Hsql; [|done].
    apply IH2 in Ha2 as [-> Hst2].
    injection Hsql as <- <-. simpl. rewrite app_assoc. split; [done|].
    intros [Hp1 Hp2]%andb_true_iff Hcols.
    apply staged_as_plain_l; [done|].
    apply staged_as_app; [by apply staged_as_interned, Hst1|].
    apply staged_as_plain_l; [done|].
    apply staged_as_plain_l; [by destruct op|].
    apply staged_as_plain_l; [done|].
    apply staged_as_plain_r; [|done]. by apply Hst2.
  - simpl in Hsql.
    destruct (expression_to_sql arg _ _) as [[a m1]|] eqn:Ha;
      simpl in Hsql; [|done].
    injection Hsql as <- <-. apply IH in Ha as [-> Hst].
    split; [done|]. intros Hp Hcols.
    apply staged_as_plain_l; [done|]. apply staged_as_plain_r; [|done].
    by apply Hst.
  - simpl in *. case_decide as Hcast.
    + destruct args as [|arg0 [|[] [|]]]; try done.
      apply Forall_cons in IH as [IH _].
      destruct (expression_to_sql arg0 _ _) as [[a m1]|] eqn:Ha;
        simpl in Hsql; [|done].
      injection Hsql as <- <-. apply IH in Ha as [-> Hst].
      split; [done|].
      intros Hp Hcols.
      apply andb_true_iff in Hp as [Hf Hp].
      apply andb_true_iff in Hp as [Hp Htyp].
      apply negb_true_iff in Htyp.
      apply staged_as_plain_l; [done|].
      apply staged_as_plain_r; [by apply Hst|].
      by rewrite !has_char_app, Htyp.
    + destruct (translate_each _ args _) as [[ss m1]|] eqn:Heach;
        simpl in Hsql; [|done].
      injection Hsql as <- <-.
      apply (translate_each_staged _ IH) in Heach as (-> & _ & Hst).
      split; [done|]. intros [Hf%negb_true_iff Hp]%andb_true_iff Hcols.
      apply staged_as_plain_l; [done|].
      apply staged_as_plain_l; [done|].
      apply staged_as_plain_l; [by destruct distinct|].
      apply staged_as_plain_r; [|done]. by apply Hst.
  - destruct arg1 as [?|?|query_var|?|?|? ? ?|? ?|?|? ?| |? ? ?|? ?|? ? ?|];
      try done.
    rewrite expression2_variable in Hsql.
    destruct (expression_to_sql (Var query_var) _ _) as [[var m1]|] eqn:Hvar;
      simpl in Hsql; [|done].
    apply variable_text in Hvar as [-> Hplain].
    destruct (lookup_chain var arg2) as [var'|] eqn:Hchain; [|done].
    injection Hsql as <- <-. simpl. rewrite app_nil_r. split; [done|].
    intros Hp Hcols. apply staged_as_plain.
    eapply lookup_chain_plain; [by apply Hplain|done..].
  - rewrite expression3_operator in Hsql.
    destruct (contains (upper operator) "IN") eqn:Hin;
      [|destruct (contains (upper operator) "REGEX") eqn:Hregex].
    all: destruct (expression_to_sql arg1 _ _) as [[a1 m1]|] eqn:Ha1;
      simpl in Hsql; [|done].
    all: apply IH1 in Ha1 as [-> Hst1].
    all: destruct (expression_to_sql arg2 _ _) as [[a2 m2]|] eqn:Ha2;
      simpl in Hsql; [|done].
    all: apply IH2 in Ha2 as [-> Hst2].
    all: try done.
    all: injection Hsql as <- <-; simpl; rewrite app_assoc;
      (split; [done|]); intros [Hp1 Hp2]%andb_true_iff Hcols.
    + apply staged_as_plain_l; [done|].
      apply staged_as_app; [by apply staged_as_interned, Hst1|].
      apply staged_as_plain_l; [done|].
      apply staged_as_plain_l; [by eapply has_char_contains|].
      apply staged_as_plain_l; [done|].
      apply staged_as_plain_r; [|done]. by apply Hst2.
    + apply staged_as_plain_l; [done|].
      apply staged_as_app; [by apply staged_as_interned, Hst1|].
      apply staged_as_plain_l; [done|].
      apply staged_as_plain_r; [|done]. by apply Hst2.
Qed.

Lemma staged_as_pieces_ok m values (ps : list piece) :
  has_char "?" (plain_text ps) = false →
  Forall2 (λ v n, m !! n = Some (v, placeholder n)) values (holes ps) →
  Forall (piece_ok m) ps.
Proof.
  revert values.
  induction ps as [|[s|n] ps IH]; intros values Hp Hh; [constructor|..].
  - simpl in Hp. rewrite has_char_app in Hp.
    apply orb_false_iff in Hp as [Hs Hp].
    constructor; [|by eapply IH].
    split; [by apply plain_startswith|by apply plain_marker_free].
  - simpl in *. inversion Hh as [|v n' values' ns Hn Hrest]; simplify_eq.
    constructor; [|by eapply IH]. simpl. by eapply lookup_lt_Some.
Qed.

Lemma Forall2_lookup_functional m (xs ys : list L) (ns : list nat) :
  Forall2 (λ v n, m !! n = Some (v, placeholder n)) xs ns →
  Forall2 (λ v n, m !! n = Some (v, placeholder n)) ys ns →
  xs = ys.
Proof.
  intros Hx. revert ys.
  induction Hx as [|x n xs ns Hn _ IH]; intros ys Hy;
    inversion Hy as [|y n' ys' ns' Hn' Hy']; simplify_eq; [done|].
  f_equal. by apply IH.
Qed.

(** The materialize pass on a text that is staged for a map of a
    translation. *)
Lemma staged_as_materialize vs values s :
  staged_as (interned vs) values s →
  ∃ query,
    replace_literal_parameters s (interned vs) = Ok (query, values)
    ∧ count_char "?" query = length values.
Proof.
  intros (ps & -> & Hp & Hh).
  destruct (staged_tokens vs ps)
    as (t & ts & q & pars & Hsplit & Ht & Hrep & Hfin & Hpars);
    [by eapply staged_as_pieces_ok|].
  assert (pars = values) as -> by by eapply Forall2_lookup_functional.
  exists (final ps). split.
  - unfold replace_literal_parameters.
    rewrite Hsplit, replace_tokens_cons, Ht, Hrep. simpl. by rewrite Hfin.
  - rewrite count_final, (count_char_absent _ _ Hp).
    apply Forall2_length in Hh. lia.
Qed.

(** X17: the literal map after the translation of an expression.  When an
    expression is translated, the literal map is taken from the map of the
    values interned before to the map that has, in addition, the literal
    and parameter values of the expression interned in the order in which
    the translation meets them.  So every placeholder given before is still
    the placeholder of its value, and every value of the expression has a
    placeholder. *)
Theorem literal_map_after_expression e vs varmap s m' :
  expression_to_sql e (interned vs) varmap = Ok (s, m') →
  m' = interned (vs ++ literal_values e)
  ∧ (∀ v p, dict_get v (interned vs) = Some p → dict_get v m' = Some p)
  ∧ (∀ v, v ∈ literal_values e → is_Some (dict_get v m')).
Proof.
  intros Hsql. apply expression_translated in Hsql as [-> _].
  split_and!; [done|..].
  - intros v p Hget.
    destruct (interned_app vs (literal_values e)) as [k ->].
    by rewrite dict_get_app, Hget.
  - intros v Hv. apply interned_elem, elem_of_app. by right.
Qed.

(** X18: the parameters of a translated expression.  If the names that an
    expression and the variable map give to the text have no question mark,
    the materialize pass on the text of the expression, with the literal
    map that the translation returns, gives a query text and the literal
    and parameter values of the expression, one for each occurrence and in
    the order of the text; the query text has as many question marks as
    there are values. *)
Theorem expression_parameters e vs varmap s m' :
  plain_names e = true → plain_columns varmap →
  expression_to_sql e (interned vs) varmap = Ok (s, m') →
  ∃ query,
    replace_literal_parameters s m' = Ok (query, literal_values e)
    ∧ count_char "?" query = length (literal_values e).
Proof.
  intros Hp Hcols Hsql. apply expression_translated in Hsql as [-> Hst].
  by apply staged_as_materialize, Hst.
Qed.

End KypherTextFacts.

Lemma literal_map_after_expression_witness :
  [("loves", "???0??"); ("Hans", "???1??"); ("Susi", "???2??")]
  = interned (["loves"] ++ ["Hans"; "Susi"; "Hans"]).
Proof.
  set (e := Binary Or (Binary Eq (Var "a") (Literal "Hans"))
              (Binary And (Binary Eq (Var "a") (Literal "Susi"))
                          (Binary Eq (Var "b") (Literal "Hans")))).
  set (vm := {[ "a" := [("g_c1", "node1")]; "b" := [("g_c1", "node2")] ]}
             : gmap string (list Bindings.colref)).
  eapply proj1, (literal_map_after_expression (λ _, false) ∅ e ["loves"]
                   (Some vm)).
  reflexivity.
Defined.

Lemma expression_parameters_witness :
  ∃ query,
    replace_literal_parameters
      ("((g_c1." +:+ quoted "node1;name" +:+ " = ???0??) AND (g_c1."
         +:+ quoted "node2" +:+ " IN (???1??, ???0??)))")
      [("Hans", "???0??"); ("Susi", "???1??")]
    = Ok (query, ["Hans"; "Susi"; "Hans"])
    ∧ count_char "?" query = 3.
Proof.
  set (e := Binary And
              (Binary Eq (Expression2 (Var "a") [PropertyLookup "name"])
                         (Literal "Hans"))
              (Expression3 "in" (Var "b")
                           (List [Literal "Susi"; Literal "Hans"]))).
  set (vm := {[ "a" := [("g_c1", "node1")]; "b" := [("g_c1", "node2")] ]}
             : gmap string (list Bindings.colref)).
  apply (expression_parameters (λ _, false) ∅ e [] (Some vm)).
  - reflexivity.
  - intros vm' query_var sql_vars graph col [= <-] Hq Hin.
    apply lookup_insert_Some in Hq as [[_ <-]|[_ Hq]];
      [|apply lookup_singleton_Some in Hq as [_ <-]];
      apply list_elem_of_singleton in Hin; by simplify_eq.
  - reflexivity.
Defined.

End KypherTextFacts.

(** ** Order, return and match clauses *)

Module ClausesFacts.
Import Py PyFacts Literals LiteralsFacts LiteralMapFacts SplitFacts.
Import Bindings BindingsFacts Joined JoinedFacts.
Import Kypher KypherFacts KypherText KypherTextFacts Clauses.

Lemma and_or_empty c b : and_or c "" b = b.
Proof. unfold and_or. destruct c; [by rewrite decide_True|done]. Qed.

Lemma nonempty_length s : 0 < String.length s → s ≠ "".
Proof. intros Hlen ->. simpl in Hlen. lia. Qed.

Lemma join_app_head sep a b l :
  join sep ((a +:+ b) :: l) = a +:+ join sep (b :: l).
Proof. rewrite !join_cons. destruct l; [done|]. by rewrite append_assoc. Qed.

Lemma join_cons_cons sep a b l :
  join sep ((a +:+ sep +:+ b) :: l) = join sep (a :: b :: l).
Proof.
  rewrite <-append_assoc, join_app_head, (join_cons sep a (b :: l)).
  by rewrite append_assoc.
Qed.

(** One step of [zip_with] on two lists that are not empty. *)
Ltac zip_with_step x xs y ys :=
  lazymatch goal with
  | |- context [zip_with ?f (x :: xs) (y :: ys)] =>
      change (zip_with f (x :: xs) (y :: ys))
        with (f x y :: zip_with f xs ys);
      cbv beta
  end.

Section ClausesFacts.

Context {L : Type} `{EqDecision L}.
Variable is_user_function : string → bool.
Variable parameters : gmap string L.
Variable has_aggregate_call : @expr L → bool.

#[local] Abbreviation lookup_property :=
  (Kypher.lookup_property is_user_function).
#[local] Abbreviation lookup_chain := (Kypher.lookup_chain is_user_function).
#[local] Abbreviation expression_to_sql :=
  (Kypher.expression_to_sql (L:=L) is_user_function parameters).
#[local] Abbreviation order_clause_to_sql :=
  (Clauses.order_clause_to_sql (L:=L) is_user_function parameters).
#[local] Abbreviation return_items_to_sql :=
  (Kypher.return_items_to_sql (L:=L) is_user_function parameters
     has_aggregate_call).
#[local] Abbreviation return_clause_to_sql_selection :=
  (Kypher.return_clause_to_sql_selection (L:=L) is_user_function parameters
     has_aggregate_call).

Implicit Types (e : @expr L) (m : @litmap L) (vs : list L).
Implicit Types (t : @translation L) (p : @pattern L).

(** X19: the direction of a sort item is always written.  The text of an
    order clause is [ORDER BY] and, separated by commas, the text of each
    sort expression followed by a space and the direction in upper case;
    an ascending direction is written like any other. *)
Theorem order_direction_always_written (sort_items : list sort_item) m
    varmap :
  order_clause_to_sql (Some sort_items) m varmap
  = '(exprs, m') ←
      translate_each
        (λ sort_item m,
           expression_to_sql (sort_expression sort_item) m varmap)
        sort_items m;
    Ok (Some ("ORDER BY "
              +:+ join ", "
                    (zip_with (λ expr sort_item,
                                 expr +:+ " " +:+ upper (direction sort_item))
                              exprs sort_items)), m').
Proof.
  unfold Clauses.order_clause_to_sql.
  match goal with
  | |- (translate_each ?F _ _ ≫= _) = (translate_each ?G _ _ ≫= _) =>
      assert (∀ m,
                translate_each F sort_items m
                = '(exprs, m') ← translate_each G sort_items m;
                  Ok (zip_with (λ expr sort_item,
                                  expr +:+ " "
                                  +:+ upper (direction sort_item))
                               exprs sort_items, m')) as Heach
  end.
  { clear m. induction sort_items as [|sort_item rest IH]; intros m; [done|].
    simpl.
    destruct (expression_to_sql (sort_expression sort_item) m varmap)
      as [[expr m1]|]; simpl; [|done].
    rewrite and_or_empty, IH.
    by destruct (translate_each _ rest m1) as [[exprs m2]|]. }
  rewrite Heach. by destruct (translate_each _ sort_items m) as [[exprs m2]|].
Qed.

Lemma lookup_property_nonempty var prop : lookup_property var prop ≠ "".
Proof.
  unfold Kypher.lookup_property.
  destruct (_ && _); [|destruct (endswith _ _)];
    apply nonempty_length; rewrite !append_length; simpl; lia.
Qed.

Lemma lookup_chain_nonempty var arg2 var' :
  var ≠ "" → lookup_chain var arg2 = Some var' → var' ≠ "".
Proof.
  revert var. induction arg2 as [|[prop|] rest IH]; intros var Hvar Hc.
  - by injection Hc as <-.
  - simpl in Hc. eapply IH; [|done]. apply lookup_property_nonempty.
  - done.
Qed.

Lemma variable_text_nonempty query_var m varmap s m' :
  expression_to_sql (Var query_var) m varmap = Ok (s, m') → s ≠ "".
Proof.
  simpl. destruct varmap as [vm|]; [|done].
  case_decide as Hstar; [subst; by intros [= <- <-]|].
  destruct (vm !! query_var) as [[|[graph col] rest]|]; try done.
  intros [= <- <-]. apply nonempty_length. rewrite !append_length. simpl. lia.
Qed.

(** With the literal map of a translation, the text of an expression is
    not empty. *)
Lemma expression_text_nonempty e vs varmap s m' :
  expression_to_sql e (interned vs) varmap = Ok (s, m') → s ≠ "".
Proof.
  destruct e as [value|name|query_var|elements|arg|op arg1 arg2|? ?|arg|? ?|
                |function args distinct|arg1 arg2|operator arg1 arg2|];
    intros Hsql; try done.
  - simpl in Hsql. destruct (get_literal_parameter_interned vs value)
      as (n & Hn & _).
    rewrite Hn in Hsql. injection Hsql as <- <-.
    apply nonempty_length. unfold placeholder. rewrite !append_length.
    simpl. lia.
  - simpl in Hsql. unfold get_parameter_value in Hsql.
    destruct (parameters !! name) as [value|]; simpl in Hsql; [|done].
    destruct (get_literal_parameter_interned vs value) as (n & Hn & _).
    rewrite Hn in Hsql. injection Hsql as <- <-.
    apply nonempty_length. unfold placeholder. rewrite !append_length.
    simpl. lia.
  - by eapply variable_text_nonempty.
  - simpl in Hsql. destruct (translate_each _ _ _) as [[ss m1]|];
      simpl in Hsql; [|done].
    injection Hsql as <- <-. apply nonempty_length.
    rewrite !append_length. simpl. lia.
  - simpl in Hsql. destruct (expression_to_sql arg _ _) as [[a m1]|];
      simpl in Hsql; [|done].
    injection Hsql as <- <-. apply nonempty_length.
    rewrite !append_length. simpl. lia.
  - simpl in Hsql. destruct (expression_to_sql arg1 _ _) as [[a1 m1]|];
      simpl in Hsql; [|done].
    destruct (expression_to_sql arg2 _ _) as [[a2 m2]|];
      simpl in Hsql; [|done].
    injection Hsql as <- <-. apply nonempty_length.
    rewrite !append_length. simpl. lia.
  - simpl in Hsql. destruct (expression_to_sql arg _ _) as [[a m1]|];
      simpl in Hsql; [|done].
    injection Hsql as <- <-. apply nonempty_length.
    rewrite !append_length. simpl. lia.
  - simpl in Hsql. case_decide.
    + destruct args as [|arg0 [|[] [|]]]; try done.
      destruct (expression_to_sql arg0 _ _) as [[a m1]|];
        simpl in Hsql; [|done].
      injection Hsql as <- <-. apply nonempty_length.
      rewrite !append_length. simpl. lia.
    + destruct (translate_each _ _ _) as [[ss m1]|]; simpl in Hsql; [|done].
      injection Hsql as <- <-. apply nonempty_length.
      rewrite !append_length. simpl. lia.
  - destruct arg1 as [?|?|query_var|?|?|? ? ?|? ?|?|? ?| |? ? ?|? ?|? ? ?|];
      try done.
    rewrite expression2_variable in Hsql.
    destruct (expression_to_sql (Var query_var) _ _) as [[var m1]|] eqn:Hvar;
      simpl in Hsql; [|done].
    apply variable_text_nonempty in Hvar.
    destruct (lookup_chain var arg2) as [var'|] eqn:Hchain; [|done].
    injection Hsql as <- <-. by eapply lookup_chain_nonempty.
  - rewrite expression3_operator in Hsql.
    destruct (contains (upper operator) "IN");
      [|destruct (contains (upper operator) "REGEX")].
    all: destruct (expression_to_sql arg1 _ _) as [[a1 m1]|];
      simpl in Hsql; [|done].
    all: destruct (expression_to_sql arg2 _ _) as [[a2 m2]|];
      simpl in Hsql; [|done].
    all: try done.
    all: injection Hsql as <- <-; apply nonempty_length;
      rewrite !append_length; simpl; lia.
Qed.

(** The text of a return item: the text of its expression, followed for an
    item with an alias by a space and the quoted alias. *)
Lemma return_items_rest (items : list return_item) :
  ∀ select agg_info vs varmap select' agg_info' m',
    return_items_to_sql items select false agg_info (interned vs) varmap
      = Ok (select', agg_info', m') →
    ∃ exprs,
      translate_each (λ item m, expression_to_sql (expression item) m varmap)
                     items (interned vs) = Ok (exprs, m')
      ∧ select'
        = join ", "
            (select
             :: zip_with (λ expr item,
                            match name item with
                            | Some item_name =>
                                expr +:+ " " +:+ sql_quote_ident item_name
                            | None => expr
                            end) exprs items).
Proof.
  induction items as [|item rest IH];
    intros select agg_info vs varmap select' agg_info' m' Hret.
  { injection Hret as <- <- <-. by exists []. }
  simpl in Hret.
  destruct (expression_to_sql (expression item) (interned vs) varmap)
    as [[expr m1]|] eqn:Hexpr; simpl in Hret; [|done].
  pose proof Hexpr as Hm1. apply expression_translated in Hm1 as [-> _].
  destruct (name item) as [item_name|] eqn:Hname;
    apply IH in Hret as (exprs & Heach & ->);
    exists (expr :: exprs);
    (split; [simpl; by rewrite Hexpr; simpl; rewrite Heach|]);
    zip_with_step expr exprs item rest; rewrite Hname;
    unfold first_or_comma.
  - by rewrite append_assoc, append_assoc, <-(append_assoc expr),
      join_cons_cons.
  - by rewrite join_cons_cons.
Qed.

(** X20: the select list.  The selection text of a return clause that is
    translated with the literal map of a translation is [DISTINCT] for a
    distinct clause and then, separated by commas and in the order of the
    items, the text of each item: the text of its expression, followed for
    an item with an alias by a space and the quoted alias. *)
Theorem select_list (clause : return_clause) vs varmap select group_by m' :
  return_clause_to_sql_selection clause (interned vs) varmap
    = Ok (select, group_by, m') →
  ∃ exprs,
    translate_each (λ item m, expression_to_sql (expression item) m varmap)
                   (items clause) (interned vs) = Ok (exprs, m')
    ∧ select
      = (if distinct clause then "DISTINCT " else "")
        +:+ join ", "
              (zip_with (λ expr item,
                           match name item with
                           | Some item_name =>
                               expr +:+ " " +:+ sql_quote_ident item_name
                           | None => expr
                           end) exprs (items clause)).
Proof.
  unfold Kypher.return_clause_to_sql_selection.
  destruct (return_items_to_sql (items clause) _ true [] (interned vs) varmap)
    as [[[select1 agg_info] m1]|] eqn:Hret; simpl; [|done].
  intros [= <- <- <-]. destruct (items clause) as [|item rest].
  { injection Hret as <- <- <-. exists []. by rewrite append_nil_r. }
  simpl in Hret.
  destruct (expression_to_sql (expression item) (interned vs) varmap)
    as [[expr m2]|] eqn:Hexpr; simpl in Hret; [|done].
  pose proof (expression_text_nonempty _ _ _ _ _ Hexpr) as Hne.
  pose proof Hexpr as Hm2. apply expression_translated in Hm2 as [-> _].
  unfold first_or_comma in Hret. rewrite decide_False in Hret by done.
  destruct (name item) as [item_name|] eqn:Hname;
    apply return_items_rest in Hret as (exprs & Heach & ->);
    exists (expr :: exprs);
    (split; [simpl; by rewrite Hexpr; simpl; rewrite Heach|]);
    zip_with_step expr exprs item rest; rewrite Hname.
  - by rewrite append_assoc, join_app_head.
  - by rewrite join_app_head.
Qed.

End ClausesFacts.

Lemma reorders_id : reorders id.
Proof.
  intros st. split; [done|]. intros query_var. simpl.
  by destruct (varmap st !! query_var); constructor.
Qed.

Section PatternFacts.

Context {L : Type} `{EqDecision L}.
Variable iteration : state → state.
Hypothesis iteration_reorders : reorders iteration.

#[local] Abbreviation register_named :=
  (Clauses.register_named (L:=L) iteration).
#[local] Abbreviation pattern_clause_to_sql :=
  (Clauses.pattern_clause_to_sql (L:=L) iteration).

Implicit Types (t : @translation L) (p : @pattern L) (vs : list L).

Lemma reachable_iteration (st : state) :
  reachable st → reachable (iteration st).
Proof.
  intros Hst. destruct (iteration_reorders st) as [Hjoins Hvarmap].
  destruct (iteration st) as [vm js]. simpl in *. subst js.
  by apply reachable_reorder.
Qed.

Lemma bound_iteration (st : state) q x :
  bound st q x → bound (iteration st) q x.
Proof.
  intros (sql_vars & Hq & Hx).
  destruct (iteration_reorders st) as [_ Hvarmap]. specialize (Hvarmap q).
  rewrite Hq in Hvarmap.
  inversion Hvarmap as [l l' Hperm Hl Hl'|]; simplify_eq.
  exists l. split; [done|]. by rewrite Hperm.
Qed.

Lemma bound_mono (st st' : state) :
  (∀ q sql_vars x,
     varmap st !! q = Some sql_vars → x ∈ sql_vars →
     ∃ sql_vars', varmap st' !! q = Some sql_vars' ∧ x ∈ sql_vars') →
  ∀ q x, bound st q x → bound st' q x.
Proof. intros Hgrow q x (sql_vars & Hq & Hx). by eapply Hgrow. Qed.

(** The restriction that a label adds. *)
Lemma restrict_label_ok p graph col t vs :
  literals t = interned vs → labels p ≠ Some [] →
  ∃ t',
    restrict_label p graph col t = Ok t'
    ∧ bindings t' = bindings t
    ∧ literals t' = interned (vs ++ label_values p)
    ∧ restrictions t ⊆ restrictions t'
    ∧ (∀ label, label ∈ label_values p →
         ∃ para, dict_get label (literals t') = Some para
                 ∧ ((graph, col), para) ∈ restrictions t').
Proof.
  destruct t as [m st rs]. simpl. intros -> Hlabels.
  unfold restrict_label, label_values.
  destruct (labels p) as [[|label ls]|]; [done|..]; simpl.
  - destruct (get_literal_parameter_interned vs label) as (n & -> & Hlook).
    eexists. split; [done|]. simpl. split_and!; [done..|set_solver|].
    intros l ->%list_elem_of_singleton. exists (placeholder n).
    split; [|set_solver].
    destruct (interned_minted (vs ++ [label])) as [_ Hnd].
    by eapply dict_get_lookup.
  - exists (Translation (interned vs) st rs). rewrite app_nil_r.
    split_and!; [done..|]. by intros l ?%elem_of_nil.
Qed.

(** The registration of a named variable. *)
Lemma register_named_ok p graph col t :
  reachable (bindings t) →
  ∃ t',
    register_named p graph col t = Ok t'
    ∧ reachable (bindings t')
    ∧ literals t' = literals t
    ∧ restrictions t' = restrictions t
    ∧ (∀ q x, bound (bindings t) q x → bound (bindings t') q x)
    ∧ (∀ name, variable p = Some (NamedVariable name) →
               bound (bindings t') name (graph, col))
    ∧ ((∀ name, variable p ≠ Some (NamedVariable name)) →
       bindings t' = bindings t).
Proof.
  intros Hst. pose proof (reachable_iteration _ Hst) as Hiter.
  unfold Clauses.register_named.
  destruct (variable p) as [[name|name]|].
  - destruct (register_grows (iteration (bindings t)) name (graph, col) Hiter)
      as (st' & -> & Hst' & Hbound & Hgrow).
    eexists. split; [done|]. simpl. split_and!; [done..| | |].
    + intros q x Hq%bound_iteration. revert q x Hq. by apply bound_mono.
    + by intros ? [= <-].
    + intros Hnone. by destruct (Hnone name).
  - exists t. split_and!; done.
  - exists t. split_and!; done.
Qed.

(** The six steps of the translation of a match clause: a restriction for
    the label and a registration of the variable, for the first node, the
    second node and the relationship. *)
Ltac pattern_clause_steps node1 rel node2 graph t vs Hst Hlit Hl1 Hl2 Hl3 :=
  destruct (restrict_label_ok node1 graph "node1" t vs Hlit Hl1)
    as (t1 & E1 & Hb1 & Hlit1 & Hr1 & Hlab1);
  assert (reachable (bindings t1)) as Hst1 by (by rewrite Hb1);
  destruct (register_named_ok node1 graph "node1" t1 Hst1)
    as (t2 & E2 & Hst2 & Hlit2 & Hr2 & Hgrow2 & Hvar2 & Hsame2);
  rewrite Hlit1 in Hlit2;
  destruct (restrict_label_ok node2 graph "node2" t2 _ Hlit2 Hl2)
    as (t3 & E3 & Hb3 & Hlit3 & Hr3 & Hlab3);
  assert (reachable (bindings t3)) as Hst3 by (by rewrite Hb3);
  destruct (register_named_ok node2 graph "node2" t3 Hst3)
    as (t4 & E4 & Hst4 & Hlit4 & Hr4 & Hgrow4 & Hvar4 & Hsame4);
  rewrite Hlit3 in Hlit4;
  destruct (restrict_label_ok rel graph "label" t4 _ Hlit4 Hl3)
    as (t5 & E5 & Hb5 & Hlit5 & Hr5 & Hlab5);
  assert (reachable (bindings t5)) as Hst5 by (by rewrite Hb5);
  destruct (register_named_ok rel graph "id" t5 Hst5)
    as (t6 & E6 & Hst6 & Hlit6 & Hr6 & Hgrow6 & Hvar6 & Hsame6);
  rewrite Hlit5 in Hlit6;
  assert (Clauses.pattern_clause_to_sql iteration (node1, rel, node2) graph t
          = Ok t6) as Hsql
    by (unfold Clauses.pattern_clause_to_sql, get_node1_column,
          get_node2_column, get_label_column, get_id_column;
        rewrite E1; simpl; rewrite E2; simpl; rewrite E3; simpl;
        rewrite E4; simpl; by rewrite E5).

(** X21: the variables of a match clause.  In a state of a translation,
    and with no label list empty, the translation of a match clause does
    not raise and leaves a state of a translation.  Afterwards each named
    variable of the clause has the column of its place among its
    references: [node1] for the first node, [node2] for the second, [id]
    for the relationship; no reference that was there is lost; and a clause
    whose variables are all absent or anonymous leaves the variable map and
    the joins as they are. *)
Theorem pattern_clause_binds (node1 rel node2 : pattern) graph t vs :
  reachable (bindings t) → literals t = interned vs →
  labels node1 ≠ Some [] → labels node2 ≠ Some [] → labels rel ≠ Some [] →
  ∃ t',
    pattern_clause_to_sql (node1, rel, node2) graph t = Ok t'
    ∧ reachable (bindings t')
    ∧ (∀ q x, bound (bindings t) q x → bound (bindings t') q x)
    ∧ (∀ p col name,
         (p, col) ∈ [(node1, "node1"); (node2, "node2"); (rel, "id")] →
         variable p = Some (NamedVariable name) →
         bound (bindings t') name (graph, col))
    ∧ ((∀ p name, p ∈ [node1; node2; rel] →
                  variable p ≠ Some (NamedVariable name)) →
       bindings t' = bindings t).
Proof.
  intros Hst Hlit Hl1 Hl2 Hl3.
  pattern_clause_steps node1 rel node2 graph t vs Hst Hlit Hl1 Hl2 Hl3.
  rewrite Hb1 in Hgrow2. rewrite Hb3 in Hgrow4. rewrite Hb5 in Hgrow6.
  exists t6. split_and!; [done..| | |].
  - intros q x Hq. by apply Hgrow6, Hgrow4, Hgrow2.
  - intros p col name Hin Hp.
    repeat (apply elem_of_cons in Hin as [[= -> ->]|Hin]).
    + by apply Hgrow6, Hgrow4, Hvar2.
    + by apply Hgrow6, Hvar4.
    + by apply Hvar6.
    + by apply elem_of_nil in Hin.
  - intros Hnone.
    rewrite Hsame6, Hb5, Hsame4, Hb3, Hsame2, Hb1; [done|..];
      intros name; apply Hnone; by repeat constructor.
Qed.

(** X22: the labels of a match clause.  Under the same conditions, the
    literal map has in addition the first label of each labelled pattern
    interned, in the order first node, second node, relationship; no
    restriction is lost; and for each labelled pattern the restrictions
    hold the pair of its column, [node1], [node2] or [label], and the
    placeholder that the literal map has for its first label. *)
Theorem pattern_clause_restricts (node1 rel node2 : pattern) graph t vs :
  reachable (bindings t) → literals t = interned vs →
  labels node1 ≠ Some [] → labels node2 ≠ Some [] → labels rel ≠ Some [] →
  ∃ t',
    pattern_clause_to_sql (node1, rel, node2) graph t = Ok t'
    ∧ literals t'
      = interned (vs ++ label_values node1 ++ label_values node2
                     ++ label_values rel)
    ∧ restrictions t ⊆ restrictions t'
    ∧ (∀ p col label,
         (p, col) ∈ [(node1, "node1"); (node2, "node2"); (rel, "label")] →
         label ∈ label_values p →
         ∃ para, dict_get label (literals t') = Some para
                 ∧ ((graph, col), para) ∈ restrictions t').
Proof.
  intros Hst Hlit Hl1 Hl2 Hl3.
  pattern_clause_steps node1 rel node2 graph t vs Hst Hlit Hl1 Hl2 Hl3.
  assert (restrictions t1 ⊆ restrictions t6) as Hr16.
  { rewrite Hr6. etrans; [|exact Hr5]. rewrite Hr4. etrans; [|exact Hr3].
    by rewrite Hr2. }
  assert (restrictions t3 ⊆ restrictions t6) as Hr36.
  { rewrite Hr6. etrans; [|exact Hr5]. by rewrite Hr4. }
  assert (restrictions t5 ⊆ restrictions t6) as Hr56 by by rewrite Hr6.
  assert (∀ (us ws : list L) label para,
            dict_get label (interned us) = Some para →
            dict_get label (interned (us ++ ws)) = Some para) as Hstable.
  { intros us ws label para Hget. destruct (interned_app us ws) as [k ->].
    by rewrite dict_get_app, Hget. }
  exists t6. split_and!; [done| | |].
  - by rewrite Hlit6, <-!app_assoc.
  - by etrans.
  - intros p col label Hin Hlabel.
    repeat (apply elem_of_cons in Hin as [[= -> ->]|Hin]).
    + destruct (Hlab1 label Hlabel) as (para & Hget & Hres).
      exists para. split; [|by apply Hr16].
      rewrite Hlit1 in Hget. rewrite Hlit6, <-app_assoc. by apply Hstable.
    + destruct (Hlab3 label Hlabel) as (para & Hget & Hres).
      exists para. split; [|by apply Hr36].
      rewrite Hlit3 in Hget. rewrite Hlit6. by apply Hstable.
    + destruct (Hlab5 label Hlabel) as (para & Hget & Hres).
      exists para. split; [|by apply Hr56].
      by rewrite Hlit5, <-Hlit6 in Hget.
    + by apply elem_of_nil in Hin.
Qed.

End PatternFacts.

Lemma select_list_witness :
  let clause :=
    Return true [ReturnItem (Var "a") None;
                 ReturnItem (Call "count" [Var "b"] false) (Some "n")] in
  let vm : gmap string (list Bindings.colref) :=
    {[ "a" := [("g_c1", "node1")]; "b" := [("g_c1", "node2")] ]} in
  ∃ exprs,
    translate_each
      (λ item m,
         Kypher.expression_to_sql (L:=string) (λ _, false) ∅
           (expression item) m (Some vm))
      (items clause) (interned []) = Ok (exprs, [])
    ∧ "DISTINCT g_c1." +:+ quoted "node1" +:+ ", count(g_c1."
        +:+ quoted "node2" +:+ ") " +:+ quoted "n"
      = (if distinct clause then "DISTINCT " else "")
        +:+ join ", "
              (zip_with (λ expr item,
                           match name item with
                           | Some item_name =>
                               expr +:+ " " +:+ sql_quote_ident item_name
                           | None => expr
                           end) exprs (items clause)).
Proof.
  intros clause vm.
  apply (select_list (λ _, false) ∅
           (λ e, match e with Call _ _ _ => true | _ => false end)
           clause [] (Some vm) _
           (Some ("GROUP BY " +:+ "g_c1." +:+ quoted "node1"))).
  reflexivity.
Defined.

Lemma pattern_clause_binds_witness :
  let node : @pattern string := Pattern false None None (Some (NamedVariable "a")) None in
  let rel : @pattern string :=
    Pattern true None (Some ["loves"]) (Some (AnonymousVariable "_x1"))
            None in
  let t : @translation string := Translation [] initial ∅ in
  ∃ t',
    pattern_clause_to_sql id (node, rel, node) "g_c1" t = Ok t'
    ∧ bound (bindings t') "a" ("g_c1", "node1")
    ∧ bound (bindings t') "a" ("g_c1", "node2").
Proof.
  intros node rel t.
  destruct (pattern_clause_binds id reorders_id node rel node "g_c1" t [])
    as (t' & Hsql & _ & _ & Hbound & _);
    [apply reachable_initial|reflexivity|discriminate..|].
  exists t'. split; [done|]. split.
  - apply (Hbound node "node1" "a"); [by left|reflexivity].
  - apply (Hbound node "node2" "a"); [by right; left|reflexivity].
Defined.

Lemma pattern_clause_restricts_witness :
  let node : @pattern string := Pattern false None None (Some (NamedVariable "a")) None in
  let rel : @pattern string :=
    Pattern true None (Some ["loves"]) (Some (AnonymousVariable "_x1"))
            None in
  let t : @translation string := Translation [] initial ∅ in
  ∃ t',
    pattern_clause_to_sql id (node, rel, node) "g_c1" t = Ok t'
    ∧ literals t' = [("loves", "???0??")]
    ∧ (("g_c1", "label"), "???0??") ∈ restrictions t'.
Proof.
  intros node rel t.
  destruct (pattern_clause_restricts id reorders_id node rel node "g_c1" t [])
    as (t' & Hsql & Hlit & _ & Hlabels);
    [apply reachable_initial|reflexivity|discriminate..|].
  exists t'. split; [done|]. split; [done|].
  destruct (Hlabels rel "label" "loves") as (para & Hget & Hin);
    [by do 2 right; left|by left|].
  rewrite Hlit in Hget. by injection Hget as <-.
Defined.

End ClausesFacts.

(** ** The properties of match clauses *)

Module PropsFacts.
Import Py PyFacts Literals LiteralsFacts LiteralMapFacts.
Import Bindings BindingsFacts Joined JoinedFacts.
Import Kypher KypherFacts KypherText KypherTextFacts Clauses ClausesFacts.

Section PropsFacts.

Context {L : Type} `{EqDecision L}.
Variable is_user_function : string → bool.
Variable parameters : gmap string L.
Variable iteration : state → state.
Hypothesis iteration_reorders : reorders iteration.

#[local] Abbreviation expression_to_sql :=
  (Kypher.expression_to_sql (L:=L) is_user_function parameters).
#[local] Abbreviation props_to_sql :=
  (Clauses.props_to_sql (L:=L) is_user_function parameters iteration).
#[local] Abbreviation pattern_props_to_sql :=
  (Clauses.pattern_props_to_sql (L:=L) is_user_function parameters
     iteration).
#[local] Abbreviation property_values :=
  (Clauses.property_values (L:=L) parameters).

Implicit Types (t : @translation L) (p : @pattern L) (vs : list L).
Implicit Types (props : list (string * @expr L)).

Lemma interned_stable (us ws : list L) value para :
  dict_get value (interned us) = Some para →
  dict_get value (interned (us ++ ws)) = Some para.
Proof.
  intros Hget. destruct (interned_app us ws) as [k ->].
  by rewrite dict_get_app, Hget.
Qed.

Lemma bind_Ok_l {A B} (a : A) (f : A → result B) : Ok a ≫= f = f a.
Proof. reflexivity. Qed.

(** A variable that has a reference is translated. *)
Lemma bound_variable_translates (st : state) name sql_var m :
  bound st name sql_var →
  ∃ s, expression_to_sql (Var name) m (Some (varmap st)) = Ok (s, m).
Proof.
  intros (sql_vars & Hname & Hin). simpl. case_decide; [by eauto|].
  unfold colref in *. rewrite Hname.
  destruct sql_vars as [|[graph col] rest]; [|by eauto].
  by apply elem_of_nil in Hin.
Qed.

(** The loop over the properties, for values that are literals or
    variables. *)
Lemma props_to_sql_ok p graph column props :
  Forall (λ pe, (∃ value, pe.2 = Literal value) ∨ (∃ name, pe.2 = Var name))
         props →
  ∀ t vs,
    reachable (bindings t) → literals t = interned vs →
    ∃ t',
      props_to_sql p graph column props t = Ok t'
      ∧ reachable (bindings t')
      ∧ (∀ q x, bound (bindings t) q x → bound (bindings t') q x)
      ∧ (∀ prop name,
           (prop, Var name) ∈ props →
           bound (bindings t') name (graph, property_column p column prop))
      ∧ literals t' = interned (vs ++ property_values props)
      ∧ restrictions t ⊆ restrictions t'
      ∧ (∀ prop value,
           (prop, Literal value) ∈ props →
           ∃ para,
             dict_get value (literals t') = Some para
             ∧ ((graph, property_column p column prop), para)
               ∈ restrictions t').
Proof.
  induction 1 as [|[prop e] props Hsimple _ IH]; intros t vs Hst Hlit.
  { exists t. unfold Clauses.property_values. simpl. rewrite app_nil_r.
    split_and!; [done|done|auto| |done|done|];
      by intros ? ? ?%elem_of_nil. }
  destruct t as [m st rs]. simpl in Hst, Hlit. subst m.
  destruct Hsimple as [[value Hvalue]|[name Hname]]; simpl in *; subst e.
  - simpl.
    destruct (get_literal_parameter_interned vs value) as (n & -> & Hlook).
    destruct (IH (Translation (interned (vs ++ [value])) st
                    ({[ ((graph, property_column p column prop),
                         placeholder n) ]} ∪ rs))
                 (vs ++ [value]) Hst eq_refl)
      as (t' & -> & Hst' & Hkeep & Hvars & Hlit' & Hres & Hlits).
    exists t'. split; [done|]. split; [done|]. simpl in *.
    split_and!; [done| | | |].
    + intros prop' name [[=]|Hin]%elem_of_cons. by apply Hvars.
    + rewrite Hlit'. unfold Clauses.property_values. simpl.
      by rewrite <-app_assoc.
    + etrans; [|exact Hres]. apply union_subseteq_r.
    + intros prop' value' [[= -> ->]|Hin]%elem_of_cons; [|by apply Hlits].
      exists (placeholder n). split.
      * rewrite Hlit'. apply interned_stable.
        destruct (interned_minted (vs ++ [value])) as [_ Hnd].
        by eapply dict_get_lookup.
      * apply Hres, elem_of_union_l. by apply elem_of_singleton.
  - simpl.
    destruct (register_grows (iteration st) name
                (graph, property_column p column prop)
                (reachable_iteration iteration iteration_reorders st Hst))
      as (st' & -> & Hst' & Hbound & Hgrow).
    simpl.
    destruct (bound_variable_translates (iteration st') name _ (interned vs)
                (bound_iteration iteration iteration_reorders _ _ _ Hbound))
      as [s Hs].
    simpl in Hs. rewrite Hs. simpl.
    destruct (IH (Translation (interned vs) st'
                    ({[ ((graph, property_column p column prop), s) ]} ∪ rs))
                 vs Hst' eq_refl)
      as (t' & -> & Hst'' & Hkeep & Hvars & Hlit' & Hres & Hlits).
    exists t'. split; [done|]. split; [done|]. simpl in *.
    split_and!; [| |done| |].
    + intros q x Hq. apply Hkeep, (bound_mono (iteration st) st'); [done|].
      by apply bound_iteration.
    + intros prop' name' [[= -> ->]|Hin]%elem_of_cons; [|by apply Hvars].
      by apply Hkeep.
    + etrans; [|exact Hres]. apply union_subseteq_r.
    + intros prop' value [[=]|Hin]%elem_of_cons. by apply Hlits.
Qed.

(** X23: the properties of a pattern.  In a state of a translation, for a
    pattern with a variable and with properties whose values are literals
    or variables, the translation of the properties does not raise and
    leaves a state of a translation.  Afterwards the variable of the
    pattern, anonymous or not, has the column of the pattern among its
    references; each variable that is the value of a property has the
    column of that property among its references; the literal map has in
    addition the literal values interned in the order of the properties;
    no reference and no restriction is lost; and for each property with a
    literal value the restrictions hold the pair of the property column and
    the placeholder of the value. *)
Theorem pattern_props_binds p v props graph column t vs :
  reachable (bindings t) → literals t = interned vs →
  variable p = Some v → properties p = Some props → props ≠ [] →
  Forall (λ pe, (∃ value, pe.2 = Literal value) ∨ (∃ name, pe.2 = Var name))
         props →
  ∃ t',
    pattern_props_to_sql p graph column t = Returns t'
    ∧ reachable (bindings t')
    ∧ bound (bindings t') (variable_name v) (graph, column)
    ∧ (∀ q x, bound (bindings t) q x → bound (bindings t') q x)
    ∧ (∀ prop name,
         (prop, Var name) ∈ props →
         bound (bindings t') name (graph, property_column p column prop))
    ∧ literals t' = interned (vs ++ property_values props)
    ∧ restrictions t ⊆ restrictions t'
    ∧ (∀ prop value,
         (prop, Literal value) ∈ props →
         ∃ para,
           dict_get value (literals t') = Some para
           ∧ ((graph, property_column p column prop), para)
             ∈ restrictions t').
Proof.
  intros Hst Hlit Hv Hprops Hne Hsimple.
  destruct (register_grows (iteration (bindings t)) (variable_name v)
              (graph, column)
              (reachable_iteration iteration iteration_reorders _ Hst))
    as (st' & Hreg & Hst' & Hbound & Hgrow).
  destruct (props_to_sql_ok p graph column props Hsimple
              (Translation (literals t) st' (restrictions t)) vs Hst' Hlit)
    as (t' & Hloop & Hst'' & Hkeep & Hvars & Hlit' & Hres & Hlits).
  exists t'. simpl in Hkeep, Hres. split_and!; [|done| | |done..].
  - unfold Clauses.pattern_props_to_sql. rewrite Hprops, Hv, Hreg.
    destruct props; [done|]. rewrite bind_Ok_l. by rewrite Hloop.
  - by apply Hkeep.
  - intros q x Hq.
    apply Hkeep, (bound_mono (iteration (bindings t)) st'); [done|].
    by apply bound_iteration.
Qed.

End PropsFacts.

Lemma pattern_props_binds_witness :
  let p : @pattern string :=
    Pattern false None None (Some (AnonymousVariable "_x1"))
            (Some [("name", Literal "Hans"); ("nick", Var "b")]) in
  let t : @translation string := Translation [] initial ∅ in
  ∃ t',
    Clauses.pattern_props_to_sql (λ _, false) ∅ id p "g_c1" "node1" t
      = Returns t'
    ∧ bound (bindings t') "_x1" ("g_c1", "node1")
    ∧ bound (bindings t') "b" ("g_c1", "node1;nick")
    ∧ literals t' = [("Hans", "???0??")]
    ∧ (("g_c1", "node1;name"), "???0??") ∈ restrictions t'.
Proof.
  intros p t.
  destruct (pattern_props_binds (λ _, false) ∅ id reorders_id p
              (AnonymousVariable "_x1")
              [("name", Literal "Hans"); ("nick", Var "b")]
              "g_c1" "node1" t [])
    as (t' & Hsql & _ & Hvar & _ & Hvars & Hlit & _ & Hlits);
    [apply reachable_initial|reflexivity..|discriminate| |].
  { apply Forall_cons. split; [left; by eexists|].
    apply Forall_cons. split; [right; by eexists|]. constructor. }
  exists t'. split; [done|]. split; [done|]. split_and!.
  - apply (Hvars "nick" "b"). right. left.
  - done.
  - destruct (Hlits "name" "Hans") as (para & Hget & Hin); [left|].
    rewrite Hlit in Hget. by injection Hget as <-.
Defined.

End PropsFacts.

(** ** The translation of a query *)

Module TranslateFacts.
Import Py PyFacts Literals LiteralsFacts LiteralMapFacts SplitFacts.
Import HandlesFacts Bindings BindingsFacts Joined JoinedFacts.
Import Kypher KypherFacts KypherText KypherTextFacts.
Import Clauses ClausesFacts PropsFacts Translate.

(** *** Replacing a text without question mark *)

Lemma prefix_before_qmark old u r :
  has_char "?" old = false →
  String.prefix old (u +:+ String "?" r) = String.prefix old u.
Proof.
  revert u. induction old as [|a old IH]; intros u Hold.
  { by rewrite !prefix_nil. }
  simpl in Hold. destruct (decide (a = "?"%char)) as [|Ha]; [done|].
  destruct u as [|c u].
  - rewrite append_nil_l, prefix_cons.
    by destruct (ascii_dec a "?").
  - rewrite append_cons, !prefix_cons.
    destruct (ascii_dec a c); [by apply IH|done].
Qed.

Lemma replace_go_nil old new k : replace_go old new k "" = "".
Proof. by destruct k. Qed.

Lemma replace_go_0 old new c r :
  replace_go old new 0 (String c r)
  = if String.prefix old (String c r)
    then new +:+ replace_go old new (String.length old - 1) r
    else String c (replace_go old new 0 r).
Proof. reflexivity. Qed.

(** An occurrence does not reach over a question mark. *)
Lemma replace_go_qmark old new u k r :
  has_char "?" old = false → old ≠ "" → k ≤ String.length u →
  replace_go old new k (u +:+ String "?" r)
  = replace_go old new k u +:+ String "?" (replace_go old new 0 r).
Proof.
  intros Hold Hne. revert k. induction u as [|c u IH]; intros k Hk.
  - simpl in Hk. assert (k = 0) as -> by lia.
    rewrite append_nil_l, replace_go_0, replace_go_nil, append_nil_l.
    rewrite <-(append_nil_l (String "?" r)), prefix_before_qmark by done.
    by destruct old.
  - rewrite append_cons. destruct k as [|k].
    + rewrite !replace_go_0, <-append_cons, prefix_before_qmark by done.
      destruct (String.prefix old (String c u)) eqn:Hp.
      * apply prefix_length in Hp. simpl in Hp.
        rewrite IH by lia. by rewrite append_assoc.
      * by rewrite IH, append_cons by lia.
    + simpl in Hk. simpl replace_go. apply IH. lia.
Qed.

Lemma replace_go_qmark_head old new r :
  has_char "?" old = false → old ≠ "" →
  replace_go old new 0 (String "?" r) = String "?" (replace_go old new 0 r).
Proof.
  intros Hold Hne.
  by rewrite <-(append_nil_l (String "?" r)), replace_go_qmark by done.
Qed.

(** A text that lacks a character of [old] has no occurrence of it. *)
Lemma replace_go_absent old new c u :
  has_char c old = true → has_char c u = false →
  replace_go old new 0 u = u.
Proof.
  intros Hold. induction u as [|a u IH]; intros Hu; [done|].
  rewrite replace_go_0.
  destruct (String.prefix old (String a u)) eqn:Hp.
  - apply (prefix_has_char c) in Hp; [congruence|done].
  - simpl in Hu. destruct (decide (a = c)); [done|]. by rewrite IH.
Qed.

Lemma replace_go_plain old u k :
  has_char "?" u = false → has_char "?" (replace_go old "" k u) = false.
Proof.
  revert k. induction u as [|c u IH]; intros k Hu; [by destruct k|].
  simpl in Hu. destruct (decide (c = "?"%char)) as [|Hc]; [done|].
  destruct k as [|k]; [|by apply IH].
  rewrite replace_go_0. destruct (String.prefix old (String c u)).
  - rewrite append_nil_l. by apply IH.
  - simpl. rewrite decide_False by done. by apply IH.
Qed.

Lemma pretty_N_go_no_space x s :
  has_char " " s = false → has_char " " (pretty_N_go x s) = false.
Proof.
  revert s. induction (N.lt_wf_0 x) as [x _ IH]; intros s Hs.
  destruct (decide (x = 0%N)) as [->|]; [by rewrite pretty_N_go_0|].
  rewrite pretty_N_go_step by lia. apply IH; [apply N.div_lt; lia|].
  simpl. rewrite Hs. unfold pretty_N_char. by repeat case_match.
Qed.

Lemma pretty_nat_no_space (n : nat) : has_char " " (pretty n) = false.
Proof.
  unfold pretty, pretty_nat, pretty, pretty_N.
  case_decide as Hx; [done|]. by apply pretty_N_go_no_space.
Qed.

Lemma pretty_nat_plain (n : nat) : has_char "?" (pretty n) = false.
Proof. by destruct (pretty_nat_digits n) as (d & r & -> & ?). Qed.

Lemma has_char_TRUE_AND :
  has_char "?" TRUE_AND = false ∧ has_char " " TRUE_AND = true
  ∧ TRUE_AND ≠ "".
Proof. by vm_compute. Qed.

(** Taking [TRUE_AND] out of a staged text leaves the placeholders. *)
Lemma replace_go_staged (ps : list piece) :
  has_char "?" (plain_text ps) = false →
  ∀ u k,
    has_char "?" u = false → k ≤ String.length u →
    ∃ ps',
      replace_go TRUE_AND "" k (u +:+ staged ps) = staged ps'
      ∧ has_char "?" (plain_text ps') = false
      ∧ holes ps' = holes ps.
Proof.
  destruct has_char_TRUE_AND as (Hq & Hsp & Hne).
  induction ps as [|[s|n] ps IH]; intros Hplain u k Hu Hk.
  - exists [Plain (replace_go TRUE_AND "" k u)]. simpl.
    rewrite !append_nil_r. split_and!; [done| |done].
    by apply replace_go_plain.
  - simpl in Hplain. rewrite has_char_app in Hplain.
    apply orb_false_iff in Hplain as [Hs Hplain].
    destruct (IH Hplain (u +:+ s) k) as (ps' & Hrep & Hplain' & Hholes).
    + by rewrite has_char_app, Hu, Hs.
    + rewrite append_length. lia.
    + exists ps'. split; [|done].
      change (staged (Plain s :: ps)) with (s +:+ staged ps).
      by rewrite <-append_assoc.
  - simpl in Hplain.
    destruct (IH Hplain "" 0 eq_refl ltac:(simpl; lia))
      as (ps' & Hrep & Hplain' & Hholes).
    rewrite append_nil_l in Hrep.
    exists (Plain (replace_go TRUE_AND "" k u) :: Hole n :: ps').
    split_and!.
    + change (staged (Hole n :: ps)) with (placeholder n +:+ staged ps).
      unfold placeholder. rewrite !append_assoc.
      change ("???" +:+ pretty n +:+ "??" +:+ staged ps)
        with (String "?" (String "?" (String "?"
                (pretty n +:+ String "?" (String "?" (staged ps)))))).
      rewrite replace_go_qmark, !replace_go_qmark_head by done.
      rewrite replace_go_qmark, replace_go_qmark_head by (done || simpl; lia).
      rewrite (replace_go_absent _ _ " " (pretty n)), Hrep
        by (done || apply pretty_nat_no_space).
      simpl. unfold placeholder. by rewrite !append_assoc.
    + simpl. rewrite has_char_app, Hplain', orb_false_r.
      by apply replace_go_plain.
    + simpl. by rewrite Hholes.
Qed.

Lemma bind_Ok_inv {A B} (r : result A) (f : A → result B) b :
  r ≫= f = Ok b → ∃ a, r = Ok a ∧ f a = Ok b.
Proof. destruct r as [a|e]; [by exists a|done]. Qed.

Lemma bind_Returns_inv {A B} (r : outcome A) (f : A → outcome B) b :
  r ≫= f = Returns b → ∃ a, r = Returns a ∧ f a = Returns b.
Proof. destruct r as [a|e|]; [by exists a|done..]. Qed.

Lemma of_result_Returns {A} (r : result A) a :
  of_result r = Returns a → r = Ok a.
Proof. destruct r; [by intros [= ->]|done]. Qed.

Section TranslateFacts.

Context {L : Type} `{EqDecision L}.
Variable is_user_function : string → bool.
Variable parameters : gmap string L.
Variable has_aggregate_call : @expr L → bool.
Variable get_file_graph : string → string.
Variable iteration : state → state.
Hypothesis iteration_reorders : reorders iteration.

#[local] Abbreviation expression_to_sql :=
  (Kypher.expression_to_sql (L:=L) is_user_function parameters).
#[local] Abbreviation props_to_sql :=
  (Clauses.props_to_sql (L:=L) is_user_function parameters iteration).
#[local] Abbreviation pattern_props_to_sql :=
  (Clauses.pattern_props_to_sql (L:=L) is_user_function parameters
     iteration).
#[local] Abbreviation pattern_clause_props_to_sql :=
  (Clauses.pattern_clause_props_to_sql (L:=L) is_user_function parameters
     iteration).
#[local] Abbreviation register_named :=
  (Clauses.register_named (L:=L) iteration).
#[local] Abbreviation pattern_clause_to_sql :=
  (Clauses.pattern_clause_to_sql (L:=L) iteration).

Implicit Types (t : @translation L) (p : @pattern L) (vs : list L).
Implicit Types (m : @litmap L) (e : @expr L).

(** *** Staged texts *)

Lemma staged_text_plain m s : has_char "?" s = false → staged_text m s.
Proof. intros Hs. exists []. by apply staged_as_plain. Qed.

Lemma staged_text_app m s1 s2 :
  staged_text m s1 → staged_text m s2 → staged_text m (s1 +:+ s2).
Proof.
  intros [vs1 H1] [vs2 H2]. exists (vs1 ++ vs2). by apply staged_as_app.
Qed.

Lemma staged_text_interned vs ws s :
  staged_text (interned vs) s → staged_text (interned (vs ++ ws)) s.
Proof. intros [values Hs]. exists values. by apply staged_as_interned. Qed.

Lemma staged_text_join vs sep ss :
  has_char "?" sep = false →
  Forall (staged_text (interned vs)) ss →
  staged_text (interned vs) (join sep ss).
Proof.
  intros Hsep. induction 1 as [|s ss Hs Hss IH].
  { by apply staged_text_plain. }
  rewrite join_cons. destruct ss as [|s' ss]; [done|].
  apply staged_text_app; [done|].
  apply staged_text_app; [by apply staged_text_plain|done].
Qed.

Lemma staged_text_concat vs ss :
  Forall (staged_text (interned vs)) ss →
  staged_text (interned vs) (String.concat "" ss).
Proof. by apply staged_text_join. Qed.

Lemma staged_text_replace vs s :
  staged_text (interned vs) s →
  staged_text (interned vs) (replace TRUE_AND "" s).
Proof.
  intros (values & ps & -> & Hplain & Hholes). exists values.
  destruct (replace_go_staged ps Hplain "" 0 eq_refl ltac:(simpl; lia))
    as (ps' & Hrep & Hplain' & Hholes').
  rewrite append_nil_l in Hrep. exists ps'.
  split; [done|]. split; [done|]. by rewrite Hholes'.
Qed.

(** The materialize pass on a staged text. *)
Lemma staged_text_materialize vs s query (values : list L) :
  staged_text (interned vs) s →
  replace_literal_parameters s (interned vs) = Ok (query, values) →
  count_char "?" query = length values.
Proof.
  intros [values' Hs] Hrep.
  destruct (staged_as_materialize _ _ _ Hs) as (query' & Hrep' & Hcount).
  rewrite Hrep in Hrep'. by simplify_eq.
Qed.

(** The text of a translated expression. *)
Lemma expression_staged_text e vs varmap s m' :
  plain_names e = true → plain_columns varmap →
  expression_to_sql e (interned vs) varmap = Ok (s, m') →
  (∃ ws, m' = interned (vs ++ ws)) ∧ staged_text m' s.
Proof.
  intros Hp Hcols Hsql. apply expression_translated in Hsql as [-> Hst].
  split; [by eexists|]. eexists. by apply Hst.
Qed.

(** *** The maps and sets of the match clauses *)

Lemma plain_columns_bindings (st : state) :
  plain_bindings st → plain_columns (Some (varmap st)).
Proof.
  intros [Hrefs _] vm query_var sql_vars graph col [= <-] Hq Hin.
  exact (Hrefs _ _ _ Hq Hin).
Qed.

Lemma plain_bindings_iteration (st : state) :
  plain_bindings st → plain_bindings (iteration st).
Proof.
  intros [Hrefs Hjoins]. destruct (iteration_reorders st) as [Hj Hvm].
  split.
  - intros query_var sql_vars r Hq Hr. specialize (Hvm query_var).
    rewrite Hq in Hvm. inversion Hvm as [l l' Hperm Hl Hl'|]; simplify_eq.
    eapply Hrefs; [done|]. by rewrite <-Hperm.
  - rewrite Hj. apply Hjoins.
Qed.

Lemma register_plain (st st' : state) query_var sql_var :
  register_clause_variable query_var sql_var st = Ok st' →
  plain_ref sql_var → plain_bindings st → plain_bindings st'.
Proof.
  intros Hreg Hnew [Hrefs Hjoins].
  apply register_cases in Hreg
    as [[Hq ->]|(refs & best & Hq & Hbest & [[-> ->]|[Hne ->]])];
    [|done|]; split; simpl.
  - intros q sql_vars r Hlook Hr.
    destruct (decide (query_var = q)) as [->|].
    + rewrite lookup_insert_eq in Hlook. simplify_eq.
      by apply list_elem_of_singleton in Hr as ->.
    + rewrite lookup_insert_ne in Hlook by done. by eapply Hrefs.
  - done.
  - intros q sql_vars r Hlook Hr.
    destruct (decide (query_var = q)) as [->|].
    + rewrite lookup_insert_eq in Hlook. simplify_eq.
      apply elem_of_set_add in Hr as [->|Hr]; [done|]. by eapply Hrefs.
    + rewrite lookup_insert_ne in Hlook by done. by eapply Hrefs.
  - intros a b [Hab|Hab]%elem_of_union; [|by apply Hjoins].
    apply elem_of_singleton in Hab. unfold sorted_pair in Hab.
    pose proof (Hrefs _ _ _ Hq Hbest) as Hplain.
    by destruct (sql_var_ltb sql_var best); simplify_eq.
Qed.

Lemma restrict_label_staged p graph col t t' :
  restrict_label p graph col t = Ok t' →
  has_char "?" graph = false → has_char "?" col = false →
  staged_state t → staged_state t'.
Proof.
  destruct t as [m st rs]. unfold restrict_label. simpl.
  intros Hres Hgraph Hcol ([vs Hlit] & Hrs & Hst). simpl in *. subst m.
  destruct (labels p) as [[|label ls]|]; [done| |].
  2: { injection Hres as <-. split_and!; [by eexists|done..]. }
  destruct (get_literal_parameter_interned vs label) as (n & Hn & Hlook).
  rewrite Hn in Hres. injection Hres as <-. split_and!; simpl.
  - by eexists.
  - intros r val [Hin|Hin]%elem_of_union.
    + apply elem_of_singleton in Hin. simplify_eq. split; [done|].
      exists [label]. by apply staged_as_hole.
    + destruct (Hrs r val Hin) as [Hr Hval]. split; [done|].
      by apply staged_text_interned.
  - done.
Qed.

Lemma register_named_staged p graph col t t' :
  register_named p graph col t = Ok t' →
  has_char "?" graph = false → has_char "?" col = false →
  staged_state t → staged_state t'.
Proof.
  destruct t as [m st rs]. unfold Clauses.register_named. simpl.
  intros Hreg Hgraph Hcol (Hlit & Hrs & Hst). simpl in *.
  destruct (variable p) as [[name|name]|]; [|by simplify_eq..].
  apply bind_Ok_inv in Hreg as (st' & Hreg & [= <-]).
  split_and!; [done..|]. simpl.
  eapply register_plain; [done|done|]. by apply plain_bindings_iteration.
Qed.

Lemma pattern_clause_staged clause graph t t' :
  pattern_clause_to_sql clause graph t = Ok t' →
  has_char "?" graph = false →
  staged_state t → staged_state t'.
Proof.
  destruct clause as [[node1 rel] node2].
  unfold Clauses.pattern_clause_to_sql, get_node1_column, get_node2_column,
    get_label_column, get_id_column.
  intros Hsql Hgraph Ht.
  apply bind_Ok_inv in Hsql as (t1 & H1 & Hsql).
  apply bind_Ok_inv in Hsql as (t2 & H2 & Hsql).
  apply bind_Ok_inv in Hsql as (t3 & H3 & Hsql).
  apply bind_Ok_inv in Hsql as (t4 & H4 & Hsql).
  apply bind_Ok_inv in Hsql as (t5 & H5 & H6).
  apply restrict_label_staged in H1; [|done..].
  apply register_named_staged in H2; [|done..].
  apply restrict_label_staged in H3; [|done..].
  apply register_named_staged in H4; [|done..].
  apply restrict_label_staged in H5; [|done..].
  by apply register_named_staged in H6.
Qed.

Lemma property_column_plain p column prop :
  has_char "?" column = false → has_char "?" prop = false →
  has_char "?" (property_column p column prop) = false.
Proof.
  intros Hcolumn Hprop. unfold property_column, and_or.
  destruct (relationship p); [case_decide|];
    rewrite ?has_char_app, ?Hcolumn, ?Hprop; done.
Qed.

Lemma props_to_sql_staged p graph column props :
  has_char "?" graph = false → has_char "?" column = false →
  (∀ prop e, (prop, e) ∈ props → plain prop = true ∧ plain_names e = true) →
  ∀ t t',
    props_to_sql p graph column props t = Ok t' →
    staged_state t → staged_state t'.
Proof.
  intros Hgraph Hcolumn.
  induction props as [|[prop e] props IH]; intros Hprops t t' Hsql Ht.
  { by injection Hsql as <-. }
  destruct (Hprops prop e ltac:(left)) as [Hprop%negb_true_iff He].
  pose proof (property_column_plain p column prop Hcolumn Hprop) as Hpropcol.
  simpl in Hsql.
  apply bind_Ok_inv in Hsql as (t1 & Hreg & Hsql).
  assert (staged_state t1) as Ht1.
  { destruct e; try by simplify_eq.
    destruct Ht as (Hlit & Hrs & Hst).
    apply bind_Ok_inv in Hreg as (st' & Hreg & [= <-]).
    split_and!; [done..|]. simpl.
    eapply register_plain; [done|done|].
    by apply plain_bindings_iteration. }
  clear Hreg Ht. destruct Ht1 as ([vs Hlit] & Hrs & Hst).
  rewrite Hlit in Hsql.
  apply bind_Ok_inv in Hsql as ([s m'] & Hexpr & Hsql).
  apply expression_staged_text in Hexpr as [[ws ->] Hs];
    [|done|by apply plain_columns_bindings, plain_bindings_iteration].
  apply IH in Hsql; [done|by intros; apply Hprops; right|].
  split_and!; simpl.
  - by eexists.
  - intros r val [Hin|Hin]%elem_of_union.
    + apply elem_of_singleton in Hin. by simplify_eq.
    + destruct (Hrs r val Hin) as [Hr Hval]. split; [done|].
      rewrite Hlit in Hval. by apply staged_text_interned.
  - done.
Qed.

Lemma pattern_props_staged p graph column t t' :
  pattern_props_to_sql p graph column t = Returns t' →
  has_char "?" graph = false → has_char "?" column = false →
  plain_pattern p →
  staged_state t → staged_state t'.
Proof.
  unfold Clauses.pattern_props_to_sql. intros Hsql Hgraph Hcolumn Hp Ht.
  destruct (properties p) as [props|] eqn:Hprops; [|by simplify_eq].
  destruct props as [|pe props']; [by simplify_eq|].
  destruct (variable p) as [v|]; [|done].
  apply of_result_Returns, bind_Ok_inv in Hsql as (st' & Hreg & Hsql).
  eapply props_to_sql_staged in Hsql; [done..| |].
  - intros prop e Hin. by eapply Hp.
  - destruct Ht as (Hlit & Hrs & Hst). split_and!; [done..|]. simpl.
    eapply register_plain; [done|done|].
    by apply plain_bindings_iteration.
Qed.

Lemma pattern_clause_props_staged (node1 rel node2 : pattern) graph t t' :
  pattern_clause_props_to_sql (node1, rel, node2) graph t = Returns t' →
  has_char "?" graph = false →
  plain_pattern node1 → plain_pattern rel → plain_pattern node2 →
  staged_state t → staged_state t'.
Proof.
  unfold Clauses.pattern_clause_props_to_sql, get_node1_column,
    get_node2_column, get_id_column.
  intros Hsql Hgraph Hn1 Hrel Hn2 Ht.
  apply bind_Returns_inv in Hsql as (t1 & H1 & Hsql).
  apply bind_Returns_inv in Hsql as (t2 & H2 & H3).
  apply pattern_props_staged in H1; [|done..].
  apply pattern_props_staged in H2; [|done..].
  by apply pattern_props_staged in H3.
Qed.

#[local] Abbreviation plain_store :=
  (∀ file, plain (get_file_graph file) = true).

Lemma graph_alias_plain graph i :
  has_char "?" graph = false → has_char "?" (graph_alias graph i) = false.
Proof.
  intros Hgraph. unfold graph_alias.
  by rewrite !has_char_app, Hgraph, pretty_nat_plain.
Qed.

Lemma get_pattern_clause_graph_plain files default_graph hmap g graph hmap' :
  plain_store →
  Graphs.get_pattern_clause_graph get_file_graph files default_graph hmap g
    = Ok (graph, hmap') →
  has_char "?" graph = false.
Proof.
  intros Hstore. unfold Graphs.get_pattern_clause_graph.
  intros ([file hmap1] & _ & [= <- <-])%bind_Ok_inv.
  by apply negb_true_iff, Hstore.
Qed.

Lemma match_clauses_staged q clauses :
  plain_store →
  ∀ i hmap graphs t hmap' graphs' t',
    match_clauses_to_sql get_file_graph iteration q clauses i hmap graphs t
      = Ok (hmap', graphs', t') →
    plain_graphs graphs → staged_state t →
    plain_graphs graphs' ∧ staged_state t'.
Proof.
  intros Hstore. induction clauses as [|clause clauses IH];
    intros i hmap graphs t hmap' graphs' t' Hsql Hgraphs Ht.
  { by injection Hsql as <- <- <-. }
  simpl in Hsql.
  apply bind_Ok_inv in Hsql as ([graph hmap1] & Hgraph & Hsql).
  apply get_pattern_clause_graph_plain in Hgraph; [|done].
  apply bind_Ok_inv in Hsql as (t1 & Hclause & Hsql).
  pose proof (graph_alias_plain graph i Hgraph) as Halias.
  apply pattern_clause_staged in Hclause; [|done..].
  eapply IH; [done| |done].
  intros g a [Hin|Hin]%elem_of_union; [|by apply Hgraphs].
  apply elem_of_singleton in Hin. by simplify_eq.
Qed.

Lemma match_clauses_props_staged q clauses :
  plain_store →
  (∀ node1 rel node2,
     (node1, rel, node2) ∈ clauses →
     plain_pattern node1 ∧ plain_pattern rel ∧ plain_pattern node2) →
  ∀ i hmap t hmap' t',
    match_clauses_props_to_sql is_user_function parameters get_file_graph
      iteration q clauses i hmap t = Returns (hmap', t') →
    staged_state t → staged_state t'.
Proof.
  intros Hstore. induction clauses as [|[[node1 rel] node2] clauses IH];
    intros Hplain i hmap t hmap' t' Hsql Ht.
  { by injection Hsql as <- <-. }
  simpl in Hsql.
  apply bind_Returns_inv in Hsql as ([graph hmap1] & Hgraph & Hsql).
  apply of_result_Returns, get_pattern_clause_graph_plain in Hgraph; [|done].
  apply bind_Returns_inv in Hsql as (t1 & Hclause & Hsql).
  pose proof (graph_alias_plain graph i Hgraph) as Halias.
  destruct (Hplain node1 rel node2 ltac:(left)) as (Hn1 & Hrel & Hn2).
  apply pattern_clause_props_staged in Hclause; [|done..].
  eapply IH; [|done..]. intros ? ? ? ?. apply Hplain. by right.
Qed.

(** *** The texts of the clauses *)

Lemma return_items_staged varmap (items : list return_item) :
  plain_columns varmap →
  (∀ item, item ∈ items →
           plain_names (expression item) = true
           ∧ ∀ item_name, name item = Some item_name →
                          plain item_name = true) →
  ∀ select is_first agg_info vs select' agg_info' m',
    Kypher.return_items_to_sql is_user_function parameters
      has_aggregate_call items select is_first agg_info (interned vs) varmap
      = Ok (select', agg_info', m') →
    staged_text (interned vs) select →
    Forall (λ a, ∀ k, a = Some k → staged_text (interned vs) k) agg_info →
    (∃ ws, m' = interned (vs ++ ws))
    ∧ staged_text m' select'
    ∧ Forall (λ a, ∀ k, a = Some k → staged_text m' k) agg_info'.
Proof.
  intros Hcols. induction items as [|item items IH];
    intros Hitems select is_first agg_info vs select' agg_info' m' Hsql Hsel
      Hagg.
  { injection Hsql as <- <- <-. split; [|done]. exists []. by rewrite app_nil_r. }
  destruct (Hitems item ltac:(left)) as [Hexpr Hname].
  simpl in Hsql.
  apply bind_Ok_inv in Hsql as ([expr m1] & He & Hsql).
  apply expression_staged_text in He as [[ws1 ->] Hs]; [|done..].
  assert (staged_text (interned (vs ++ ws1))
            (select +:+ first_or_comma is_first expr)) as Hsel1.
  { apply staged_text_app; [by apply staged_text_interned|].
    unfold first_or_comma.
    destruct is_first; [case_decide|]; try done;
      (apply staged_text_app; [by apply staged_text_plain|done]). }
  assert (Forall (λ a, ∀ k, a = Some k → staged_text (interned (vs ++ ws1)) k)
                 agg_info) as Hagg1.
  { eapply Forall_impl; [done|]. intros a Ha k Hk.
    by apply staged_text_interned, Ha. }
  cbv zeta in Hsql.
  destruct (name item) as [item_name|] eqn:Hitem.
  - specialize (Hname item_name eq_refl). apply negb_true_iff in Hname.
    apply IH in Hsql as ([ws2 ->] & Hsel' & Hagg').
    + split; [|done]. exists (ws1 ++ ws2). by rewrite app_assoc.
    + intros. apply Hitems. by right.
    + apply staged_text_app; [done|]. apply staged_text_plain.
      rewrite has_char_app. simpl. by apply has_char_sql_quote_ident.
    + apply Forall_app. split; [done|]. apply Forall_singleton.
      intros k Hk. unfold and_or_None in Hk.
      destruct (negb _); [|done]. case_decide; [done|]. simplify_eq.
      by apply staged_text_plain.
  - apply IH in Hsql as ([ws2 ->] & Hsel' & Hagg').
    + split; [|done]. exists (ws1 ++ ws2). by rewrite app_assoc.
    + intros. apply Hitems. by right.
    + done.
    + apply Forall_app. split; [done|]. apply Forall_singleton.
      intros k Hk. unfold and_or_None in Hk.
      destruct (negb _); [|done]. case_decide; [done|]. by simplify_eq.
Qed.

Lemma group_by_staged vs (agg_info : list (option string)) group_by :
  Forall (λ a, ∀ k, a = Some k → staged_text (interned vs) k) agg_info →
  group_by_of agg_info = Some group_by →
  staged_text (interned vs) group_by.
Proof.
  intros Hagg. unfold group_by_of.
  destruct (first_reg_last_agg _ _ _ _) as [first_reg last_agg].
  destruct (last_agg >? first_reg)%Z; [|done]. intros [= <-].
  apply staged_text_app; [by apply staged_text_plain|].
  apply staged_text_join; [done|].
  assert (Forall (λ a, ∀ k, a = Some k → staged_text (interned vs) k)
                 (slice_to last_agg agg_info)) as Hslice.
  { unfold slice_to. destruct (last_agg <? 0)%Z; by apply Forall_take. }
  induction Hslice as [|[k|] l Hk _ IH]; simpl; [done| |done].
  constructor; [by apply Hk|done].
Qed.

Lemma return_clause_staged (clause : @Kypher.return_clause L) vs varmap select
    group_by m' :
  plain_columns varmap →
  (∀ item, item ∈ items clause →
           plain_names (expression item) = true
           ∧ ∀ item_name, name item = Some item_name →
                          plain item_name = true) →
  Kypher.return_clause_to_sql_selection is_user_function parameters
    has_aggregate_call clause (interned vs) varmap
    = Ok (select, group_by, m') →
  (∃ ws, m' = interned (vs ++ ws))
  ∧ staged_text m' select
  ∧ (∀ g, group_by = Some g → staged_text m' g).
Proof.
  intros Hcols Hitems. unfold Kypher.return_clause_to_sql_selection.
  intros ([[select1 agg_info] m1] & Hret & [= <- <- <-])%bind_Ok_inv.
  eapply return_items_staged in Hret as ([ws ->] & Hsel & Hagg); [|done..| |].
  - split; [by eexists|]. split; [done|]. intros g Hg.
    by eapply group_by_staged.
  - apply staged_text_plain. by destruct (distinct clause).
  - constructor.
Qed.

Lemma where_clause_staged (where_clause : option (@expr L)) vs varmap s m' :
  plain_columns varmap →
  (∀ e, where_clause = Some e → plain_names e = true) →
  Clauses.where_clause_to_sql is_user_function parameters where_clause
    (interned vs) varmap = Ok (s, m') →
  (∃ ws, m' = interned (vs ++ ws)) ∧ staged_text m' s.
Proof.
  intros Hcols Hplain. unfold Clauses.where_clause_to_sql.
  destruct where_clause as [e|].
  - intros Hsql. eapply expression_staged_text; [|done..]. by apply Hplain.
  - intros [= <- <-]. split; [|by apply staged_text_plain].
    exists []. by rewrite app_nil_r.
Qed.

Lemma translate_each_staged_text {A}
    (f : A → @litmap L → result (string * @litmap L)) (xs : list A) :
  (∀ x vs s m', x ∈ xs → f x (interned vs) = Ok (s, m') →
                (∃ ws, m' = interned (vs ++ ws)) ∧ staged_text m' s) →
  ∀ vs ss m',
    translate_each f xs (interned vs) = Ok (ss, m') →
    (∃ ws, m' = interned (vs ++ ws)) ∧ Forall (staged_text m') ss.
Proof.
  induction xs as [|x xs IH]; intros Hf vs ss m' Heach.
  { injection Heach as <- <-. split; [|done]. exists []. by rewrite app_nil_r. }
  simpl in Heach.
  apply bind_Ok_inv in Heach as ([s m1] & Hx & Heach).
  apply Hf in Hx as [[ws1 ->] Hs]; [|by left].
  apply bind_Ok_inv in Heach as ([ss' m2] & Hxs & [= <- <-]).
  apply IH in Hxs as [[ws2 ->] Hss];
    [|intros y us s' m3 Hy Hfy; apply (Hf y us s' m3); [by right|done]].
  split; [exists (ws1 ++ ws2); by rewrite app_assoc|].
  constructor; [by apply staged_text_interned|done].
Qed.

Lemma upper_char_qmark c :
  bool_decide (upper_char c = "?"%char) = bool_decide (c = "?"%char).
Proof. by destruct c as [[] [] [] [] [] [] [] []]. Qed.

Lemma has_char_upper s : has_char "?" (upper s) = has_char "?" s.
Proof.
  induction s as [|c s IH]; [done|]. simpl.
  pose proof (upper_char_qmark c) as Hc.
  destruct (decide (upper_char c = "?"%char)), (decide (c = "?"%char));
    try done.
  - by rewrite bool_decide_eq_true_2, bool_decide_eq_false_2 in Hc.
  - by rewrite bool_decide_eq_false_2, bool_decide_eq_true_2 in Hc.
Qed.

Lemma order_clause_staged (order_clause : option (list sort_item)) vs varmap
    order m' :
  plain_columns varmap →
  (∀ sort_items sort_item,
     order_clause = Some sort_items → sort_item ∈ sort_items →
     plain_names (sort_expression sort_item) = true
     ∧ plain (direction sort_item) = true) →
  Clauses.order_clause_to_sql is_user_function parameters order_clause
    (interned vs) varmap = Ok (order, m') →
  (∃ ws, m' = interned (vs ++ ws))
  ∧ (∀ o, order = Some o → staged_text m' o).
Proof.
  intros Hcols Hplain. unfold Clauses.order_clause_to_sql.
  destruct order_clause as [sort_items|].
  2: { intros [= <- <-]. split; [|done]. exists []. by rewrite app_nil_r. }
  intros ([ss m1] & Heach & [= <- <-])%bind_Ok_inv.
  apply translate_each_staged_text in Heach as [[ws ->] Hss].
  - split; [by eexists|]. intros o [= <-].
    apply staged_text_app; [by apply staged_text_plain|].
    by apply staged_text_join.
  - intros sort_item us s m2 Hin Hitem.
    destruct (Hplain sort_items sort_item eq_refl Hin)
      as [He Hdir%negb_true_iff].
    apply bind_Ok_inv in Hitem as ([expr m3] & Hexpr & [= <- <-]).
    apply expression_staged_text in Hexpr as [[ws ->] Hs]; [|done..].
    split; [by eexists|]. apply staged_text_app; [done|].
    rewrite and_or_empty. apply staged_text_plain.
    by rewrite has_char_app, has_char_upper, Hdir.
Qed.

Lemma plain_columns_None : plain_columns None.
Proof. by intros ? ? ? ? ? [=]. Qed.

Lemma limit_clauses_staged (skip_clause limit_clause : option (@expr L)) vs
    varmap limit m' :
  (∀ e, skip_clause = Some e → plain_names e = true) →
  (∀ e, limit_clause = Some e → plain_names e = true) →
  Kypher.limit_clauses_to_sql is_user_function parameters skip_clause
    limit_clause (interned vs) varmap = Ok (limit, m') →
  (∃ ws, m' = interned (vs ++ ws))
  ∧ (∀ l, limit = Some l → staged_text m' l).
Proof.
  intros Hskip Hlimit. unfold Kypher.limit_clauses_to_sql.
  assert (∀ us : list L, ∃ ws, interned us = interned (us ++ ws)) as Hsame.
  { intros us. exists []. by rewrite app_nil_r. }
  destruct skip_clause as [skip|], limit_clause as [lim|].
  - intros ([l1 m1] & H1 & ([l2 m2] & H2 & [= <- <-])%bind_Ok_inv)%bind_Ok_inv.
    apply bind_Ok_inv in H1 as ([s1 m3] & Hlim & [= <- <-]).
    apply bind_Ok_inv in H2 as ([s2 m4] & Hsk & [= <- <-]).
    apply expression_staged_text in Hlim as [[ws1 ->] Hs1];
      [|by auto|apply plain_columns_None].
    apply expression_staged_text in Hsk as [[ws2 ->] Hs2];
      [|by auto|apply plain_columns_None].
    split; [exists (ws1 ++ ws2); by rewrite app_assoc|]. intros l [= <-].
    apply staged_text_app;
      [|apply staged_text_app; [by apply staged_text_plain|done]].
    apply staged_text_interned.
    apply staged_text_app; [by apply staged_text_plain|].
    apply staged_text_app; [by apply staged_text_plain|done].
  - intros ([l1 m1] & [= <- <-] & ([l2 m2] & H2 & [= <- <-])%bind_Ok_inv)%bind_Ok_inv.
    apply bind_Ok_inv in H2 as ([s2 m4] & Hsk & [= <- <-]).
    apply expression_staged_text in Hsk as [[ws2 ->] Hs2];
      [|by auto|apply plain_columns_None].
    split; [by eexists|]. intros l [= <-].
    apply staged_text_app; [by apply staged_text_plain|].
    apply staged_text_app; [by apply staged_text_plain|done].
  - intros ([l1 m1] & H1 & ([l2 m2] & [= <- <-] & [= <- <-])%bind_Ok_inv)%bind_Ok_inv.
    apply bind_Ok_inv in H1 as ([s1 m3] & Hlim & [= <- <-]).
    apply expression_staged_text in Hlim as [[ws1 ->] Hs1];
      [|by auto|apply plain_columns_None].
    split; [by eexists|]. intros l [= <-].
    apply staged_text_app; [by apply staged_text_plain|].
    apply staged_text_app; [by apply staged_text_plain|done].
  - intros [= <- <-]. split; [apply Hsame|done].
Qed.

(** *** The query text *)

Lemma and_write_staged m x prefix query :
  staged_text m x → has_char "?" prefix = false → staged_text m query →
  staged_text m (and_write x prefix query).
Proof.
  intros Hx Hprefix Hquery. unfold and_write. case_decide; [done|].
  apply staged_text_app; [done|].
  apply staged_text_app; [by apply staged_text_plain|done].
Qed.

Lemma and_write_option_staged m x prefix query :
  (∀ y, x = Some y → staged_text m y) →
  has_char "?" prefix = false → staged_text m query →
  staged_text m (and_write_option x prefix query).
Proof.
  intros Hx Hprefix Hquery. destruct x as [y|]; [|done].
  apply and_write_staged; auto.
Qed.

Lemma join_plain sep ss :
  has_char "?" sep = false →
  Forall (λ s, has_char "?" s = false) ss →
  has_char "?" (join sep ss) = false.
Proof.
  intros Hsep. induction 1 as [|s ss Hs _ IH]; [done|].
  rewrite join_cons. destruct ss as [|s' ss]; [done|].
  by rewrite !has_char_app, Hs, Hsep, IH.
Qed.

Lemma Forall_sorted {A} (P : A → Prop) (compare : A → A → comparison) l :
  Forall P l → Forall P (sorted compare l).
Proof. unfold sorted. by rewrite merge_sort_Permutation. Qed.

Lemma raw_query_staged (q : query) graphs t raw m :
  plain_query get_file_graph q → plain_graphs graphs → staged_state t →
  Translate.raw_query is_user_function parameters has_aggregate_call
    iteration q graphs t = Ok (raw, m) →
  ∃ vs, m = interned vs ∧ staged_text m raw.
Proof.
  intros (_ & _ & Hwhere & Hitems & Horder & Hskip & Hlimit) Hgraphs
    ([vs Hlit] & Hrs & Hst) Hraw.
  pose proof (plain_columns_bindings _ (plain_bindings_iteration _ Hst))
    as Hcols.
  unfold Translate.raw_query in Hraw. rewrite Hlit in Hraw.
  apply bind_Ok_inv in Hraw as ([[select group_by] m1] & Hret & Hraw).
  apply return_clause_staged in Hret as ([ws1 ->] & Hselect & Hgroup);
    [|done..].
  cbv beta iota zeta in Hraw.
  apply bind_Ok_inv in Hraw as ([where_text m2] & Hwc & Hraw).
  apply where_clause_staged in Hwc as ([ws2 ->] & Hwhere_text); [|done..].
  cbv beta iota zeta in Hraw.
  apply bind_Ok_inv in Hraw as ([order m3] & Hoc & Hraw).
  apply order_clause_staged in Hoc as ([ws3 ->] & Horder_text); [|done..].
  cbv beta iota zeta in Hraw.
  apply bind_Ok_inv in Hraw as ([limit m4] & Hlc & Hraw).
  apply limit_clauses_staged in Hlc as ([ws4 ->] & Hlimit_text); [|done..].
  cbv beta iota zeta in Hraw. injection Hraw as <- <-.
  eexists. split; [done|].
  apply (staged_text_replace _ _).
  apply and_write_option_staged; [done|done|].
  apply and_write_option_staged;
    [by intros; apply staged_text_interned, Horder_text|done|].
  apply and_write_option_staged;
    [by intros; do 3 apply staged_text_interned; apply Hgroup|done|].
  apply and_write_staged; [by do 2 apply staged_text_interned|done|].
  apply staged_text_app; [apply staged_text_app|].
  - set (query := "SELECT " +:+ _).
    assert (staged_text
              (interned ((((vs ++ ws1) ++ ws2) ++ ws3) ++ ws4)) query)
      as Hquery.
    { apply staged_text_app; [by apply staged_text_plain|].
      apply staged_text_app; [by do 3 apply staged_text_interned|].
      apply staged_text_plain. rewrite !has_char_app. simpl.
      apply join_plain; [done|]. apply Forall_map, Forall_sorted.
      apply Forall_forall. intros [g a] Hin%elem_of_elements.
      destruct (Hgraphs g a Hin) as [Hg Ha].
      simpl. by rewrite !has_char_app, Hg, Ha. }
    destruct (_ || _); [|done].
    apply staged_text_app; [done|by apply staged_text_plain].
  - apply staged_text_concat, Forall_map, Forall_sorted, Forall_forall.
    intros [[g c] val] Hin%elem_of_elements.
    destruct (Hrs _ _ Hin) as [[Hg Hc] Hval]. simpl in Hg, Hc.
    rewrite Hlit in Hval. unfold restriction_to_sql. simpl.
    apply staged_text_app; [by apply staged_text_plain|].
    apply staged_text_app; [by apply staged_text_plain|].
    apply staged_text_app; [by apply staged_text_plain|].
    apply staged_text_app; [by apply staged_text_plain|].
    apply staged_text_app;
      [by apply staged_text_plain, has_char_sql_quote_ident|].
    apply staged_text_app; [by apply staged_text_plain|].
    by do 4 apply staged_text_interned.
  - apply staged_text_concat, Forall_map, Forall_sorted, Forall_forall.
    intros [[g1 c1] [g2 c2]] Hin%elem_of_elements.
    destruct Hst as [_ Hjoins].
    destruct (Hjoins _ _ Hin) as [[Hg1 Hc1] [Hg2 Hc2]]. simpl in *.
    apply staged_text_plain. unfold join_to_sql. simpl.
    by rewrite !has_char_app, Hg1, Hg2, !has_char_sql_quote_ident.
Qed.

(** X24: the query text and the parameters of a translation fit.  If the
    names that a query gives to the text have no question mark (the tables
    of the store, the names of properties, functions and cast types, the
    aliases of return items and the directions of sort items), then
    whenever [translate_to_sql] returns, whatever the iteration order of
    the reference sets is, the query text has exactly as many question
    marks as there are parameters. *)
Theorem translate_parameters_fit (q : query) hmap sql
    (query_parameters : list L) hmap' :
  plain_query get_file_graph q →
  Translate.translate_to_sql is_user_function parameters has_aggregate_call
    get_file_graph iteration q hmap
    = Returns (sql, query_parameters, hmap') →
  count_char "?" sql = length query_parameters.
Proof.
  intros Hq Hsql. unfold Translate.translate_to_sql in Hsql.
  apply bind_Returns_inv in Hsql as ([[hmap1 graphs] t1] & Hloop1 & Hsql).
  apply of_result_Returns in Hloop1.
  apply bind_Returns_inv in Hsql as ([hmap2 t2] & Hloop2 & Hsql).
  apply bind_Returns_inv in Hsql as ([raw m] & Hraw & Hsql).
  apply of_result_Returns in Hraw.
  apply bind_Returns_inv in Hsql as ([sql' ps] & Hrep & [= <- <- <-]).
  apply of_result_Returns in Hrep.
  pose proof Hq as (Hstore & Hclauses & _).
  apply match_clauses_staged in Hloop1 as [Hgraphs Ht1]; [|done| |].
  - apply match_clauses_props_staged in Hloop2; [|done..].
    destruct (raw_query_staged q graphs t2 raw m Hq Hgraphs Hloop2 Hraw)
      as (vs & -> & Hstaged).
    by eapply staged_text_materialize.
  - by intros ? ? ?%not_elem_of_empty.
  - split_and!; simpl.
    + by exists [].
    + by intros ? ? ?%not_elem_of_empty.
    + split; simpl.
      * intros ? ? ?. by rewrite lookup_empty.
      * by intros ? ? ?%not_elem_of_empty.
Qed.

End TranslateFacts.

(** The first example of the module documentation. *)
Example translate_documented_query :
  translate_to_sql (λ _, false) ∅ (λ _, false) (λ _, "graph_1") reversed
    documented_query ∅
  = Returns
      ("SELECT *" +:+ nl
       +:+ "FROM graph_1 graph_1_c1, graph_1 graph_1_c2" +:+ nl
       +:+ "WHERE graph_1_c1." +:+ quoted "label" +:+ "=?" +:+ nl
       +:+ "AND graph_1_c2." +:+ quoted "label" +:+ "=?" +:+ nl
       +:+ "AND graph_1_c1." +:+ quoted "node1" +:+ "=graph_1_c1."
       +:+ quoted "node2" +:+ nl
       +:+ "AND graph_1_c1." +:+ quoted "node1" +:+ "=graph_1_c2."
       +:+ quoted "node1",
       ["loves"; "name"], {[ "g" := "/data/graph.tsv" ]}).
Proof. vm_compute. reflexivity. Qed.

Lemma reorders_reversed : reorders reversed.
Proof.
  intros st. split; [done|]. intros query_var. simpl.
  rewrite lookup_fmap. destruct (varmap st !! query_var); constructor.
  apply reverse_Permutation.
Qed.

Lemma translate_parameters_fit_witness :
  count_char "?"
    ("SELECT *" +:+ nl
     +:+ "FROM graph_1 graph_1_c1, graph_1 graph_1_c2" +:+ nl
     +:+ "WHERE graph_1_c1." +:+ quoted "label" +:+ "=?" +:+ nl
     +:+ "AND graph_1_c2." +:+ quoted "label" +:+ "=?" +:+ nl
     +:+ "AND graph_1_c1." +:+ quoted "node1" +:+ "=graph_1_c1."
     +:+ quoted "node2" +:+ nl
     +:+ "AND graph_1_c1." +:+ quoted "node1" +:+ "=graph_1_c2."
     +:+ quoted "node1")
  = length ["loves"; "name"].
Proof.
  apply (translate_parameters_fit (λ _, false) ∅ (λ _, false)
           (λ _, "graph_1") reversed reorders_reversed documented_query ∅
           _ _ {[ "g" := "/data/graph.tsv" ]}).
  - split_and!; try done.
    + intros node1 rel node2 Hin.
      repeat (apply elem_of_cons in Hin as [[= -> -> ->]|Hin]);
        [..|by apply elem_of_nil in Hin];
        by split_and!; intros props prop e [=].
    + intros item ->%list_elem_of_singleton. by split.
  - vm_compute. reflexivity.
Defined.

End TranslateFacts.
